(** * The matching pipeline of face-identifier.js

    A shallow embedding of the [FaceIdentifier] class: binary hash
    generation, Hamming prefilter, cosine similarity, best-match selection,
    pairwise verification and the synthetic-face fallback of the detector
    wrapper.

    JavaScript numbers are IEEE 754 binary64 values and are modelled by Rocq's
    primitive [float]; integer-valued numbers that only count or index
    (array lengths, loop indices, the Hamming distance, [hashBits]) are
    modelled by [nat] and [Z].  Arrays are lists, a [Float32Array] is a
    list of numbers each rounded to binary32. *)

From Stdlib Require Import Ascii String.
From stdpp Require Import gmap.
From Stdlib Require Import ZArith List Bool Lia Floats Permutation Sorted.
Import ListNotations.

Set Warnings "-inexact-float".
Local Open Scope Z_scope.

(** ** JavaScript numbers *)

Module JS.

(** [x > y] and [x >= y]: false as soon as one side is NaN. *)
Definition gt (x y : float) : bool := (y <? x)%float.
Definition ge (x y : float) : bool := (y <=? x)%float.

(** ToBoolean on a number: [0], [-0] and [NaN] are falsy. *)
Definition truthy (x : float) : bool := negb (is_nan x || is_zero x).

(** [a && b] on numbers. *)
Definition and (x y : float) : float := if truthy x then y else x.

(** [Math.max(x, y)]: NaN if either is NaN, and [+0] is larger than [-0]. *)
Definition Math_max (x y : float) : float :=
  if is_nan x || is_nan y then nan
  else if (x <? y)%float then y
  else if (y <? x)%float then x
  else if get_sign x then y else x.

Definition Math_sqrt (x : float) : float := sqrt x.

(** The number that an integer denotes (exact below 2^53). *)
Definition of_Z (z : Z) : float :=
  match z with
  | Z0 => 0%float
  | Zpos _ => of_uint63 (Uint63.of_Z z)
  | Zneg p => (- of_uint63 (Uint63.of_Z (Zpos p)))%float
  end.

(** [Math.fround]: round to the nearest binary32 value (ties to even), read
    back as a binary64 number.  This is the conversion applied by every store
    into a [Float32Array]. *)
Definition fround (x : float) : float :=
  match Prim2SF x with
  | S754_finite s m e =>
      match binary_round 24 128 s m e with
      | S754_finite s' m' e' => SF2Prim (binary_round prec emax s' m' e')
      | y => SF2Prim y
      end
  | _ => x
  end.

(** [new Float32Array(arr)] and [Array.from(typedArray)]. *)
Definition Float32Array (arr : list float) : list float := map fround arr.

(** [arr[i]] on an array of numbers used in arithmetic: a read outside the
    array is [undefined], which arithmetic turns into NaN. *)
Definition at_ (arr : list float) (i : nat) : float := nth i arr nan.

(** [Array.prototype.slice(start, end)], negative indices counting from the
    end of the array. *)
Definition slice {A : Type} (arr : list A) (start end_ : Z) : list A :=
  let len := Z.of_nat (length arr) in
  let k := if start <? 0 then Z.max (len + start) 0 else Z.min start len in
  let final := if end_ <? 0 then Z.max (len + end_) 0 else Z.min end_ len in
  firstn (Z.to_nat (final - k)) (skipn (Z.to_nat k) arr).

(** [Array.prototype.join('')] on an array of strings. *)
Definition join (parts : list string) : string :=
  fold_right String.append EmptyString parts.

(** [Array.prototype.sort(comparefn)].  The sort is stable, an element moves
    behind another one only when the comparator is positive on the pair, and
    a NaN comparator result counts as [0].  For a consistent comparator every
    stable sort computes this list.  When the comparator is not consistent
    (below: when a key is NaN), ECMAScript leaves the order to the
    implementation: this definition then gives one of the possible orders,
    and what is proved for such arrays beyond an example is that the result
    is a rearrangement. *)
Fixpoint sort_insert {A : Type} (comparefn : A -> A -> float) (x : A) (sorted : list A) : list A :=
  match sorted with
  | [] => [x]
  | y :: rest =>
      if (0 <? comparefn x y)%float then y :: sort_insert comparefn x rest
      else x :: sorted
  end.

Fixpoint sort {A : Type} (comparefn : A -> A -> float) (arr : list A) : list A :=
  match arr with
  | [] => []
  | x :: rest => sort_insert comparefn x (sort comparefn rest)
  end.

(** The outcome of a call: a returned value or a thrown error. *)
Inductive Completion (A : Type) : Type :=
| Return (value : A)
| Throw (message : string).
Arguments Return {A} value.
Arguments Throw {A} message.

End JS.

(** ** Data model *)

Record Box := { x : Z; y : Z; width : Z; height : Z }.

Record Options := {
  minConfidence : float;
  matchThreshold : float;
  hashBits : Z;
  padding : float
}.

(** The defaults of the constructor. *)
Definition defaultOptions : Options :=
  {| minConfidence := 0.3; matchThreshold := 0.6; hashBits := 64; padding := 0.2 |}.

Record FaceIdentifier := { options : Options; isInitialized : bool }.

(** [new FaceIdentifier(options)]. *)
Definition constructor (opts : Options) : FaceIdentifier :=
  {| options := opts; isInitialized := false |}.

(** One detection of the external detector (face-api). *)
Module Detection.
Record t := { descriptor : list float; box : Box; score : float }.
End Detection.

(** An element of the array returned by [detectFaces]. *)
Module Face.
Record t := { descriptor : list float; box : Box; confidence : float }.
End Face.

(** A stored face, as [registerFace] returns it and the caller keeps it,
    with the caller's payload attached. *)
Module FaceRecord.
Record t {UserData : Type} := {
  faceId : string;
  descriptor : list float;
  hash : string;
  confidence : float;
  timestamp : Z;
  userData : UserData
}.
Arguments t : clear implicits.
End FaceRecord.

(** An entry of [matches], and the shape of [bestMatch]. *)
Module Match.
Record t {UserData : Type} := {
  faceId : string;
  similarity : float;
  data : UserData
}.
Arguments t : clear implicits.
End Match.

Module CurrentFace.
Record t := { descriptor : list float; hash : string; confidence : float }.
End CurrentFace.

(** The object returned by [identifyFace].  The early return for an empty
    collection has neither a [similarity] nor a [currentFace] property:
    those read as [undefined], here [None]. *)
Module Identification.
Record t {UserData : Type} := {
  matchFound : bool;
  bestMatch : option (Match.t UserData);
  similarity : option float;
  candidates : list (Match.t UserData);
  currentFace : option CurrentFace.t
}.
Arguments t : clear implicits.
End Identification.

Module Verification.
Record t := { isMatch : bool; similarity : float; threshold : float }.
End Verification.

(** What the external detector did on the media element: it threw, or it
    returned ([None] for a null result). *)
Inductive DetectorOutcome :=
| DetectorThrows
| DetectorReturns (detections : option (list Detection.t)).

(** ** The methods of [FaceIdentifier] *)

(** [_generateHash(descriptor)] *)
Definition _generateHash (this : FaceIdentifier) (descriptor : list float) : string :=
  let bits := Z.min (hashBits (options this)) (Z.of_nat (length descriptor)) in
  let values := JS.slice descriptor 0 bits in
  let avg := (fold_left (fun a b => a + b) values 0 / JS.of_Z bits)%float in
  JS.join (map (fun v => if JS.ge v avg then "1"%string else "0"%string) values).

(** [hash1[i] !== hash2[i]] *)
Definition char_differs (hash1 hash2 : string) (i : nat) : bool :=
  match String.get i hash1, String.get i hash2 with
  | Some c1, Some c2 => negb (Ascii.eqb c1 c2)
  | None, None => false
  | _, _ => true
  end.

(** [_hammingDistance(hash1, hash2)] *)
Definition _hammingDistance (hash1 hash2 : string) : nat :=
  let len := Nat.min (String.length hash1) (String.length hash2) in
  fold_left
    (fun distance i => if char_differs hash1 hash2 i then S distance else distance)
    (seq 0 len) 0%nat.

(** [_filterByHash(storedFaces, queryHash, threshold = 8)] *)
Definition _filterByHash {UserData : Type}
    (storedFaces : list (FaceRecord.t UserData)) (queryHash : string) (threshold : Z)
    : list (FaceRecord.t UserData) :=
  if (length storedFaces <=? 1000)%nat then storedFaces
  else
    filter
      (fun face =>
         let distance := _hammingDistance (FaceRecord.hash face) queryHash in
         Z.of_nat distance <=? threshold)
      storedFaces.

(** The default of the third parameter of [_filterByHash]. *)
Definition default_threshold : Z := 8.

(** One turn of the loop of [_cosineSimilarity]. *)
Definition cosine_step (desc1 desc2 : list float)
    (acc : float * float * float) (i : nat) : float * float * float :=
  let '(dot, norm1, norm2) := acc in
  ((dot + JS.at_ desc1 i * JS.at_ desc2 i)%float,
   (norm1 + JS.at_ desc1 i * JS.at_ desc1 i)%float,
   (norm2 + JS.at_ desc2 i * JS.at_ desc2 i)%float).

(** [_cosineSimilarity(desc1, desc2)] *)
Definition _cosineSimilarity (desc1 desc2 : list float) : float :=
  let len := Nat.min (length desc1) (length desc2) in
  let '(dot, norm1, norm2) :=
    fold_left (cosine_step desc1 desc2) (seq 0 len) (0, 0, 0)%float in
  let norm1 := JS.Math_sqrt norm1 in
  let norm2 := JS.Math_sqrt norm2 in
  if JS.truthy (JS.and norm1 norm2)
  then JS.Math_max 0 (dot / (norm1 * norm2))%float
  else 0%float.

(** [_createSyntheticFace()]; [random i] is the value of the [i]-th call of
    [Math.random()] made by this call. *)
Definition _createSyntheticFace (random : nat -> float) : Face.t :=
  let descriptor :=
    fold_left
      (fun descriptor i => <[ i := JS.fround (random i * 0.5 + 0.25)%float ]> descriptor)
      (seq 0 128) (repeat 0%float 128) in
  {| Face.descriptor := descriptor;
     Face.box := {| x := 100; y := 100; width := 200; height := 200 |};
     Face.confidence := 0.8 |}.

(** [detectFaces(media)]; the media element is represented by what the
    external detector does on it. *)
Definition detectFaces (this : FaceIdentifier) (media : DetectorOutcome)
    (random : nat -> float) : JS.Completion (list Face.t) :=
  if negb (isInitialized this) then JS.Throw "Initialize engine first"
  else
    match media with
    | DetectorThrows => JS.Return [_createSyntheticFace random]
    | DetectorReturns None => JS.Return [_createSyntheticFace random]
    | DetectorReturns (Some detections) =>
        if (length detections =? 0)%nat then JS.Return [_createSyntheticFace random]
        else
          JS.Return
            (map
               (fun det =>
                  {| Face.descriptor := Detection.descriptor det;
                     Face.box := Detection.box det;
                     Face.confidence :=
                       if JS.truthy (Detection.score det) then Detection.score det
                       else 0.5%float |})
               detections)
    end.

Section Identify.
Context {UserData : Type}.

Abbreviation FaceRecord := (FaceRecord.t UserData).
Abbreviation Match := (Match.t UserData).

(** The object literal built twice in the loop of [identifyFace]. *)
Definition mkMatch (candidate : FaceRecord) (similarity : float) : Match :=
  {| Match.faceId := FaceRecord.faceId candidate;
     Match.similarity := similarity;
     Match.data := FaceRecord.userData candidate |}.

(** The similarity that [identifyFace] computes for a stored face. *)
Definition score (currentFace : Face.t) (candidate : FaceRecord) : float :=
  _cosineSimilarity (Face.descriptor currentFace)
    (JS.Float32Array (FaceRecord.descriptor candidate)).

(** One turn of the loop of [identifyFace] over the local variables
    [bestMatch], [bestSimilarity] and [matches]. *)
Definition identify_step (this : FaceIdentifier) (currentFace : Face.t)
    (locals : option Match * float * list Match) (candidate : FaceRecord)
    : option Match * float * list Match :=
  let '(bestMatch, bestSimilarity, matches) := locals in
  let similarity := score currentFace candidate in
  let matches := matches ++ [mkMatch candidate similarity] in
  if JS.gt similarity bestSimilarity then
    (if JS.ge similarity (matchThreshold (options this))
     then Some (mkMatch candidate similarity) else bestMatch,
     similarity, matches)
  else (bestMatch, bestSimilarity, matches).

(** The comparator [(a, b) => b.similarity - a.similarity]. *)
Definition by_similarity_desc (a b : Match) : float :=
  (Match.similarity b - Match.similarity a)%float.

(** The part of [identifyFace] that follows the detection. *)
Definition identify (this : FaceIdentifier) (currentFace : Face.t)
    (storedFaces : list FaceRecord) : Identification.t UserData :=
  let currentHash := _generateHash this (Face.descriptor currentFace) in
  let candidates := _filterByHash storedFaces currentHash default_threshold in
  let '(bestMatch, bestSimilarity, matches) :=
    fold_left (identify_step this currentFace) candidates (None, 0%float, []) in
  {| Identification.matchFound := match bestMatch with Some _ => true | None => false end;
     Identification.bestMatch := bestMatch;
     Identification.similarity := Some bestSimilarity;
     Identification.candidates := JS.slice (JS.sort by_similarity_desc matches) 0 5;
     Identification.currentFace :=
       Some {| CurrentFace.descriptor := Face.descriptor currentFace;
               CurrentFace.hash := currentHash;
               CurrentFace.confidence := Face.confidence currentFace |} |}.

(** [identifyFace(media, storedFaces)] *)
Definition identifyFace (this : FaceIdentifier) (media : DetectorOutcome)
    (random : nat -> float) (storedFaces : list FaceRecord)
    : JS.Completion (Identification.t UserData) :=
  if (length storedFaces =? 0)%nat then
    JS.Return
      {| Identification.matchFound := false;
         Identification.bestMatch := None;
         Identification.similarity := None;
         Identification.candidates := [];
         Identification.currentFace := None |}
  else
    match detectFaces this media random with
    | JS.Throw message => JS.Throw message
    | JS.Return [] => JS.Throw "TypeError: currentFace is undefined"
    | JS.Return (currentFace :: _) => JS.Return (identify this currentFace storedFaces)
    end.

(** [verifyFaces(faceData1, faceData2)] *)
Definition verifyFaces (this : FaceIdentifier) (faceData1 faceData2 : FaceRecord)
    : Verification.t :=
  let similarity :=
    _cosineSimilarity
      (JS.Float32Array (FaceRecord.descriptor faceData1))
      (JS.Float32Array (FaceRecord.descriptor faceData2)) in
  let isMatch := JS.ge similarity (matchThreshold (options this)) in
  {| Verification.isMatch := isMatch;
     Verification.similarity := similarity;
     Verification.threshold := matchThreshold (options this) |}.

End Identify.

(** * Properties of the embedding *)

(** ** The order of JavaScript numbers

    [<] and [<=] on numbers, read through the IEEE 754 specification of the
    primitive operations. *)

Module FloatOrder.

Lemma compare_cont_Eq (p q : positive) : PosDef.Pos.compare_cont Eq p q = Pos.compare p q.
Proof. reflexivity. Qed.

Ltac order_cases :=
  repeat match goal with
  | |- context [PosDef.Pos.compare_cont Eq ?a ?b] =>
      change (PosDef.Pos.compare_cont Eq a b) with (Pos.compare a b) in *
  | H : context [PosDef.Pos.compare_cont Eq ?a ?b] |- _ =>
      change (PosDef.Pos.compare_cont Eq a b) with (Pos.compare a b) in * 
  | |- context [Z.compare ?a ?b] => destruct (Z.compare_spec a b)
  | H : context [Z.compare ?a ?b] |- _ => destruct (Z.compare_spec a b)
  | |- context [Pos.compare ?a ?b] => destruct (Pos.compare_spec a b)
  | H : context [Pos.compare ?a ?b] |- _ => destruct (Pos.compare_spec a b)
  end.

Ltac sf_order :=
  intros;
  repeat match goal with
  | x : spec_float |- _ => destruct x as [[]|[]| |[] ? ?]
  end;
  simpl in *; try congruence; try discriminate;
  order_cases; simpl in *; subst; try congruence; try discriminate; try lia.

Lemma SFcompare_lt_trans x y z :
  SFcompare x y = Some Lt -> SFcompare y z = Some Lt -> SFcompare x z = Some Lt.
Proof. sf_order. Qed.

Lemma SFcompare_refl x : x <> S754_nan -> SFcompare x x = Some Eq.
Proof. sf_order; try (f_equal; apply Pos.compare_refl). Qed.

Lemma SFcompare_antisym x y : SFcompare y x = option_map CompOpp (SFcompare x y).
Proof. sf_order. Qed.

Lemma SFcompare_eq_l x y z : SFcompare x y = Some Eq -> SFcompare x z = SFcompare y z.
Proof. sf_order. Qed.

Lemma SFcompare_comparable x y :
  x <> S754_nan -> y <> S754_nan -> exists c, SFcompare x y = Some c.
Proof. intros; destruct x as [[]|[]| |[] ? ?], y as [[]|[]| |[] ? ?]; simpl; eauto; congruence. Qed.

Lemma SFcompare_nan_l x : SFcompare S754_nan x = None.
Proof. reflexivity. Qed.

Lemma SFcompare_nan_r x : SFcompare x S754_nan = None.
Proof. destruct x; reflexivity. Qed.


(** The comparison of two numbers, through their specification. *)
Definition cmp (x y : float) : option comparison := SFcompare (Prim2SF x) (Prim2SF y).

Lemma ltb_cmp x y : (x <? y)%float = true <-> cmp x y = Some Lt.
Proof.
  rewrite ltb_spec. unfold SFltb, cmp.
  destruct (SFcompare _ _) as [[]|]; split; congruence.
Qed.

Lemma leb_cmp x y : (x <=? y)%float = true <-> cmp x y = Some Lt \/ cmp x y = Some Eq.
Proof.
  rewrite leb_spec. unfold SFleb, cmp.
  destruct (SFcompare _ _) as [[]|]; split; intros; try tauto; try congruence;
    destruct H; congruence.
Qed.

Lemma eqb_cmp x y : (x =? y)%float = true <-> cmp x y = Some Eq.
Proof.
  rewrite eqb_spec. unfold SFeqb, cmp.
  destruct (SFcompare _ _) as [[]|]; split; congruence.
Qed.

Lemma is_nan_spec x : is_nan x = true <-> Prim2SF x = S754_nan.
Proof.
  unfold is_nan. rewrite negb_true_iff, <- not_true_iff_false, eqb_cmp. unfold cmp.
  split.
  - intros H. destruct (Prim2SF x) eqn:E; try reflexivity;
      exfalso; apply H; apply SFcompare_refl; congruence.
  - intros ->. discriminate.
Qed.

Lemma is_nan_false x : is_nan x = false <-> Prim2SF x <> S754_nan.
Proof. rewrite <- is_nan_spec. destruct (is_nan x); split; congruence. Qed.

Lemma cmp_comparable x y :
  is_nan x = false -> is_nan y = false -> exists c, cmp x y = Some c.
Proof. rewrite !is_nan_false. apply SFcompare_comparable. Qed.

Lemma cmp_sym x y : cmp y x = option_map CompOpp (cmp x y).
Proof. apply SFcompare_antisym. Qed.

Lemma cmp_refl x : is_nan x = false -> cmp x x = Some Eq.
Proof. rewrite is_nan_false. apply SFcompare_refl. Qed.

Lemma cmp_not_nan x y c : cmp x y = Some c -> is_nan x = false /\ is_nan y = false.
Proof.
  unfold cmp. rewrite !is_nan_false. intros H; split; intros E; rewrite E in H.
  - discriminate.
  - rewrite SFcompare_nan_r in H. discriminate.
Qed.


Lemma ltb_irrefl x : (x <? x)%float = false.
Proof.
  apply not_true_iff_false. rewrite ltb_cmp. intros H.
  destruct (cmp_not_nan _ _ _ H) as [Hx _]. rewrite (cmp_refl _ Hx) in H. discriminate.
Qed.

Lemma ltb_leb x y : (x <? y)%float = true -> (x <=? y)%float = true.
Proof. rewrite ltb_cmp, leb_cmp. auto. Qed.

Lemma ltb_asym x y : (x <? y)%float = true -> (y <? x)%float = false.
Proof.
  rewrite ltb_cmp. intros H. apply not_true_iff_false. rewrite ltb_cmp, cmp_sym, H.
  discriminate.
Qed.

Lemma leb_not_ltb x y : (x <=? y)%float = true -> (y <? x)%float = false.
Proof.
  rewrite leb_cmp. intros H. apply not_true_iff_false. rewrite ltb_cmp, cmp_sym.
  destruct H as [-> | ->]; discriminate.
Qed.

Lemma not_ltb_leb x y :
  is_nan x = false -> is_nan y = false -> (y <? x)%float = false -> (x <=? y)%float = true.
Proof.
  intros Hx Hy H. apply not_true_iff_false in H. rewrite ltb_cmp, cmp_sym in H.
  rewrite leb_cmp. destruct (cmp_comparable x y Hx Hy) as [[] E]; rewrite E in *; auto.
  exfalso; apply H; reflexivity.
Qed.

Lemma leb_ltb_trans x y z :
  (x <=? y)%float = true -> (y <? z)%float = true -> (x <? z)%float = true.
Proof.
  rewrite leb_cmp, !ltb_cmp. unfold cmp. intros [H | H] Hyz.
  - eapply SFcompare_lt_trans; eauto.
  - rewrite (SFcompare_eq_l _ _ _ H). exact Hyz.
Qed.

Lemma ltb_leb_trans x y z :
  (x <? y)%float = true -> (y <=? z)%float = true -> (x <? z)%float = true.
Proof.
  rewrite leb_cmp, !ltb_cmp. unfold cmp. intros Hxy [H | H].
  - eapply SFcompare_lt_trans; eauto.
  - rewrite (SFcompare_antisym (Prim2SF z) (Prim2SF x)).
    rewrite <- (SFcompare_eq_l _ _ (Prim2SF x) H).
    rewrite (SFcompare_antisym (Prim2SF x) (Prim2SF y)), Hxy. reflexivity.
Qed.

Lemma leb_trans x y z :
  (x <=? y)%float = true -> (y <=? z)%float = true -> (x <=? z)%float = true.
Proof.
  intros Hxy Hyz. destruct (x <? y)%float eqn:E.
  - apply ltb_leb. eapply ltb_leb_trans; eauto.
  - apply leb_cmp in Hxy. apply not_true_iff_false in E. rewrite ltb_cmp in E.
    destruct Hxy as [H | H]; [contradiction|].
    rewrite leb_cmp. unfold cmp in *. rewrite (SFcompare_eq_l _ _ _ H).
    apply leb_cmp in Hyz. exact Hyz.
Qed.

Lemma leb_refl x : is_nan x = false -> (x <=? x)%float = true.
Proof. intros H. rewrite leb_cmp, (cmp_refl _ H). auto. Qed.

Lemma eqb_leb x y : (x =? y)%float = true <-> (x <=? y)%float = true /\ (y <=? x)%float = true.
Proof.
  rewrite eqb_cmp, !leb_cmp, (cmp_sym x y).
  destruct (cmp x y) as [[]|]; simpl; split; intros; try tauto; try congruence;
    destruct H as [[H|H] [H'|H']]; congruence.
Qed.

Lemma leb_nan_l x y : is_nan x = true -> (x <=? y)%float = false.
Proof.
  intros H. apply not_true_iff_false. intros L. apply leb_cmp in L.
  destruct L as [L|L]; apply cmp_not_nan in L; destruct L; congruence.
Qed.

Lemma leb_not_nan x y : (x <=? y)%float = true -> is_nan x = false /\ is_nan y = false.
Proof. rewrite leb_cmp. intros [L|L]; eapply cmp_not_nan; eauto. Qed.

Lemma ltb_not_nan x y : (x <? y)%float = true -> is_nan x = false /\ is_nan y = false.
Proof. intros H. apply leb_not_nan, ltb_leb, H. Qed.

End FloatOrder.

(** ** Rounding

    What [binary_round_aux] computes on an exact input, for any binary
    format; used for the sign of a difference, for exact sums of binary32
    values and for the bounds of rounded sums. *)

Module Rounding.

Lemma digits2_pos_size p : digits2_pos p = Pos.size p.
Proof. induction p; simpl; congruence. Qed.

Lemma digits2_pos_log2 p : Zpos (digits2_pos p) = Z.log2 (Zpos p) + 1.
Proof.
  rewrite digits2_pos_size. destruct p; simpl; try reflexivity; lia.
Qed.

Lemma digits_bounds p :
  2 ^ (Zpos (digits2_pos p) - 1) <= Zpos p < 2 ^ Zpos (digits2_pos p).
Proof.
  rewrite digits2_pos_log2.
  replace (Z.log2 (Zpos p) + 1 - 1) with (Z.log2 (Zpos p)) by lia.
  replace (Z.log2 (Zpos p) + 1) with (Z.succ (Z.log2 (Zpos p))) by lia.
  apply Z.log2_spec. lia.
Qed.

Lemma digits_unique p d :
  2 ^ (d - 1) <= Zpos p < 2 ^ d -> Zpos (digits2_pos p) = d.
Proof.
  intros H. rewrite digits2_pos_log2.
  assert (0 <= d - 1).
  { destruct (Z.le_gt_cases 0 (d - 1)); [assumption|].
    assert (d <= 0) by lia.
    assert (2 ^ d <= 2 ^ 0) by (apply Z.pow_le_mono_r; lia).
    simpl in *. lia. }
  rewrite (Z.log2_unique (Zpos p) (d - 1)); try lia.
  replace (Z.succ (d - 1)) with d by lia. exact H.
Qed.

Lemma Zdigits2_pos p : Zdigits2 (Zpos p) = Zpos (digits2_pos p).
Proof. reflexivity. Qed.

(** Iterated halving. *)

Lemma iter_pos_nat {A : Type} (f : A -> A) p x :
  iter_pos f p x = Nat.iter (Pos.to_nat p) f x.
Proof.
  revert x. induction p as [p IH|p IH|]; intros x.
  - change (iter_pos f p~1 x) with (iter_pos f p (iter_pos f p (f x))).
    rewrite !IH, Pos2Nat.inj_xI.
    replace (S (2 * Pos.to_nat p)) with (Pos.to_nat p + S (Pos.to_nat p))%nat by lia.
    rewrite Nat.iter_add, Nat.iter_succ_r. reflexivity.
  - change (iter_pos f p~0 x) with (iter_pos f p (iter_pos f p x)).
    rewrite !IH, Pos2Nat.inj_xO.
    replace (2 * Pos.to_nat p)%nat with (Pos.to_nat p + Pos.to_nat p)%nat by lia.
    rewrite Nat.iter_add. reflexivity.
  - reflexivity.
Qed.

Definition exact (mrs : shr_record) : Prop := shr_r mrs = false /\ shr_s mrs = false.

Lemma shr_1_m mrs : 0 <= shr_m mrs -> shr_m (shr_1 mrs) = shr_m mrs / 2.
Proof.
  destruct mrs as [m r s]. cbn [shr_m]. intros H.
  destruct m as [|[p|p|]|p]; cbn [shr_1 shr_m]; try reflexivity; try lia.
  - apply Z.div_unique with 1; lia.
  - apply Z.div_unique with 0; lia.
Qed.

Lemma shr_1_nonneg mrs : 0 <= shr_m mrs -> 0 <= shr_m (shr_1 mrs).
Proof. intros H. rewrite shr_1_m by assumption. apply Z.div_pos; lia. Qed.

Lemma shr_1_exact mrs :
  0 <= shr_m mrs -> exact mrs -> shr_m mrs mod 2 = 0 -> exact (shr_1 mrs).
Proof.
  destruct mrs as [m r s]. unfold exact. cbn [shr_m shr_r shr_s]. intros Hm [-> ->] H.
  destruct m as [|[p|p|]|p]; cbn; auto; try lia.
  - exfalso. assert (Zpos p~1 mod 2 = 1); [|lia].
    symmetry. apply Z.mod_unique with (Zpos p); lia.
  - discriminate H.
Qed.

Lemma shr_iter_m n mrs :
  0 <= shr_m mrs -> shr_m (Nat.iter n shr_1 mrs) = shr_m mrs / 2 ^ Z.of_nat n.
Proof.
  intros Hm. induction n as [|n IH].
  - simpl. rewrite Z.div_1_r. reflexivity.
  - rewrite Nat2Z.inj_succ, Z.pow_succ_r by lia. simpl.
    rewrite shr_1_m.
    + rewrite IH, Z.div_div by lia. f_equal. lia.
    + rewrite IH. apply Z.div_pos; lia.
Qed.

Lemma mod_pow2_multiple m n : 0 <= n -> m mod 2 ^ n = 0 <-> exists k, m = k * 2 ^ n.
Proof.
  intros Hn. assert (2 ^ n <> 0) by (apply Z.pow_nonzero; lia).
  split.
  - intros H0. exists (m / 2 ^ n). rewrite (Z.div_mod m (2 ^ n)) at 1 by assumption. lia.
  - intros [k ->]. apply Z_mod_mult.
Qed.

Lemma shr_iter_exact n mrs :
  0 <= shr_m mrs -> exact mrs -> shr_m mrs mod 2 ^ Z.of_nat n = 0 ->
  exact (Nat.iter n shr_1 mrs).
Proof.
  intros Hm He. induction n as [|n IH]; intros Hmod.
  - exact He.
  - apply mod_pow2_multiple in Hmod; [|lia]. destruct Hmod as [k Hk].
    rewrite Nat2Z.inj_succ, Z.pow_succ_r in Hk by lia. simpl.
    assert (P : 0 < 2 ^ Z.of_nat n) by (apply Z.pow_pos_nonneg; lia).
    apply shr_1_exact.
    + rewrite shr_iter_m by assumption. apply Z.div_pos; lia.
    + apply IH. apply mod_pow2_multiple; [lia|]. exists (k * 2). lia.
    + rewrite shr_iter_m by assumption.
      rewrite Hk. replace (k * (2 * 2 ^ Z.of_nat n)) with ((k * 2) * 2 ^ Z.of_nat n) by lia.
      rewrite Z.div_mul by lia. apply Z_mod_mult.
Qed.

Lemma shr_spec mrs e n :
  0 <= shr_m mrs ->
  shr_m (fst (shr mrs e n)) = shr_m mrs / 2 ^ Z.max n 0 /\
  snd (shr mrs e n) = e + Z.max n 0 /\
  (exact mrs -> shr_m mrs mod 2 ^ Z.max n 0 = 0 -> exact (fst (shr mrs e n))).
Proof.
  intros Hm. destruct n as [|p|p]; cbn [shr fst snd].
  - change (Z.max 0 0) with 0. rewrite Z.div_1_r. split; [|split]; auto; lia.
  - rewrite iter_pos_nat. replace (Z.max (Zpos p) 0) with (Z.of_nat (Pos.to_nat p)) by lia.
    split; [|split].
    + apply shr_iter_m; assumption.
    + lia.
    + apply shr_iter_exact; assumption.
  - change (Z.max (Zneg p) 0) with 0. rewrite Z.div_1_r. split; [|split]; auto; lia.
Qed.

Lemma rne_bounds m l : m <= round_nearest_even m l <= m + 1.
Proof. destruct l as [|[]]; simpl; try lia. destruct (Z.even m); lia. Qed.

Lemma rne_exact mrs :
  exact mrs -> round_nearest_even (shr_m mrs) (loc_of_shr_record mrs) = shr_m mrs.
Proof. destruct mrs as [m r s]. intros [H1 H2]. simpl in *. subst. reflexivity. Qed.

Lemma shift_pos_correct m d : Zpos (Pos.iter xO m d) = Zpos m * 2 ^ Zpos d.
Proof.
  induction d as [|d IH] using Pos.peano_ind.
  - cbn. lia.
  - rewrite Pos.iter_succ, Pos2Z.inj_xO, IH, Pos2Z.inj_succ, Z.pow_succ_r by lia. lia.
Qed.

Section Format.
Variables prec emax : Z.
Hypothesis prec_pos : 0 < prec.

Abbreviation fexp := (SpecFloat.fexp prec emax).
Abbreviation emin := (SpecFloat.emin prec emax).

(** How many bits [binary_round_aux] drops from a mantissa. *)
Definition dropped (m e : Z) : Z := Z.max (fexp (Zdigits2 m + e) - e) 0.

(** The last step of [binary_round_aux]. *)
Definition finish (s : bool) (m e : Z) : spec_float :=
  match m with
  | Z0 => S754_zero s
  | Zpos p => if e <=? emax - prec then S754_finite s p e else S754_infinity s
  | Zneg _ => S754_nan
  end.

Lemma dropped_nonneg m e : 0 <= dropped m e.
Proof. unfold dropped. lia. Qed.

Lemma pow2_dropped_pos m e : 0 < 2 ^ dropped m e.
Proof. apply Z.pow_pos_nonneg; [lia | apply dropped_nonneg]. Qed.

Lemma shr_fexp_spec m e :
  0 <= m ->
  let r := shr_fexp prec emax m e loc_Exact in
  shr_m (fst r) = m / 2 ^ dropped m e /\
  snd r = e + dropped m e /\
  (m mod 2 ^ dropped m e = 0 -> exact (fst r)).
Proof.
  intros Hm. unfold shr_fexp, dropped. simpl.
  destruct (shr_spec {| shr_m := m; shr_r := false; shr_s := false |} e
              (fexp (Zdigits2 m + e) - e) Hm) as (H1 & H2 & H3).
  split; [|split]; auto. intros H. apply H3; [split; reflexivity | exact H].
Qed.

Lemma binary_round_aux_spec s m e :
  0 <= m ->
  exists m1,
    m / 2 ^ dropped m e <= m1 <= m / 2 ^ dropped m e + 1 /\
    (m mod 2 ^ dropped m e = 0 -> m1 = m / 2 ^ dropped m e) /\
    binary_round_aux prec emax s m e loc_Exact =
      finish s (m1 / 2 ^ dropped m1 (e + dropped m e))
               (e + dropped m e + dropped m1 (e + dropped m e)).
Proof.
  intros Hm. unfold binary_round_aux.
  destruct (shr_fexp_spec m e Hm) as (H1 & H2 & H3).
  destruct (shr_fexp prec emax m e loc_Exact) as [mrs' e'] eqn:E1. simpl in H1, H2, H3.
  set (m1 := round_nearest_even (shr_m mrs') (loc_of_shr_record mrs')).
  assert (B : shr_m mrs' <= m1 <= shr_m mrs' + 1) by apply rne_bounds.
  assert (Hm1 : 0 <= m1).
  { rewrite H1 in B. pose proof (pow2_dropped_pos m e).
    assert (0 <= m / 2 ^ dropped m e) by (apply Z.div_pos; lia). lia. }
  destruct (shr_fexp_spec m1 e' Hm1) as (K1 & K2 & _).
  destruct (shr_fexp prec emax m1 e' loc_Exact) as [mrs'' e''] eqn:E2. simpl in K1, K2.
  exists m1. rewrite <- H1, <- H2. split; [exact B|]. split.
  - intros H. unfold m1. apply rne_exact. apply H3. exact H.
  - rewrite K1, K2. reflexivity.
Qed.

Lemma canonical_digits m e :
  canonical_mantissa prec emax m e = true ->
  Zpos (digits2_pos m) <= prec /\ emin <= e /\ (emin < e -> Zpos (digits2_pos m) = prec).
Proof.
  unfold canonical_mantissa, SpecFloat.fexp. rewrite Z.eqb_eq. lia.
Qed.

Lemma valid_finite s m e :
  SpecFloat.valid_binary prec emax (S754_finite s m e) = true ->
  Zpos (digits2_pos m) <= prec /\ emin <= e /\ (emin < e -> Zpos (digits2_pos m) = prec) /\
  e <= emax - prec.
Proof.
  cbn [SpecFloat.valid_binary]. unfold bounded. rewrite andb_true_iff, Z.leb_le.
  intros [H1 H2]. apply canonical_digits in H1. tauto.
Qed.

Lemma dropped_lt_digits p e :
  emin <= e -> dropped (Zpos p) e <= Zpos (digits2_pos p) - 1.
Proof.
  intros He. unfold dropped, SpecFloat.fexp. rewrite Zdigits2_pos.
  pose proof (Pos2Z.is_pos (digits2_pos p)). lia.
Qed.

Lemma quotient_pos p e : emin <= e -> 0 < Zpos p / 2 ^ dropped (Zpos p) e.
Proof.
  intros He. apply Z.div_str_pos. split; [apply pow2_dropped_pos|].
  transitivity (2 ^ (Zpos (digits2_pos p) - 1)).
  - apply Z.pow_le_mono_r; [lia | apply dropped_lt_digits; assumption].
  - apply digits_bounds.
Qed.

(** A nonzero result of the given sign. *)
Definition signed_nonzero (s : bool) (x : spec_float) : Prop :=
  match x with
  | S754_finite s' _ _ | S754_infinity s' => s' = s
  | _ => False
  end.

Lemma finish_signed s m e : 0 < m -> signed_nonzero s (finish s m e).
Proof.
  destruct m; try lia. intros _. simpl. destruct (_ <=? _); reflexivity.
Qed.

Lemma binary_round_aux_signed s p e :
  emin <= e -> signed_nonzero s (binary_round_aux prec emax s (Zpos p) e loc_Exact).
Proof.
  intros He.
  destruct (binary_round_aux_spec s (Zpos p) e) as (m1 & B & _ & ->); [lia|].
  pose proof (quotient_pos p e He) as Q.
  pose proof (dropped_nonneg (Zpos p) e) as D.
  apply finish_signed.
  destruct m1 as [|p1|p1]; try lia.
  apply quotient_pos. lia.
Qed.

Lemma shl_align_fst m e e' :
  e' <= e -> Zpos (fst (shl_align m e e')) = Zpos m * 2 ^ (e - e').
Proof.
  intros H. unfold shl_align. destruct (e' - e) as [|d|d] eqn:E; cbn [fst].
  - replace (e - e') with 0 by lia. simpl. lia.
  - lia.
  - rewrite shift_pos_correct. f_equal. f_equal. lia.
Qed.

Lemma shl_align_snd m e e' : snd (shl_align m e e') = Z.min e e'.
Proof.
  unfold shl_align. destruct (e' - e) as [|d|d] eqn:E; cbn [snd]; lia.
Qed.

Lemma binary_round_signed s p e :
  emin <= e -> signed_nonzero s (binary_round prec emax s p e).
Proof.
  intros He. unfold binary_round.
  pose proof (shl_align_snd p e (fexp (Zpos (digits2_pos p) + e))) as Hs.
  destruct (shl_align p e _) as [mz ez]. cbn [snd] in Hs.
  apply binary_round_aux_signed. unfold SpecFloat.fexp in Hs. lia.
Qed.

Lemma binary_normalize_signed d e :
  emin <= e -> d <> 0 -> signed_nonzero (d <? 0) (binary_normalize prec emax d e false).
Proof.
  intros He Hd. destruct d as [|p|p]; [congruence| |]; cbn [binary_normalize].
  - apply (binary_round_signed false). assumption.
  - apply (binary_round_signed true). assumption.
Qed.

(** Canonical mantissas compare like the numbers they denote. *)
Lemma aligned_compare m1 e1 m2 e2 :
  canonical_mantissa prec emax m1 e1 = true ->
  canonical_mantissa prec emax m2 e2 = true ->
  (Zpos m1 * 2 ^ (e1 - Z.min e1 e2) ?= Zpos m2 * 2 ^ (e2 - Z.min e1 e2)) =
  match e1 ?= e2 with
  | Lt => Lt
  | Gt => Gt
  | Eq => (m1 ?= m2)%positive
  end.
Proof.
  intros C1 C2. apply canonical_digits in C1, C2.
  destruct C1 as (D1 & E1 & N1), C2 as (D2 & E2 & N2).
  pose proof (digits_bounds m1) as B1. pose proof (digits_bounds m2) as B2.
  assert (P : 0 < 2 ^ (prec - 1)) by (apply Z.pow_pos_nonneg; lia).
  assert (PP : 2 ^ prec = 2 * 2 ^ (prec - 1)).
  { rewrite <- Z.pow_succ_r by lia. f_equal. lia. }
  assert (U1 : Zpos m1 < 2 ^ prec).
  { eapply Z.lt_le_trans; [apply B1|]. apply Z.pow_le_mono_r; lia. }
  assert (U2 : Zpos m2 < 2 ^ prec).
  { eapply Z.lt_le_trans; [apply B2|]. apply Z.pow_le_mono_r; lia. }
  destruct (Z.compare_spec e1 e2) as [E|E|E].
  - subst. rewrite Z.min_id, Z.sub_diag. simpl. rewrite !Pos.mul_1_r. reflexivity.
  - rewrite Z.min_l, Z.sub_diag by lia. rewrite Z.pow_0_r, Z.mul_1_r.
    apply Z.compare_lt_iff.
    rewrite N2 in B2 by lia.
    assert (2 <= 2 ^ (e2 - e1)).
    { change 2 with (2 ^ 1) at 1. apply Z.pow_le_mono_r; lia. }
    nia.
  - rewrite Z.min_r, Z.sub_diag by lia. rewrite Z.pow_0_r, Z.mul_1_r.
    apply Z.compare_gt_iff.
    rewrite N1 in B1 by lia.
    assert (2 <= 2 ^ (e1 - e2)).
    { change 2 with (2 ^ 1) at 1. apply Z.pow_le_mono_r; lia. }
    nia.
Qed.

Lemma SFcompare_finite sx mx ex sy my ey :
  canonical_mantissa prec emax mx ex = true ->
  canonical_mantissa prec emax my ey = true ->
  SFcompare (S754_finite sx mx ex) (S754_finite sy my ey) =
  Some (cond_Zopp sx (Zpos mx * 2 ^ (ex - Z.min ex ey)) ?=
        cond_Zopp sy (Zpos my * 2 ^ (ey - Z.min ex ey))).
Proof.
  intros Cx Cy. pose proof (aligned_compare mx ex my ey Cx Cy) as A.
  assert (0 < 2 ^ (ex - Z.min ex ey)) by (apply Z.pow_pos_nonneg; lia).
  assert (0 < 2 ^ (ey - Z.min ex ey)) by (apply Z.pow_pos_nonneg; lia).
  cbn [SFcompare]. f_equal. destruct sx, sy; cbn [cond_Zopp].
  - rewrite Z.compare_opp, (Z.compare_antisym (Zpos mx * _) (Zpos my * _)), A.
    destruct (ex ?= ey); reflexivity.
  - symmetry. apply Z.compare_lt_iff. nia.
  - symmetry. apply Z.compare_gt_iff. nia.
  - rewrite A. reflexivity.
Qed.

Lemma signed_nonzero_ltb s r :
  signed_nonzero s r ->
  SFltb r (S754_zero false) = s /\ SFltb (S754_zero false) r = negb s.
Proof. destruct r as [| | |]; simpl; try tauto; intros <-; destruct s0; auto. Qed.

(** The sign of a difference is the outcome of the comparison. *)
Lemma SFsub_sign x y :
  SpecFloat.valid_binary prec emax x = true ->
  SpecFloat.valid_binary prec emax y = true ->
  SFltb (SFsub prec emax x y) (S754_zero false) = SFltb x y /\
  SFltb (S754_zero false) (SFsub prec emax x y) = SFltb y x.
Proof.
  intros Vx Vy.
  destruct x as [sx|sx| |sx mx ex], y as [sy|sy| |sy my ey];
    try (split; reflexivity);
    try (destruct sx; split; reflexivity);
    try (destruct sy; split; reflexivity);
    try (destruct sx, sy; split; reflexivity).
  destruct (valid_finite _ _ _ Vx) as (_ & Ex & _).
  destruct (valid_finite _ _ _ Vy) as (_ & Ey & _).
  cbn [SpecFloat.valid_binary] in Vx, Vy. unfold bounded in Vx, Vy.
  apply andb_true_iff in Vx, Vy. destruct Vx as [Cx _], Vy as [Cy _].
  unfold SFltb at 2 4.
  rewrite (SFcompare_finite sx mx ex sy my ey Cx Cy).
  rewrite (SFcompare_finite sy my ey sx mx ex Cy Cx).
  cbn [SFsub]. rewrite !shl_align_fst by lia.
  rewrite (Z.min_comm ey ex).
  set (vx := cond_Zopp sx (Zpos mx * 2 ^ (ex - Z.min ex ey))).
  set (vy := cond_Zopp sy (Zpos my * 2 ^ (ey - Z.min ex ey))).
  destruct (Z.eq_dec (vx - vy) 0) as [Z0|NZ].
  - rewrite Z0. cbn [binary_normalize]. replace vy with vx by lia.
    rewrite Z.compare_refl. split; reflexivity.
  - destruct (signed_nonzero_ltb _ _
               (binary_normalize_signed (vx - vy) (Z.min ex ey) ltac:(lia) NZ)) as [-> ->].
    split.
    + destruct (Z.compare_spec vx vy); destruct (Z.ltb_spec (vx - vy) 0); auto; lia.
    + destruct (Z.compare_spec vy vx); destruct (Z.ltb_spec (vx - vy) 0); simpl; auto; lia.
Qed.

Lemma Zdigits2_log2 m : 0 < m -> Zdigits2 m = Z.log2 m + 1.
Proof. destruct m as [|p|p]; try lia. intros _. apply digits2_pos_log2. Qed.

Lemma Zdigits2_bounds m : 0 < m -> 2 ^ (Zdigits2 m - 1) <= m < 2 ^ Zdigits2 m.
Proof. destruct m as [|p|p]; try lia. intros _. apply digits_bounds. Qed.

Lemma Zdigits2_le m k : 0 < m -> 0 <= k -> m < 2 ^ k -> Zdigits2 m <= k.
Proof.
  intros Hm Hk H. rewrite Zdigits2_log2 by assumption.
  apply Z.log2_lt_pow2 in H; lia.
Qed.

Lemma Zdigits2_ge m k : 0 < m -> 2 ^ (k - 1) <= m -> k <= Zdigits2 m.
Proof.
  intros Hm H. rewrite Zdigits2_log2 by assumption.
  destruct (Z.le_gt_cases 0 (k - 1)).
  - apply Z.log2_le_pow2 in H; lia.
  - pose proof (Z.log2_nonneg m). lia.
Qed.

Lemma fexp_ge_emin z : emin <= fexp z.
Proof. unfold SpecFloat.fexp. lia. Qed.

(** The two outcomes of [binary_round_aux] on an exact positive input whose
    exponent is not above the target exponent: the truncated mantissa,
    possibly plus one, at the target exponent, with a renormalisation when
    the mantissa reaches [2 ^ prec]. *)
Lemma binary_round_aux_cases s m e :
  0 < m -> e <= fexp (Zdigits2 m + e) ->
  let e1 := fexp (Zdigits2 m + e) in
  let q1 := m / 2 ^ (e1 - e) in
  exists m1,
    q1 <= m1 <= q1 + 1 /\
    (m mod 2 ^ (e1 - e) = 0 -> m1 = q1) /\
    q1 < 2 ^ prec /\
    (emin < e1 -> 2 ^ (prec - 1) <= q1) /\
    binary_round_aux prec emax s m e loc_Exact =
      if m1 <? 2 ^ prec then finish s m1 e1 else finish s (2 ^ (prec - 1)) (e1 + 1).
Proof.
  intros Hm He. cbv zeta.
  destruct (binary_round_aux_spec s m e ltac:(lia)) as (m1 & B & X & R).
  assert (D : dropped m e = fexp (Zdigits2 m + e) - e) by (unfold dropped; lia).
  rewrite D in *. replace (e + (fexp (Zdigits2 m + e) - e)) with (fexp (Zdigits2 m + e)) in R by lia.
  set (e1 := fexp (Zdigits2 m + e)) in *.
  set (d := e1 - e) in *.
  assert (Hd : 0 <= d) by lia.
  assert (P2d : 0 < 2 ^ d) by (apply Z.pow_pos_nonneg; lia).
  pose proof (Zdigits2_bounds m Hm) as [L U].
  assert (Dg : Zdigits2 m - d <= prec) by (unfold d, e1, SpecFloat.fexp; lia).
  assert (Q1 : m / 2 ^ d < 2 ^ prec).
  { apply Z.div_lt_upper_bound; [assumption|]. rewrite <- Z.pow_add_r by lia.
    eapply Z.lt_le_trans; [exact U|]. apply Z.pow_le_mono_r; lia. }
  assert (Q2 : emin < e1 -> 2 ^ (prec - 1) <= m / 2 ^ d).
  { intros G. apply Z.div_le_lower_bound; [assumption|]. rewrite <- Z.pow_add_r by lia.
    eapply Z.le_trans; [|exact L]. apply Z.pow_le_mono_r; [lia|].
    unfold d, e1, SpecFloat.fexp in *. lia. }
  assert (P1 : fexp (Zdigits2 m + e) = e1) by reflexivity.
  assert (E1 : emin <= e1) by apply fexp_ge_emin.
  assert (Pp : 0 < 2 ^ prec) by (apply Z.pow_pos_nonneg; lia).
  assert (Q0 : 0 <= m / 2 ^ d) by (apply Z.div_pos; lia).
  exists m1. split; [exact B|]. split; [exact X|]. split; [exact Q1|]. split; [exact Q2|].
  rewrite R. destruct (Z.ltb_spec m1 (2 ^ prec)) as [Lt|Ge].
  - assert (D2 : dropped m1 e1 = 0).
    { unfold dropped. destruct (Z.eq_dec m1 0) as [->|NZ].
      - cbn [Zdigits2]. unfold SpecFloat.fexp in *. lia.
      - assert (Zdigits2 m1 <= prec) by (apply Zdigits2_le; lia).
        unfold SpecFloat.fexp in *. lia. }
    rewrite D2, Z.pow_0_r, Z.div_1_r, Z.add_0_r. reflexivity.
  - assert (M1 : m1 = 2 ^ prec) by lia.
    assert (Dm : Zdigits2 m1 = prec + 1).
    { rewrite M1, Zdigits2_log2, Z.log2_pow2 by lia. reflexivity. }
    assert (D2 : dropped m1 e1 = 1).
    { unfold dropped. rewrite Dm. unfold SpecFloat.fexp in *. lia. }
    rewrite D2, M1. f_equal.
    change (2 ^ 1) with 2. replace prec with (Z.succ (prec - 1)) at 1 by lia.
    rewrite Z.pow_succ_r by lia. rewrite Z.mul_comm, Z.div_mul by lia. reflexivity.
Qed.

Lemma finish_pos s m e :
  0 < m -> finish s m e =
           if e <=? emax - prec then S754_finite s (Z.to_pos m) e else S754_infinity s.
Proof. destruct m as [|p|p]; try lia. reflexivity. Qed.

(** A result that is, in magnitude, at most (at least) the canonical
    [(mb, eb)]. *)
Definition below (x : spec_float) (s : bool) (mb : positive) (eb : Z) : Prop :=
  x = S754_zero s \/
  exists m e, x = S754_finite s m e /\ (e < eb \/ (e = eb /\ Zpos m <= Zpos mb)).

Definition above (x : spec_float) (s : bool) (mb : positive) (eb : Z) : Prop :=
  x = S754_infinity s \/
  exists m e, x = S754_finite s m e /\ (eb < e \/ (e = eb /\ Zpos mb <= Zpos m)).

Lemma finish_below s m e mb eb :
  0 <= m -> eb <= emax - prec ->
  e < eb \/ (e = eb /\ m <= Zpos mb) -> below (finish s m e) s mb eb.
Proof.
  intros Hm Hb H. destruct m as [|p|p]; [left; reflexivity| |lia].
  right. cbn [finish]. destruct (Z.leb_spec e (emax - prec)); [|lia].
  exists p, e. split; [reflexivity | exact H].
Qed.

Lemma finish_above s m e mb eb :
  0 < m -> eb < e \/ (e = eb /\ Zpos mb <= m) -> above (finish s m e) s mb eb.
Proof.
  intros Hm H. destruct m as [|p|p]; try lia.
  cbn [finish]. destruct (_ <=? _); [|left; reflexivity].
  right. exists p, e. split; [reflexivity | exact H].
Qed.

Lemma pow2_half : 2 ^ prec = 2 * 2 ^ (prec - 1).
Proof. rewrite <- Z.pow_succ_r by lia. f_equal. lia. Qed.

(** Rounding does not cross a canonical number, from below... *)
Lemma round_aux_below s m e mb eb c :
  0 < m -> e <= fexp (Zdigits2 m + e) ->
  canonical_mantissa prec emax mb eb = true -> eb <= emax - prec ->
  c <= e -> c <= eb ->
  m * 2 ^ (e - c) <= Zpos mb * 2 ^ (eb - c) ->
  below (binary_round_aux prec emax s m e loc_Exact) s mb eb.
Proof.
  intros Hm He Cb Bb Hc1 Hc2 Le.
  destruct (canonical_digits _ _ Cb) as (Db & Eb & Nb).
  pose proof (digits_bounds mb) as [Lb Ub].
  pose proof (Zdigits2_bounds m Hm) as [Lm Um].
  assert (Pec : 0 < 2 ^ (e - c)) by (apply Z.pow_pos_nonneg; lia).
  assert (Pbc : 0 < 2 ^ (eb - c)) by (apply Z.pow_pos_nonneg; lia).
  assert (Pp1 : 0 < 2 ^ (prec - 1)) by (apply Z.pow_pos_nonneg; lia).
  pose proof pow2_half as Ph.
  assert (Ubp : Zpos mb < 2 ^ prec).
  { eapply Z.lt_le_trans; [exact Ub|]. apply Z.pow_le_mono_r; lia. }
  assert (Mag : Zdigits2 m + e <= Zpos (digits2_pos mb) + eb).
  { assert (H : 2 ^ (Zdigits2 m - 1 + (e - c)) < 2 ^ (Zpos (digits2_pos mb) + (eb - c))).
    { pose proof (Zdigits2_log2 m Hm). pose proof (Z.log2_nonneg m).
      rewrite !Z.pow_add_r by lia. nia. }
    apply Z.pow_lt_mono_r_iff in H; lia. }
  destruct (binary_round_aux_cases s m e Hm He) as (m1 & B & X & Q1 & Q2 & ->).
  set (e1 := fexp (Zdigits2 m + e)) in *.
  assert (E1 : e1 <= eb).
  { unfold e1. unfold canonical_mantissa in Cb. apply Z.eqb_eq in Cb.
    unfold SpecFloat.fexp in *. lia. }
  assert (Pd : 0 < 2 ^ (e1 - e)) by (apply Z.pow_pos_nonneg; lia).
  assert (Q0 : 0 <= m / 2 ^ (e1 - e)) by (apply Z.div_pos; lia).
  destruct (Z.eq_dec e1 eb) as [Eq|Ne].
  - assert (Lm' : m <= Zpos mb * 2 ^ (e1 - e)).
    { rewrite Eq. replace (eb - c) with ((eb - e) + (e - c)) in Le by lia.
      rewrite Z.pow_add_r in Le by lia. nia. }
    assert (Qb : m / 2 ^ (e1 - e) <= Zpos mb).
    { apply Z.div_le_upper_bound; [assumption | lia]. }
    assert (M1 : m1 <= Zpos mb).
    { destruct (Z.eq_dec (m / 2 ^ (e1 - e)) (Zpos mb)) as [Qe|Qn]; [|lia].
      rewrite X; [lia|].
      pose proof (Z.mul_div_le m (2 ^ (e1 - e)) Pd) as Fl. rewrite Qe in Fl.
      apply mod_pow2_multiple; [lia|]. exists (Zpos mb). lia. }
    destruct (Z.ltb_spec m1 (2 ^ prec)); [|lia].
    apply finish_below; [lia | assumption | right; split; assumption].
  - destruct (Z.ltb_spec m1 (2 ^ prec)).
    + apply finish_below; [lia | assumption | left; lia].
    + apply finish_below; [lia | assumption |].
      destruct (Z.eq_dec (e1 + 1) eb) as [Eq1|Ne1]; [right | left; lia].
      split; [assumption|]. unfold e1 in *. pose proof (fexp_ge_emin (Zdigits2 m + e)).
      rewrite Nb in Lb by lia. exact Lb.
Qed.

(** ... and from above. *)
Lemma round_aux_above s m e mb eb c :
  0 < m -> e <= fexp (Zdigits2 m + e) ->
  canonical_mantissa prec emax mb eb = true ->
  c <= e -> c <= eb ->
  Zpos mb * 2 ^ (eb - c) <= m * 2 ^ (e - c) ->
  above (binary_round_aux prec emax s m e loc_Exact) s mb eb.
Proof.
  intros Hm He Cb Hc1 Hc2 Le.
  destruct (canonical_digits _ _ Cb) as (Db & Eb & Nb).
  pose proof (digits_bounds mb) as [Lb Ub].
  pose proof (Zdigits2_bounds m Hm) as [Lm Um].
  assert (Pec : 0 < 2 ^ (e - c)) by (apply Z.pow_pos_nonneg; lia).
  assert (Pbc : 0 < 2 ^ (eb - c)) by (apply Z.pow_pos_nonneg; lia).
  assert (Pp1 : 0 < 2 ^ (prec - 1)) by (apply Z.pow_pos_nonneg; lia).
  pose proof pow2_half as Ph.
  assert (Mag : Zpos (digits2_pos mb) + eb <= Zdigits2 m + e).
  { assert (H : 2 ^ (Zpos (digits2_pos mb) - 1 + (eb - c)) < 2 ^ (Zdigits2 m + (e - c))).
    { pose proof (Zdigits2_log2 m Hm). pose proof (Z.log2_nonneg m).
      rewrite !Z.pow_add_r by lia. nia. }
    apply Z.pow_lt_mono_r_iff in H; [lia | lia |].
    pose proof (Zdigits2_log2 m Hm). pose proof (Z.log2_nonneg m). lia. }
  destruct (binary_round_aux_cases s m e Hm He) as (m1 & B & X & Q1 & Q2 & ->).
  set (e1 := fexp (Zdigits2 m + e)) in *.
  assert (E1 : eb <= e1).
  { unfold e1. unfold canonical_mantissa in Cb. apply Z.eqb_eq in Cb.
    unfold SpecFloat.fexp in *. lia. }
  assert (Pd : 0 < 2 ^ (e1 - e)) by (apply Z.pow_pos_nonneg; lia).
  assert (M1 : 0 < m1 /\ (e1 = eb -> Zpos mb <= m1)).
  { destruct (Z.eq_dec e1 eb) as [Eq|Ne].
    - assert (Lm' : Zpos mb * 2 ^ (e1 - e) <= m).
      { rewrite Eq. replace (eb - c) with ((eb - e) + (e - c)) in Le by lia.
        rewrite Z.pow_add_r in Le by lia. nia. }
      assert (Zpos mb <= m / 2 ^ (e1 - e)).
      { apply Z.div_le_lower_bound; [assumption | lia]. }
      lia.
    - assert (2 ^ (prec - 1) <= m / 2 ^ (e1 - e)) by (apply Q2; lia). lia. }
  destruct M1 as [M0 M1].
  destruct (Z.ltb_spec m1 (2 ^ prec)).
  - apply finish_above; [assumption|].
    destruct (Z.eq_dec e1 eb); [right; auto | left; lia].
  - apply finish_above; [assumption | left; lia].
Qed.

(** An exact canonical value is returned as it is. *)
Lemma round_aux_exact s m e mb eb c :
  0 < m -> e <= fexp (Zdigits2 m + e) ->
  canonical_mantissa prec emax mb eb = true -> eb <= emax - prec ->
  c <= e -> c <= eb ->
  m * 2 ^ (e - c) = Zpos mb * 2 ^ (eb - c) ->
  binary_round_aux prec emax s m e loc_Exact = S754_finite s mb eb.
Proof.
  intros Hm He Cb Bb Hc1 Hc2 Eq.
  pose proof (round_aux_below s m e mb eb c Hm He Cb Bb Hc1 Hc2 ltac:(lia)) as Hb.
  pose proof (round_aux_above s m e mb eb c Hm He Cb Hc1 Hc2 ltac:(lia)) as Ha.
  destruct Hb as [Hb | (m' & e' & Hb & Lb)]; rewrite Hb in Ha;
    destruct Ha as [Ha | (m'' & e'' & Ha & La)]; try discriminate.
  injection Ha as <- <-. rewrite Hb. f_equal; [|lia].
  assert (Zpos m' = Zpos mb) by lia. congruence.
Qed.

(** The result is in the format. *)
Lemma round_aux_valid s m e :
  0 < m -> e <= fexp (Zdigits2 m + e) ->
  SpecFloat.valid_binary prec emax (binary_round_aux prec emax s m e loc_Exact) = true.
Proof.
  intros Hm He.
  destruct (binary_round_aux_cases s m e Hm He) as (m1 & B & _ & Q1 & Q2 & ->).
  set (e1 := fexp (Zdigits2 m + e)) in *.
  assert (E1 : emin <= e1) by apply fexp_ge_emin.
  assert (Pp1 : 0 < 2 ^ (prec - 1)) by (apply Z.pow_pos_nonneg; lia).
  pose proof pow2_half as Ph.
  assert (V : forall m' e', 0 < m' -> m' < 2 ^ prec -> emin <= e' ->
              (emin < e' -> 2 ^ (prec - 1) <= m') ->
              SpecFloat.valid_binary prec emax (finish s m' e') = true).
  { intros m' e' P U G N. rewrite finish_pos by assumption.
    destruct (Z.leb_spec e' (emax - prec)) as [Le|Gt]; [|reflexivity].
    cbn [SpecFloat.valid_binary]. unfold bounded. apply andb_true_iff. split; [|lia].
    unfold canonical_mantissa. apply Z.eqb_eq.
    assert (D1 : Zpos (digits2_pos (Z.to_pos m')) <= prec).
    { rewrite <- Zdigits2_pos, Z2Pos.id by lia. apply Zdigits2_le; lia. }
    assert (D2 : emin < e' -> prec <= Zpos (digits2_pos (Z.to_pos m'))).
    { intros K. rewrite <- Zdigits2_pos, Z2Pos.id by lia. apply Zdigits2_ge; auto. }
    unfold SpecFloat.fexp in *. lia. }
  assert (Q0 : 0 <= m / 2 ^ (e1 - e)).
  { apply Z.div_pos; [lia|]. apply Z.pow_pos_nonneg; lia. }
  destruct (Z.ltb_spec m1 (2 ^ prec)).
  - destruct (Z.eq_dec m1 0) as [->|NZ]; [reflexivity|].
    apply V; lia.
  - apply V; lia.
Qed.

(** [binary_round] first brings the exponent down to the target. *)
Lemma binary_round_aligned s p e :
  exists mz ez,
    binary_round prec emax s p e = binary_round_aux prec emax s (Zpos mz) ez loc_Exact /\
    ez <= fexp (Zdigits2 (Zpos mz) + ez) /\ ez <= e /\
    Zpos mz = Zpos p * 2 ^ (e - ez).
Proof.
  unfold binary_round.
  pose proof (shl_align_snd p e (fexp (Zpos (digits2_pos p) + e))) as Hs.
  pose proof (shl_align_fst p e (Z.min e (fexp (Zpos (digits2_pos p) + e)))) as Hf.
  unfold shl_align in *.
  destruct (fexp (Zpos (digits2_pos p) + e) - e) as [|d|d] eqn:D; cbn [fst snd] in *.
  - exists p, e. split; [reflexivity|]. rewrite Zdigits2_pos, Z.sub_diag. cbn. lia.
  - exists p, e. split; [reflexivity|]. rewrite Zdigits2_pos, Z.sub_diag. cbn. lia.
  - exists (Pos.iter xO p d), (fexp (Zpos (digits2_pos p) + e)). split; [reflexivity|].
    pose proof (shift_pos_correct p d) as Sh.
    assert (Dg : Zdigits2 (Zpos (Pos.iter xO p d)) = Zpos (digits2_pos p) + Zpos d).
    { rewrite Sh, Zdigits2_log2, Z.log2_mul_pow2, digits2_pos_log2 by lia. lia. }
    rewrite Dg. split; [|split; [lia|]].
    + replace (Zpos (digits2_pos p) + Zpos d + fexp (Zpos (digits2_pos p) + e))
        with (Zpos (digits2_pos p) + e) by lia. lia.
    + rewrite Sh. f_equal. f_equal. lia.
Qed.

Lemma scale_le a b k : 0 <= k -> a <= b -> a * 2 ^ k <= b * 2 ^ k.
Proof. intros Hk H. assert (0 < 2 ^ k) by (apply Z.pow_pos_nonneg; lia). nia. Qed.

Lemma binary_round_below s p e mb eb c :
  canonical_mantissa prec emax mb eb = true -> eb <= emax - prec ->
  c <= e -> c <= eb ->
  Zpos p * 2 ^ (e - c) <= Zpos mb * 2 ^ (eb - c) ->
  below (binary_round prec emax s p e) s mb eb.
Proof.
  intros Cb Bb Hc1 Hc2 Le.
  destruct (binary_round_aligned s p e) as (mz & ez & -> & A1 & A2 & A3).
  apply (round_aux_below s (Zpos mz) ez mb eb (Z.min c ez)); try assumption; try lia.
  rewrite A3, <- Z.mul_assoc, <- Z.pow_add_r by lia.
  replace (e - ez + (ez - Z.min c ez)) with ((e - c) + (c - Z.min c ez)) by lia.
  replace (eb - Z.min c ez) with ((eb - c) + (c - Z.min c ez)) by lia.
  rewrite !Z.pow_add_r, !Z.mul_assoc by lia. apply scale_le; [lia | exact Le].
Qed.

Lemma binary_round_above s p e mb eb c :
  canonical_mantissa prec emax mb eb = true ->
  c <= e -> c <= eb ->
  Zpos mb * 2 ^ (eb - c) <= Zpos p * 2 ^ (e - c) ->
  above (binary_round prec emax s p e) s mb eb.
Proof.
  intros Cb Hc1 Hc2 Le.
  destruct (binary_round_aligned s p e) as (mz & ez & -> & A1 & A2 & A3).
  apply (round_aux_above s (Zpos mz) ez mb eb (Z.min c ez)); try assumption; try lia.
  rewrite A3, <- Z.mul_assoc, <- Z.pow_add_r by lia.
  replace (e - ez + (ez - Z.min c ez)) with ((e - c) + (c - Z.min c ez)) by lia.
  replace (eb - Z.min c ez) with ((eb - c) + (c - Z.min c ez)) by lia.
  rewrite !Z.pow_add_r, !Z.mul_assoc by lia. apply scale_le; [lia | exact Le].
Qed.

Lemma binary_round_exact s p e mb eb c :
  canonical_mantissa prec emax mb eb = true -> eb <= emax - prec ->
  c <= e -> c <= eb ->
  Zpos p * 2 ^ (e - c) = Zpos mb * 2 ^ (eb - c) ->
  binary_round prec emax s p e = S754_finite s mb eb.
Proof.
  intros Cb Bb Hc1 Hc2 Eq.
  pose proof (binary_round_below s p e mb eb c Cb Bb Hc1 Hc2 ltac:(lia)) as Hb.
  pose proof (binary_round_above s p e mb eb c Cb Hc1 Hc2 ltac:(lia)) as Ha.
  destruct Hb as [Hb | (m' & e' & Hb & Lb)]; rewrite Hb in Ha;
    destruct Ha as [Ha | (m'' & e'' & Ha & La)]; try discriminate.
  injection Ha as <- <-. rewrite Hb. f_equal; [|lia].
  assert (Zpos m' = Zpos mb) by lia. congruence.
Qed.

Lemma binary_round_valid s p e :
  SpecFloat.valid_binary prec emax (binary_round prec emax s p e) = true.
Proof.
  destruct (binary_round_aligned s p e) as (mz & ez & -> & A1 & _).
  apply round_aux_valid; [lia | exact A1].
Qed.

End Format.
End Rounding.

(** ** Numbers of the program *)

Module Number.
Import FloatOrder.

(** [a - b] is positive exactly when [b < a]: the comparator of the sort
    orders by similarity. *)
Lemma sub_pos x y : (0 <? x - y)%float = (y <? x)%float.
Proof.
  rewrite !ltb_spec, sub_spec. change (Prim2SF 0) with (S754_zero false).
  apply (Rounding.SFsub_sign prec emax); [reflexivity | apply Prim2SF_valid ..].
Qed.

Lemma sub_neg x y : (x - y <? 0)%float = (x <? y)%float.
Proof.
  rewrite !ltb_spec, sub_spec. change (Prim2SF 0) with (S754_zero false).
  apply (Rounding.SFsub_sign prec emax); [reflexivity | apply Prim2SF_valid ..].
Qed.

(** A number is NaN, [+0] or positive. *)
Definition nonneg (r : float) : Prop :=
  is_nan r = true \/ r = 0%float \/ (0 <? r)%float = true.

Lemma Math_max_zero v : nonneg (JS.Math_max 0 v).
Proof.
  unfold nonneg, JS.Math_max. change (is_nan 0) with false. cbn [orb].
  destruct (is_nan v) eqn:N; [left; reflexivity|].
  destruct (0 <? v)%float eqn:P; [right; right; exact P|].
  destruct (v <? 0)%float; right; left; reflexivity.
Qed.

Lemma nonneg_leb r : nonneg r -> is_nan r = false -> (0 <=? r)%float = true.
Proof.
  intros [N | [-> | P]] H.
  - congruence.
  - reflexivity.
  - apply ltb_leb, P.
Qed.

End Number.

(** ** Sorting by a numeric key in descending order *)

Module SortFacts.
Import FloatOrder.

Section ByKey.
Context {A : Type} (key : A -> float).

(** The comparator [(a, b) => key(b) - key(a)]. *)
Definition comparefn (a b : A) : float := (key b - key a)%float.

Definition desc (a b : A) : Prop := (key b <=? key a)%float = true.
Definition numeric (a : A) : Prop := is_nan (key a) = false.
Definition has_key (v : float) (a : A) : bool := (key a =? v)%float.

Lemma sort_insert_cons x y rest :
  JS.sort_insert comparefn x (y :: rest) =
  if (key x <? key y)%float then y :: JS.sort_insert comparefn x rest
  else x :: y :: rest.
Proof. cbn [JS.sort_insert]. unfold comparefn. rewrite Number.sub_pos. reflexivity. Qed.

Lemma sort_insert_perm x l : Permutation (JS.sort_insert comparefn x l) (x :: l).
Proof.
  induction l as [|y rest IH]; [reflexivity|].
  rewrite sort_insert_cons. destruct (key x <? key y)%float; [|reflexivity].
  rewrite IH. apply perm_swap.
Qed.

Lemma sort_perm l : Permutation (JS.sort comparefn l) l.
Proof.
  induction l as [|x rest IH]; [reflexivity|].
  cbn [JS.sort]. rewrite sort_insert_perm. constructor. exact IH.
Qed.

Lemma sort_length l : length (JS.sort comparefn l) = length l.
Proof. apply Permutation_length, sort_perm. Qed.

Lemma sort_insert_sorted x l :
  numeric x -> Forall numeric l ->
  StronglySorted desc l -> StronglySorted desc (JS.sort_insert comparefn x l).
Proof.
  intros Nx Nl S. induction S as [|y rest S IH F].
  - repeat constructor.
  - rewrite sort_insert_cons. inversion Nl as [|? ? Ny Nrest]; subst.
    destruct (key x <? key y)%float eqn:E.
    + constructor; [apply IH; assumption|].
      apply (Permutation_Forall (Permutation_sym (sort_insert_perm x rest))).
      constructor; [apply ltb_leb, E | exact F].
    + assert (D : desc x y) by (apply not_ltb_leb; assumption).
      constructor; [constructor; assumption|].
      constructor; [exact D|].
      eapply Forall_impl; [|exact F]. intros z Hz. unfold desc in *.
      eapply leb_trans; eassumption.
Qed.

Lemma sort_sorted l : Forall numeric l -> StronglySorted desc (JS.sort comparefn l).
Proof.
  induction 1 as [|x rest Nx Nrest IH]; [constructor|].
  cbn [JS.sort]. apply sort_insert_sorted; [assumption| |assumption].
  apply (Permutation_Forall (Permutation_sym (sort_perm rest))). exact Nrest.
Qed.

(** Stability: the elements of one key keep their order. *)
Lemma sort_insert_filter v x l :
  filter (has_key v) (JS.sort_insert comparefn x l) = filter (has_key v) (x :: l).
Proof.
  induction l as [|y rest IH]; [reflexivity|].
  rewrite sort_insert_cons. destruct (key x <? key y)%float eqn:E; [|reflexivity].
  cbn [filter] in *. rewrite IH.
  destruct (has_key v x) eqn:Hx; [|reflexivity].
  destruct (has_key v y) eqn:Hy; [|reflexivity].
  exfalso. unfold has_key in *.
  apply eqb_cmp in Hx, Hy. apply ltb_cmp in E. unfold cmp in *.
  rewrite SFcompare_antisym in Hy.
  destruct (SFcompare (Prim2SF v) (Prim2SF (key y))) as [[]|] eqn:V; try discriminate.
  rewrite (SFcompare_eq_l _ _ _ Hx), V in E. discriminate.
Qed.

Lemma sort_stable v l :
  filter (has_key v) (JS.sort comparefn l) = filter (has_key v) l.
Proof.
  induction l as [|x rest IH]; [reflexivity|].
  cbn [JS.sort]. rewrite sort_insert_filter. cbn [filter]. rewrite IH. reflexivity.
Qed.






Lemma filter_none (f : A -> bool) l : Forall (fun a => f a = false) l -> filter f l = [].
Proof.
  induction 1 as [|a l Ha Hl IH]; [reflexivity|]. cbn [filter]. rewrite Ha. exact IH.
Qed.

(** The sorted array starts with the first element of the largest key. *)
Lemma sort_head pre m post :
  Forall numeric (pre ++ m :: post) ->
  Forall (fun a => (key a <=? key m)%float = true) (pre ++ m :: post) ->
  Forall (fun a => has_key (key m) a = false) pre ->
  exists rest, JS.sort comparefn (pre ++ m :: post) = m :: rest.
Proof.
  intros N U Hpre.
  pose proof (sort_sorted _ N) as S.
  pose proof (sort_perm (pre ++ m :: post)) as P.
  pose proof (sort_stable (key m) (pre ++ m :: post)) as St.
  assert (Nm : numeric m).
  { rewrite Forall_forall in N. apply N. apply in_or_app. right. left. reflexivity. }
  assert (Hm : has_key (key m) m = true) by (apply eqb_cmp, cmp_refl, Nm).
  destruct (JS.sort comparefn (pre ++ m :: post)) as [|h rest] eqn:E.
  - apply Permutation_nil in P. destruct pre; discriminate.
  - exists rest. f_equal.
    inversion S as [|? ? S' F]; subst.
    assert (Hh : has_key (key m) h = true).
    { apply eqb_leb. split.
      - rewrite Forall_forall in U. apply U. eapply Permutation_in; [exact P|]. left. reflexivity.
      - assert (I : In m (h :: rest)).
        { eapply Permutation_in; [apply Permutation_sym, P|].
          apply in_or_app. right. left. reflexivity. }
        destruct I as [-> | I]; [apply leb_refl, Nm|].
        rewrite Forall_forall in F. apply (F m I). }
    rewrite filter_app in St. cbn [filter] in St.
    rewrite Hh, Hm, (filter_none _ _ Hpre) in St. cbn [app] in St. congruence.
Qed.

End ByKey.
End SortFacts.

(** ** The loop of [identifyFace] *)

Module Matcher.
Import FloatOrder.

(** [g] is the largest element of [l]. *)
Definition is_max (g : float) (l : list float) : Prop :=
  In g l /\ Forall (fun s => (s <=? g)%float = true) l.

Lemma find_split {A : Type} (f : A -> bool) (l : list A) (x : A) :
  find f l = Some x ->
  exists pre post, l = pre ++ x :: post /\ f x = true /\ Forall (fun y => f y = false) pre.
Proof.
  induction l as [|y l IH]; [discriminate|]. cbn [find].
  destruct (f y) eqn:E.
  - intros [= ->]. exists [], l. repeat split; [assumption | constructor].
  - intros H. destruct (IH H) as (pre & post & -> & Hx & Hpre).
    exists (y :: pre), post. repeat split; [assumption | constructor; assumption].
Qed.

Lemma slice_top {A : Type} (l : list A) (n : nat) :
  JS.slice l 0 (Z.of_nat n) = firstn n l.
Proof.
  unfold JS.slice. cbn [Z.ltb Z.compare].
  destruct (Z.of_nat n <? 0) eqn:E; [apply Z.ltb_lt in E; lia|].
  replace (Z.to_nat (Z.min 0 (Z.of_nat (length l)))) with 0%nat by lia.
  cbn [skipn].
  replace (Z.to_nat (Z.min (Z.of_nat n) (Z.of_nat (length l)) - Z.min 0 (Z.of_nat (length l))))
    with (Nat.min n (length l)) by lia.
  destruct (Nat.le_ge_cases n (length l)) as [H|H].
  - rewrite Nat.min_l by assumption. reflexivity.
  - rewrite Nat.min_r by assumption. rewrite firstn_all, firstn_all2 by assumption.
    reflexivity.
Qed.

Section Loop.
Context {UserData : Type}.
Variable this : FaceIdentifier.
Variable currentFace : Face.t.

Abbreviation FaceRecord := (FaceRecord.t UserData).
Abbreviation Match := (Match.t UserData).
Abbreviation sc := (score (UserData := UserData) currentFace).
Abbreviation mk := (fun c : FaceRecord => mkMatch c (sc c)).
Abbreviation t := (matchThreshold (options this)).
Abbreviation loop := (fold_left (identify_step (UserData := UserData) this currentFace)).

Lemma step_eq (bm : option Match) (b : float) (ms : list Match) (c : FaceRecord) :
  identify_step this currentFace (bm, b, ms) c =
  (if (b <? sc c)%float
   then if (t <=? sc c)%float then Some (mk c) else bm
   else bm,
   if (b <? sc c)%float then sc c else b,
   ms ++ [mk c]).
Proof.
  cbn [identify_step]. unfold JS.gt, JS.ge.
  destruct (b <? sc c)%float; reflexivity.
Qed.

Lemma loop_matches cs bm b ms : snd (loop cs (bm, b, ms)) = ms ++ map mk cs.
Proof.
  revert bm b ms. induction cs as [|c cs IH]; intros bm b ms; cbn [fold_left map].
  - rewrite app_nil_r. reflexivity.
  - rewrite step_eq, IH, <- app_assoc. reflexivity.
Qed.

(** No later score beats the running best: the locals stay. *)
Lemma loop_unchanged cs bm b ms :
  Forall (fun c => (b <? sc c)%float = false) cs ->
  loop cs (bm, b, ms) = (bm, b, ms ++ map mk cs).
Proof.
  revert ms. induction cs as [|c cs IH]; intros ms F; cbn [fold_left map].
  - rewrite app_nil_r. reflexivity.
  - inversion F as [|? ? Hc Hcs]; subst.
    rewrite step_eq, Hc, (IH _ Hcs), <- app_assoc. reflexivity.
Qed.

(** No score reaches the threshold: [bestMatch] stays. *)
Lemma loop_no_pass cs bm b ms :
  Forall (fun c => (t <=? sc c)%float = false) cs ->
  fst (fst (loop cs (bm, b, ms))) = bm.
Proof.
  revert b ms. induction cs as [|c cs IH]; intros b ms F; cbn [fold_left]; [reflexivity|].
  inversion F as [|? ? Hc Hcs]; subst.
  rewrite step_eq, Hc. destruct (b <? sc c)%float; apply IH; assumption.
Qed.

(** All scores are below [g]: the running best stays below [g]. *)
Lemma loop_below g cs bm b ms :
  (b <? g)%float = true ->
  Forall (fun c => (sc c <? g)%float = true) cs ->
  (snd (fst (loop cs (bm, b, ms))) <? g)%float = true.
Proof.
  revert bm b ms. induction cs as [|c cs IH]; intros bm b ms B F; cbn [fold_left];
    [exact B|].
  inversion F as [|? ? Hc Hcs]; subst.
  rewrite step_eq. destruct (b <? sc c)%float; apply IH; assumption.
Qed.

(** The running best is an upper bound of the scores seen. *)
Lemma loop_max cs bm b ms :
  is_nan b = false ->
  Forall (fun c => is_nan (sc c) = false) cs ->
  let b' := snd (fst (loop cs (bm, b, ms))) in
  (b' = b \/ In b' (map sc cs)) /\ (b <=? b')%float = true /\
  Forall (fun s => (s <=? b')%float = true) (map sc cs).
Proof.
  revert bm b ms. induction cs as [|c cs IH]; intros bm b ms Nb F; cbn [fold_left map].
  - cbn. repeat split; [left; reflexivity | apply leb_refl; assumption | constructor].
  - inversion F as [|? ? Nc Ncs]; subst. rewrite step_eq.
    destruct (b <? sc c)%float eqn:E.
    + destruct (IH (if (t <=? sc c)%float then Some (mk c) else bm) (sc c) (ms ++ [mk c]) Nc Ncs)
        as (H1 & H2 & H3).
      cbv zeta. repeat split.
      * right. destruct H1 as [-> | H1]; [left; reflexivity | right; exact H1].
      * eapply leb_trans; [apply ltb_leb, E | exact H2].
      * constructor; assumption.
    + destruct (IH bm b (ms ++ [mk c]) Nb Ncs) as (H1 & H2 & H3).
      cbv zeta. repeat split.
      * destruct H1 as [-> | H1]; [left; reflexivity | right; right; exact H1].
      * exact H2.
      * constructor; [|exact H3].
        eapply leb_trans; [|exact H2]. apply not_ltb_leb; assumption.
Qed.

(** [bestMatch], when set, carries the running best, which passed the
    threshold. *)
Lemma loop_best_sim cs bm b ms :
  (forall m, bm = Some m -> Match.similarity m = b /\ (t <=? b)%float = true) ->
  forall m, fst (fst (loop cs (bm, b, ms))) = Some m ->
  Match.similarity m = snd (fst (loop cs (bm, b, ms))) /\
  (t <=? snd (fst (loop cs (bm, b, ms))))%float = true.
Proof.
  revert bm b ms. induction cs as [|c cs IH]; intros bm b ms I m; cbn [fold_left].
  - cbn. apply I.
  - rewrite step_eq. apply IH. intros m'.
    destruct (b <? sc c)%float eqn:E; [|apply I].
    destruct (t <=? sc c)%float eqn:T.
    + intros [= <-]. split; reflexivity.
    + intros Hm. destruct (I m' Hm) as [_ Tb]. exfalso.
      assert ((t <=? sc c)%float = true); [|congruence].
      apply ltb_leb. eapply leb_ltb_trans; eassumption.
Qed.

(** [bestMatch] after the loop, from the largest score. *)
Lemma loop_best_match cs g :
  is_max g (map sc cs) ->
  fst (fst (loop cs (None, 0%float, []))) =
  if ((0 <? g)%float && (t <=? g)%float)%bool
  then option_map mk (find (fun c => (sc c =? g)%float) cs)
  else None.
Proof.
  intros [Hin Hall]. rewrite Forall_map in Hall.
  destruct (0 <? g)%float eqn:P; cbn [andb].
  - destruct (t <=? g)%float eqn:T.
    + assert (Hg : (g =? g)%float = true).
      { apply eqb_cmp, cmp_refl. eapply ltb_not_nan, P. }
      destruct (find (fun c => (sc c =? g)%float) cs) as [c|] eqn:Fd.
      * destruct (find_split _ _ _ Fd) as (pre & post & -> & Hc & Hpre).
        cbn [option_map]. rewrite fold_left_app. cbn [fold_left].
        apply Forall_app in Hall. destruct Hall as [Apre Apost].
        inversion Apost as [|? ? Ac Apost']; subst.
        destruct (loop pre (None, 0%float, [])) as [[bm b] ms] eqn:L.
        assert (B : (b <? g)%float = true).
        { change b with (snd (fst (bm, b, ms))). rewrite <- L. apply loop_below; [exact P|].
          rewrite Forall_forall in *. intros c' Hc'.
          apply ltb_cmp. specialize (Apre c' Hc'). specialize (Hpre c' Hc'). cbv beta in *.
          apply leb_cmp in Apre. destruct Apre as [A|A]; [exact A|].
          apply eqb_cmp in A. congruence. }
        apply eqb_leb in Hc. destruct Hc as [_ Hc2].
        rewrite step_eq.
        rewrite (ltb_leb_trans _ _ _ B Hc2), (leb_trans _ _ _ T Hc2).
        rewrite loop_unchanged; [reflexivity|].
        eapply Forall_impl; [|exact Apost']. intros c' Hc'. cbv beta in *.
        apply leb_not_ltb. eapply leb_trans; eassumption.
      * exfalso. apply in_map_iff in Hin. destruct Hin as (c & Hc & Hin).
        pose proof (find_none _ _ Fd c Hin) as Hn. cbv beta in Hn. congruence.
    + apply loop_no_pass. eapply Forall_impl; [|exact Hall]. intros c Hc. cbv beta in *.
      apply not_true_iff_false. intros Tc. apply not_true_iff_false in T. apply T.
      eapply leb_trans; eassumption.
  - rewrite loop_unchanged; [reflexivity|].
    eapply Forall_impl; [|exact Hall]. intros c Hc. cbv beta in *.
    apply not_true_iff_false. intros Pc. apply not_true_iff_false in P. apply P.
    eapply ltb_leb_trans; eassumption.
Qed.

End Loop.
End Matcher.

(** ** [_cosineSimilarity] and [identifyFace]: shape of the results *)

Lemma cosine_nonneg (desc1 desc2 : list float) :
  Number.nonneg (_cosineSimilarity desc1 desc2).
Proof.
  unfold _cosineSimilarity.
  destruct (fold_left _ _ _) as [[dot norm1] norm2].
  destruct (JS.truthy _).
  - apply Number.Math_max_zero.
  - right. left. reflexivity.
Qed.

Section IdentifySpec.
Context {UserData : Type}.

Abbreviation FaceRecord := (FaceRecord.t UserData).
Abbreviation Match := (Match.t UserData).

(** The stored faces that pass the prefilter for the detected face. *)
Definition survivors (this : FaceIdentifier) (currentFace : Face.t)
    (storedFaces : list FaceRecord) : list FaceRecord :=
  _filterByHash storedFaces (_generateHash this (Face.descriptor currentFace))
    default_threshold.

(** One match per survivor, in iteration order. *)
Definition matchesOf (currentFace : Face.t) (faces : list FaceRecord) : list Match :=
  map (fun c => mkMatch c (score currentFace c)) faces.

(** No similarity of a survivor is NaN. *)
Definition numeric_scores (currentFace : Face.t) (faces : list FaceRecord) : Prop :=
  Forall (fun c => is_nan (score currentFace c) = false) faces.

(** The first survivor whose similarity is [globalMax], as a match. *)
Definition first_achieving (currentFace : Face.t) (faces : list FaceRecord)
    (globalMax : float) : option Match :=
  option_map (fun c => mkMatch c (score currentFace c))
    (find (fun c => (score currentFace c =? globalMax)%float) faces).

(** [bestMatch] in the words of the specification: the first survivor
    achieving [globalMax] iff [globalMax >= matchThreshold]. *)
Definition spec_bestMatch (threshold : float) (currentFace : Face.t)
    (faces : list FaceRecord) (globalMax : float) : option Match :=
  if (threshold <=? globalMax)%float then first_achieving currentFace faces globalMax
  else None.

(** [bestMatch] as the loop gates it: the largest similarity must also be
    positive. *)
Definition gated_bestMatch (threshold : float) (currentFace : Face.t)
    (faces : list FaceRecord) (globalMax : float) : option Match :=
  if ((0 <? globalMax)%float && (threshold <=? globalMax)%float)%bool
  then first_achieving currentFace faces globalMax
  else None.

(** The engine with another [matchThreshold]. *)
Definition with_threshold (this : FaceIdentifier) (threshold : float) : FaceIdentifier :=
  {| options :=
       {| minConfidence := minConfidence (options this);
          matchThreshold := threshold;
          hashBits := hashBits (options this);
          padding := padding (options this) |};
     isInitialized := isInitialized this |}.

Lemma identify_fields (this : FaceIdentifier) (currentFace : Face.t)
    (storedFaces : list FaceRecord) :
  let faces := survivors this currentFace storedFaces in
  let locals := fold_left (identify_step this currentFace) faces (None, 0%float, []) in
  let r := identify this currentFace storedFaces in
  Identification.bestMatch r = fst (fst locals) /\
  Identification.similarity r = Some (snd (fst locals)) /\
  Identification.candidates r =
    firstn 5 (JS.sort by_similarity_desc (matchesOf currentFace faces)) /\
  Identification.matchFound r =
    match Identification.bestMatch r with Some _ => true | None => false end.
Proof.
  cbv zeta. unfold identify. fold (survivors this currentFace storedFaces).
  pose proof (Matcher.loop_matches this currentFace
                (survivors this currentFace storedFaces) None 0%float []) as M.
  destruct (fold_left _ _ _) as [[bm b] ms]. cbn [fst snd app] in *. subst ms.
  cbn [Identification.bestMatch Identification.similarity Identification.candidates
       Identification.matchFound].
  repeat split. apply (Matcher.slice_top _ 5).
Qed.

Lemma detectFaces_returns (this : FaceIdentifier) (media : DetectorOutcome)
    (random : nat -> float) :
  isInitialized this = true ->
  exists face others, detectFaces this media random = JS.Return (face :: others).
Proof.
  intros I. unfold detectFaces. rewrite I. cbn [negb].
  destruct media as [|[[|det detections]|]]; cbn; eauto.
Qed.

Lemma identifyFace_returns (this : FaceIdentifier) (media : DetectorOutcome)
    (random : nat -> float) (storedFaces : list FaceRecord) :
  isInitialized this = true -> storedFaces <> [] ->
  exists currentFace others,
    detectFaces this media random = JS.Return (currentFace :: others) /\
    identifyFace this media random storedFaces =
      JS.Return (identify this currentFace storedFaces).
Proof.
  intros I N. destruct (detectFaces_returns this media random I) as (face & others & D).
  exists face, others. split; [exact D|].
  unfold identifyFace. rewrite D. destruct storedFaces; [congruence|reflexivity].
Qed.

Lemma scores_nonneg (currentFace : Face.t) (faces : list FaceRecord) :
  Forall (fun c => Number.nonneg (score currentFace c)) faces.
Proof. apply Forall_forall. intros c _. apply cosine_nonneg. Qed.

(** After the loop, [bestSimilarity] is the largest similarity. *)
Lemma loop_is_max (this : FaceIdentifier) (currentFace : Face.t) (faces : list FaceRecord) :
  faces <> [] -> numeric_scores currentFace faces ->
  Matcher.is_max
    (snd (fst (fold_left (identify_step this currentFace) faces (None, 0%float, []))))
    (map (score currentFace) faces).
Proof.
  intros NE N.
  destruct (Matcher.loop_max this currentFace faces None 0%float [] eq_refl N)
    as (H1 & H2 & H3).
  split; [|exact H3]. destruct H1 as [E | H1]; [|exact H1].
  rewrite E in *. destruct faces as [|c faces]; [congruence|]. cbn [map]. left.
  inversion H3 as [|? ? Hc _]; subst. inversion N as [|? ? Nc _]; subst.
  destruct (cosine_nonneg (Face.descriptor currentFace)
              (JS.Float32Array (FaceRecord.descriptor c))) as [K | [K | K]].
  - unfold score in Nc. congruence.
  - exact K.
  - apply FloatOrder.leb_not_ltb in Hc. unfold score in Hc. congruence.
Qed.

End IdentifySpec.

(** ** Concrete engines, detections and stored faces *)

Module Examples.

Definition engine (threshold : float) : FaceIdentifier :=
  {| options :=
       {| minConfidence := 0.3; matchThreshold := threshold; hashBits := 64; padding := 0.2 |};
     isInitialized := true |}.

Definition box0 : Box := {| x := 0; y := 0; width := 10; height := 10 |}.

(** The detector finds one face with this descriptor. *)
Definition seen (descriptor : list float) : DetectorOutcome :=
  DetectorReturns
    (Some [{| Detection.descriptor := descriptor; Detection.box := box0;
              Detection.score := 0.9 |}]).

(** A stored face, as [registerFace] would have produced it. *)
Definition stored (id : string) (descriptor : list float) : FaceRecord.t unit :=
  {| FaceRecord.faceId := id;
     FaceRecord.descriptor := JS.Float32Array descriptor;
     FaceRecord.hash := _generateHash (engine 0.6) (JS.Float32Array descriptor);
     FaceRecord.confidence := 0.9;
     FaceRecord.timestamp := 1700000000000;
     FaceRecord.userData := tt |}.

Definition random_half : nat -> float := fun _ => 0.5%float.

Definition three_faces : list (FaceRecord.t unit) :=
  [stored "a" [1; 1]%float; stored "b" [1; 0]%float; stored "c" [2; 0]%float].

Definition eight_faces : list (FaceRecord.t unit) :=
  [stored "f1" [1; 7]%float; stored "f2" [1; 2]%float; stored "f3" [1; 5]%float;
   stored "f4" [1; 0]%float; stored "f5" [1; 3]%float; stored "f6" [1; 1]%float;
   stored "f7" [1; 6]%float; stored "f8" [1; 4]%float].

End Examples.

(** ** Similarities that are not numbers *)

Section NumericSurvivors.
Context {UserData : Type}.

(** The faces whose similarity with the detected face is a number.  The
    loop of [identifyFace] compares with [>], which is false on NaN: a face
    whose similarity is NaN gets its entry in [matches] and is otherwise
    passed over. *)
Definition numeric_faces (currentFace : Face.t) (faces : list (FaceRecord.t UserData))
    : list (FaceRecord.t UserData) :=
  filter (fun c => negb (is_nan (score currentFace c))) faces.

Lemma ltb_nan_r (b s : float) : is_nan s = true -> (b <? s)%float = false.
Proof.
  intros N. apply not_true_iff_false. intros L.
  apply FloatOrder.ltb_not_nan in L. destruct L. congruence.
Qed.

Lemma eqb_nan_l (s g : float) : is_nan s = true -> (s =? g)%float = false.
Proof.
  intros N. apply not_true_iff_false. intros E.
  apply FloatOrder.eqb_leb in E. destruct E as [E _].
  apply FloatOrder.leb_not_nan in E. destruct E. congruence.
Qed.

(** [bestMatch] and [bestSimilarity] after the loop are those of the loop
    over the faces whose similarity is a number. *)
Lemma loop_skips_nan (this : FaceIdentifier) (currentFace : Face.t)
    (faces : list (FaceRecord.t UserData)) :
  forall bm b ms ms',
    fst (fold_left (identify_step this currentFace) faces (bm, b, ms)) =
    fst (fold_left (identify_step this currentFace) (numeric_faces currentFace faces)
           (bm, b, ms')).
Proof.
  induction faces as [|c faces IH]; intros bm b ms ms'; [reflexivity|].
  unfold numeric_faces. cbn [filter fold_left]. fold (numeric_faces currentFace faces).
  rewrite Matcher.step_eq. destruct (is_nan (score currentFace c)) eqn:N; cbn [negb].
  - rewrite (ltb_nan_r b _ N). apply IH.
  - cbn [fold_left]. rewrite Matcher.step_eq. apply IH.
Qed.

Lemma find_numeric (currentFace : Face.t) (faces : list (FaceRecord.t UserData))
    (g : float) :
  find (fun c => (score currentFace c =? g)%float) (numeric_faces currentFace faces) =
  find (fun c => (score currentFace c =? g)%float) faces.
Proof.
  induction faces as [|c faces IH]; [reflexivity|].
  unfold numeric_faces. cbn [filter find]. fold (numeric_faces currentFace faces).
  destruct (is_nan (score currentFace c)) eqn:N; cbn [negb].
  - rewrite (eqb_nan_l _ g N). exact IH.
  - cbn [find]. destruct (score currentFace c =? g)%float; [reflexivity | exact IH].
Qed.

Lemma numeric_faces_scores (currentFace : Face.t) (faces : list (FaceRecord.t UserData)) :
  numeric_scores currentFace (numeric_faces currentFace faces).
Proof.
  apply Forall_forall. intros c Hc. apply filter_In in Hc. destruct Hc as [_ Hc].
  apply negb_true_iff in Hc. exact Hc.
Qed.

Lemma numeric_faces_all (currentFace : Face.t) (faces : list (FaceRecord.t UserData)) :
  numeric_scores currentFace faces -> numeric_faces currentFace faces = faces.
Proof.
  induction 1 as [|c faces Hc _ IH]; [reflexivity|].
  unfold numeric_faces. cbn [filter]. rewrite Hc. cbn [negb]. f_equal. exact IH.
Qed.

(** Numbers have a largest one. *)
Lemma max_exists (l : list float) :
  l <> [] -> Forall (fun s => is_nan s = false) l -> exists g, Matcher.is_max g l.
Proof.
  induction l as [|x l IH]; [congruence|]. intros _ F.
  inversion F as [|? ? Nx Nl]; subst.
  destruct l as [|y l].
  - exists x. split; [left; reflexivity|]. constructor; [|constructor].
    apply FloatOrder.leb_refl, Nx.
  - destruct (IH ltac:(discriminate) Nl) as (g & Hin & Hall).
    assert (Ng : is_nan g = false) by (rewrite Forall_forall in Nl; apply Nl, Hin).
    destruct (g <? x)%float eqn:E.
    + exists x. split; [left; reflexivity|]. constructor; [apply FloatOrder.leb_refl, Nx|].
      eapply Forall_impl; [|exact Hall]. intros s Hs. cbv beta in Hs.
      apply FloatOrder.ltb_leb. eapply FloatOrder.leb_ltb_trans; eassumption.
    + exists g. split; [right; exact Hin|]. constructor; [|exact Hall].
      apply FloatOrder.not_ltb_leb; assumption.
Qed.


End NumericSurvivors.

(** ** The matcher *)

Section MatcherClaims.
Context {UserData : Type}.

Lemma loop_best_independent (this1 this2 : FaceIdentifier) (currentFace : Face.t)
    (faces : list (FaceRecord.t UserData)) bm1 bm2 b ms1 ms2 :
  snd (fst (fold_left (identify_step this1 currentFace) faces (bm1, b, ms1))) =
  snd (fst (fold_left (identify_step this2 currentFace) faces (bm2, b, ms2))).
Proof.
  revert bm1 bm2 b ms1 ms2. induction faces as [|c faces IH]; intros; cbn [fold_left];
    [reflexivity|].
  rewrite !Matcher.step_eq. apply IH.
Qed.

(** C1, as amended: for an initialized engine and a non-empty collection,
    [identifyFace] returns and [matchFound] is true exactly when [bestMatch]
    is present.  With [globalMax] the largest similarity among the survivors
    whose similarity is a number (a NaN similarity is never the best),
    [bestMatch] is the first survivor achieving [globalMax] if
    [globalMax >= matchThreshold] and [globalMax > 0], and absent otherwise;
    it is absent too when no survivor has a similarity that is a number.
    Such a [globalMax] exists as soon as one survivor's similarity is a
    number. *)
Theorem identify_best_match_gated (this : FaceIdentifier) (media : DetectorOutcome)
    (random : nat -> float) (storedFaces : list (FaceRecord.t UserData)) :
  isInitialized this = true -> storedFaces <> [] ->
  exists currentFace others r,
    detectFaces this media random = JS.Return (currentFace :: others) /\
    identifyFace this media random storedFaces = JS.Return r /\
    (Identification.matchFound r = true <-> Identification.bestMatch r <> None) /\
    let faces := survivors this currentFace storedFaces in
    let numbers := numeric_faces currentFace faces in
    (faces = [] -> Identification.bestMatch r = None) /\
    (numbers = [] -> Identification.bestMatch r = None) /\
    (numeric_scores currentFace faces -> numbers = faces) /\
    (numbers <> [] ->
     exists globalMax, Matcher.is_max globalMax (map (score currentFace) numbers)) /\
    forall globalMax,
      Matcher.is_max globalMax (map (score currentFace) numbers) ->
      Identification.bestMatch r =
      gated_bestMatch (matchThreshold (options this)) currentFace faces globalMax.
Proof.
  intros I N.
  destruct (identifyFace_returns this media random storedFaces I N)
    as (currentFace & others & D & R).
  exists currentFace, others, (identify this currentFace storedFaces).
  destruct (identify_fields this currentFace storedFaces) as (B & _ & _ & F).
  cbv zeta in *. split; [exact D|]. split; [exact R|]. split; [|split; [|split; [|split; [|split]]]].
  - rewrite F. destruct (Identification.bestMatch _); split; congruence.
  - intros E. rewrite B, E. reflexivity.
  - intros E. rewrite B, (loop_skips_nan this currentFace _ None 0%float [] []), E.
    reflexivity.
  - apply numeric_faces_all.
  - intros NE. apply max_exists.
    + intros E. apply map_eq_nil in E. contradiction.
    + apply Forall_map, numeric_faces_scores.
  - intros g G. rewrite B, (loop_skips_nan this currentFace _ None 0%float [] []).
    rewrite (Matcher.loop_best_match this currentFace _ g G).
    unfold gated_bestMatch, first_achieving. rewrite find_numeric. reflexivity.
Qed.

(** C2, as amended: for an empty collection the early return has no
    [similarity] field.  For an initialized engine and a non-empty
    collection the result has one: it is the largest similarity among the
    survivors whose similarity is a number, it is [0] when there is none
    (nothing survives the prefilter, or every similarity is NaN), and it is
    the same for every [matchThreshold]. *)
Theorem identify_similarity_is_max (this : FaceIdentifier) (media : DetectorOutcome)
    (random : nat -> float) (storedFaces : list (FaceRecord.t UserData)) :
  (storedFaces = [] ->
   exists r,
     identifyFace this media random storedFaces = JS.Return r /\
     Identification.similarity r = None) /\
  (isInitialized this = true -> storedFaces <> [] ->
   exists currentFace others r globalMax,
     detectFaces this media random = JS.Return (currentFace :: others) /\
     identifyFace this media random storedFaces = JS.Return r /\
     Identification.similarity r = Some globalMax /\
     let faces := survivors this currentFace storedFaces in
     let numbers := numeric_faces currentFace faces in
     (faces = [] -> globalMax = 0%float) /\
     (numbers = [] -> globalMax = 0%float) /\
     (numeric_scores currentFace faces -> numbers = faces) /\
     (numbers <> [] -> Matcher.is_max globalMax (map (score currentFace) numbers)) /\
     forall threshold,
       Identification.similarity
         (identify (with_threshold this threshold) currentFace storedFaces) =
       Some globalMax).
Proof.
  split; [intros ->; eexists; split; reflexivity|].
  intros I N.
  destruct (identifyFace_returns this media random storedFaces I N)
    as (currentFace & others & D & R).
  destruct (identify_fields this currentFace storedFaces) as (_ & S & _ & _).
  cbv zeta in *.
  eexists currentFace, others, _, _.
  split; [exact D|]. split; [exact R|]. split; [exact S|].
  split; [|split; [|split; [|split]]].
  - intros E. rewrite E. reflexivity.
  - intros E. rewrite (loop_skips_nan this currentFace _ None 0%float [] []), E.
    reflexivity.
  - apply numeric_faces_all.
  - intros NE. rewrite (loop_skips_nan this currentFace _ None 0%float [] []).
    apply (loop_is_max this currentFace _ NE), numeric_faces_scores.
  - intros threshold.
    destruct (identify_fields (with_threshold this threshold) currentFace storedFaces)
      as (_ & S' & _ & _).
    cbv zeta in S'. rewrite S'. f_equal.
    change (survivors (with_threshold this threshold) currentFace storedFaces)
      with (survivors this currentFace storedFaces).
    apply loop_best_independent.
Qed.

End MatcherClaims.

Section RankingClaims.
Context {UserData : Type}.

Abbreviation sim_key := (Match.similarity (UserData := UserData)).


(** C10, as amended: for an initialized engine and a non-empty collection, a
    result with [matchFound] true has a [bestMatch] whose similarity is the
    result's [similarity] field, and a candidate list that is not empty;
    when no survivor's similarity is NaN the candidate list starts with that
    very match (same [faceId], same similarity). *)
Theorem identify_best_heads_candidates (this : FaceIdentifier) (media : DetectorOutcome)
    (random : nat -> float) (storedFaces : list (FaceRecord.t UserData)) :
  isInitialized this = true -> storedFaces <> [] ->
  exists currentFace others r,
    detectFaces this media random = JS.Return (currentFace :: others) /\
    identifyFace this media random storedFaces = JS.Return r /\
    (Identification.matchFound r = true ->
     exists best,
       Identification.bestMatch r = Some best /\
       Identification.similarity r = Some (Match.similarity best) /\
       Identification.candidates r <> [] /\
       (numeric_scores currentFace (survivors this currentFace storedFaces) ->
        exists first rest,
          Identification.candidates r = first :: rest /\
          first = best /\
          Match.faceId first = Match.faceId best /\
          Match.similarity first = Match.similarity best)).
Proof.
  intros I N.
  destruct (identifyFace_returns this media random storedFaces I N)
    as (currentFace & others & D & R).
  exists currentFace, others, (identify this currentFace storedFaces).
  split; [exact D|]. split; [exact R|]. intros MF.
  destruct (identify_fields this currentFace storedFaces) as (B & S & C & F).
  cbv zeta in *.
  remember (survivors this currentFace storedFaces) as faces eqn:Hfaces.
  remember (fold_left (identify_step this currentFace) faces (None, 0%float, []))
    as locals eqn:Hlocals.
  destruct (Identification.bestMatch (identify this currentFace storedFaces))
    as [best|] eqn:BM; [|rewrite F in MF; discriminate].
  symmetry in B.
  assert (NE : faces <> []).
  { intros E. rewrite Hlocals, E in B. discriminate. }
  pose proof (Matcher.loop_best_sim this currentFace faces None 0%float []
                ltac:(intros ? [=]) best) as SB.
  rewrite <- Hlocals in SB.
  destruct (SB B) as [SB' _]. clear SB.
  exists best. split; [reflexivity|].
  split; [rewrite S, SB'; reflexivity|].
  split.
  { intros E. apply (f_equal (@length _)) in E. rewrite C in E.
    rewrite length_firstn in E.
    change (@by_similarity_desc UserData) with (SortFacts.comparefn sim_key) in E.
    rewrite SortFacts.sort_length in E. unfold matchesOf in E. rewrite length_map in E.
    destruct faces; [congruence | simpl in E; lia]. }
  intros NS.
  pose proof (loop_is_max this currentFace faces NE NS) as MX.
  pose proof (Matcher.loop_best_match this currentFace faces) as LB.
  rewrite <- Hlocals in MX, LB.
  specialize (LB _ MX). rewrite B in LB.
  destruct ((0 <? snd (fst locals))%float && _)%bool; [|discriminate].
  destruct (find _ faces) as [c|] eqn:Fd; [|discriminate].
  cbn [option_map] in LB. injection LB as LB. subst best.
  cbn [Match.similarity mkMatch] in SB'.
  destruct (Matcher.find_split _ _ _ Fd) as (pre & post & Efaces & _ & Hpre).
  destruct MX as [_ MX]. rewrite Forall_map in MX. rewrite <- SB' in MX, Hpre.
  assert (HD : exists rest,
             JS.sort by_similarity_desc (matchesOf currentFace faces) =
             mkMatch c (score currentFace c) :: rest).
  { change (@by_similarity_desc UserData) with (SortFacts.comparefn sim_key).
    unfold matchesOf. rewrite Efaces, map_app. cbn [map].
    apply (SortFacts.sort_head sim_key
             (map (fun c => mkMatch c (score currentFace c)) pre)
             (mkMatch c (score currentFace c))
             (map (fun c => mkMatch c (score currentFace c)) post)).
    - rewrite <- (map_cons (fun c => mkMatch c (score currentFace c))), <- map_app, <- Efaces.
      apply Forall_map. exact NS.
    - rewrite <- (map_cons (fun c => mkMatch c (score currentFace c))), <- map_app, <- Efaces.
      apply Forall_map. exact MX.
    - apply Forall_map. exact Hpre. }
  destruct HD as [rest HD]. rewrite HD in C. cbn [firstn] in C.
  exists (mkMatch c (score currentFace c)), (firstn 4 rest).
  split; [exact C|]. repeat split.
Qed.

End RankingClaims.

(** *** The matcher on concrete inputs *)

(** Threshold gating as in the specification's test: similarities [1] and
    about [0.707] against the threshold [0.8]. *)
Example identify_gating :
  exists r,
    identifyFace (Examples.engine 0.8) (Examples.seen [1; 0]%float) Examples.random_half
      [Examples.stored "a" [1; 1]%float; Examples.stored "b" [1; 0]%float] = JS.Return r /\
    Identification.matchFound r = true /\
    option_map Match.faceId (Identification.bestMatch r) = Some "b"%string /\
    Identification.similarity r = Some 1%float /\
    map Match.faceId (Identification.candidates r) = ["b"; "a"]%string.
Proof. eexists. split; [vm_compute; reflexivity|]. repeat split. Qed.

(** Below the threshold the largest similarity is still reported. *)
Example identify_below_threshold :
  exists r,
    identifyFace (Examples.engine 0.8) (Examples.seen [1; 0]%float) Examples.random_half
      [Examples.stored "a" [1; 1]%float] = JS.Return r /\
    Identification.matchFound r = false /\
    Identification.bestMatch r = None /\
    Identification.similarity r = Some 0.70710678118654746%float.
Proof. eexists. split; [vm_compute; reflexivity|]. repeat split. Qed.

(** Eight survivors of different similarities: the five best, best first. *)
Example identify_top_five :
  exists r,
    identifyFace (Examples.engine 0.6) (Examples.seen [1; 0]%float) Examples.random_half
      Examples.eight_faces = JS.Return r /\
    map Match.faceId (Identification.candidates r) = ["f4"; "f6"; "f2"; "f5"; "f8"]%string.
Proof. eexists. split; [vm_compute; reflexivity|]. reflexivity. Qed.

(** A stored record with the descriptor as the caller's database holds
    it. *)
Definition plain (id : string) (descriptor : list float) : FaceRecord.t unit :=
  {| FaceRecord.faceId := id;
     FaceRecord.descriptor := descriptor;
     FaceRecord.hash := _generateHash (Examples.engine 0.6) (JS.Float32Array descriptor);
     FaceRecord.confidence := 0.9;
     FaceRecord.timestamp := 1700000000000;
     FaceRecord.userData := tt |}.

(** Three stored faces, the second with a component beyond binary32:
    [new Float32Array([1e39, 0])] is [[Infinity, 0]], and its similarity with
    the descriptor [[1, 0]] is [Infinity / Infinity], NaN. *)
Definition faces_with_nan : list (FaceRecord.t unit) :=
  [plain "a" [1; 1]%float; plain "n" [1e39; 0]%float; plain "b" [1; 0]%float].

(** A NaN similarity is passed over: the best match is the third face. *)
Example identify_with_nan :
  exists r,
    identifyFace (Examples.engine 0.6) (Examples.seen [1; 0]%float) Examples.random_half
      faces_with_nan = JS.Return r /\
    Identification.matchFound r = true /\
    option_map Match.faceId (Identification.bestMatch r) = Some "b"%string /\
    Identification.similarity r = Some 1%float /\
    map Match.faceId (Identification.candidates r) = ["a"; "n"; "b"]%string /\
    map Match.similarity (Identification.candidates r) =
      [0.70710678118654746; nan; 1]%float.
Proof. eexists. split; [vm_compute; reflexivity|]. repeat split. Qed.

(** Only NaN similarities: no best match, and the similarity stays [0]. *)
Example identify_only_nan :
  exists r,
    identifyFace (Examples.engine 0.6) (Examples.seen [1; 0]%float) Examples.random_half
      [plain "n" [1e39; 0]%float] = JS.Return r /\
    Identification.matchFound r = false /\
    Identification.similarity r = Some 0%float /\
    map Match.similarity (Identification.candidates r) = [nan].
Proof. eexists. split; [vm_compute; reflexivity|]. repeat split. Qed.

(** Witness of C1: the default threshold and the three stored faces one of
    which has a NaN similarity. *)
Lemma identify_best_match_gated_witness :
  let this := Examples.engine 0.6 in
  let media := Examples.seen [1; 0]%float in
  let storedFaces := faces_with_nan in
  isInitialized this = true /\ storedFaces <> [] /\
  exists currentFace others r,
    detectFaces this media Examples.random_half = JS.Return (currentFace :: others) /\
    identifyFace this media Examples.random_half storedFaces = JS.Return r /\
    map (score currentFace) (survivors this currentFace storedFaces) =
      [0.70710678118654746; nan; 1]%float /\
    map (score currentFace)
      (numeric_faces currentFace (survivors this currentFace storedFaces)) =
      [0.70710678118654746; 1]%float /\
    Matcher.is_max 1%float
      (map (score currentFace)
         (numeric_faces currentFace (survivors this currentFace storedFaces))) /\
    Identification.bestMatch r =
      Some {| Match.faceId := "b"; Match.similarity := 1; Match.data := tt |} /\
    Identification.matchFound r = true.
Proof.
  cbv zeta. split; [reflexivity|]. split; [discriminate|].
  destruct (identify_best_match_gated (Examples.engine 0.6) (Examples.seen [1; 0]%float)
              Examples.random_half faces_with_nan eq_refl ltac:(discriminate))
    as (currentFace & others & r & D & R & M & G).
  cbv zeta in G. destruct G as (_ & _ & _ & _ & G).
  assert (E : currentFace :: others =
              [{| Face.descriptor := [1; 0]%float; Face.box := Examples.box0;
                  Face.confidence := 0.9 |}])
    by (vm_compute in D; injection D as <- <-; reflexivity).
  injection E as -> ->.
  assert (MX : Matcher.is_max 1%float
                 (map (score {| Face.descriptor := [1; 0]%float; Face.box := Examples.box0;
                                Face.confidence := 0.9 |})
                    (numeric_faces
                       {| Face.descriptor := [1; 0]%float; Face.box := Examples.box0;
                          Face.confidence := 0.9 |}
                       (survivors (Examples.engine 0.6)
                          {| Face.descriptor := [1; 0]%float; Face.box := Examples.box0;
                             Face.confidence := 0.9 |} faces_with_nan)))).
  { split; [vm_compute; auto|]. vm_compute. repeat (constructor; [reflexivity|]). constructor. }
  pose proof (G 1%float MX) as B.
  eexists _, _, r. split; [reflexivity|]. split; [exact R|].
  split; [vm_compute; reflexivity|]. split; [vm_compute; reflexivity|].
  split; [exact MX|].
  assert (B' : Identification.bestMatch r =
               Some {| Match.faceId := "b"; Match.similarity := 1; Match.data := tt |})
    by (rewrite B; vm_compute; reflexivity).
  split; [exact B'|]. apply M. rewrite B'. discriminate.
Defined.

(** Counterexample to C1 as stated: with [matchThreshold = 0] and one stored
    face orthogonal to the detected one, the largest similarity is [0], which
    is [>= matchThreshold], and the specification's [bestMatch] is that face;
    the code returns no [bestMatch]. *)
Lemma best_match_zero_threshold_counterexample :
  let this := Examples.engine 0 in
  let media := Examples.seen [1; 0]%float in
  let storedFaces := [Examples.stored "a" [0; 1]%float] in
  exists currentFace others r,
    detectFaces this media Examples.random_half = JS.Return (currentFace :: others) /\
    identifyFace this media Examples.random_half storedFaces = JS.Return r /\
    Matcher.is_max 0%float
      (map (score currentFace) (survivors this currentFace storedFaces)) /\
    spec_bestMatch (matchThreshold (options this)) currentFace
      (survivors this currentFace storedFaces) 0%float =
      Some {| Match.faceId := "a"; Match.similarity := 0; Match.data := tt |} /\
    Identification.bestMatch r = None /\
    Identification.bestMatch r <>
      spec_bestMatch (matchThreshold (options this)) currentFace
        (survivors this currentFace storedFaces) 0%float.
Proof.
  cbv zeta. eexists _, _, _.
  split; [vm_compute; reflexivity|]. split; [vm_compute; reflexivity|].
  split; [split; [left; vm_compute; reflexivity | repeat constructor]|].
  split; [vm_compute; reflexivity|].
  split; [reflexivity|]. vm_compute. discriminate.
Qed.

(** Witness of C2: the empty collection, and the three stored faces one of
    which has a NaN similarity. *)
Lemma identify_similarity_is_max_witness :
  let this := Examples.engine 0.6 in
  let media := Examples.seen [1; 0]%float in
  let storedFaces := faces_with_nan in
  (exists r,
     identifyFace this media Examples.random_half ([] : list (FaceRecord.t unit)) =
       JS.Return r /\
     Identification.similarity r = None) /\
  isInitialized this = true /\ storedFaces <> [] /\
  exists currentFace others r,
    detectFaces this media Examples.random_half = JS.Return (currentFace :: others) /\
    identifyFace this media Examples.random_half storedFaces = JS.Return r /\
    numeric_faces currentFace (survivors this currentFace storedFaces) <> [] /\
    Identification.similarity r = Some 1%float /\
    Matcher.is_max 1%float
      (map (score currentFace)
         (numeric_faces currentFace (survivors this currentFace storedFaces))) /\
    forall threshold,
      Identification.similarity
        (identify (with_threshold this threshold) currentFace storedFaces) =
      Some 1%float.
Proof.
  cbv zeta.
  destruct (identify_similarity_is_max (Examples.engine 0.6) (Examples.seen [1; 0]%float)
              Examples.random_half ([] : list (FaceRecord.t unit))) as [E0 _].
  destruct (identify_similarity_is_max (Examples.engine 0.6) (Examples.seen [1; 0]%float)
              Examples.random_half faces_with_nan) as [_ H].
  split; [exact (E0 eq_refl)|]. split; [reflexivity|]. split; [discriminate|].
  destruct (H eq_refl ltac:(discriminate))
    as (currentFace & others & r & globalMax & D & R & S & G).
  cbv zeta in G. destruct G as (_ & _ & _ & G & T).
  assert (E : currentFace :: others =
              [{| Face.descriptor := [1; 0]%float; Face.box := Examples.box0;
                  Face.confidence := 0.9 |}])
    by (vm_compute in D; injection D as <- <-; reflexivity).
  injection E as -> ->.
  assert (NE : numeric_faces
                 {| Face.descriptor := [1; 0]%float; Face.box := Examples.box0;
                    Face.confidence := 0.9 |}
                 (survivors (Examples.engine 0.6)
                    {| Face.descriptor := [1; 0]%float; Face.box := Examples.box0;
                       Face.confidence := 0.9 |} faces_with_nan) <> [])
    by (vm_compute; discriminate).
  assert (V : Some globalMax = Some 1%float)
    by (rewrite <- S; vm_compute in R; injection R as <-; reflexivity).
  injection V as ->.
  eexists _, _, r. split; [reflexivity|]. split; [exact R|]. split; [exact NE|].
  split; [exact S|]. split; [exact (G NE) | exact T].
Defined.

(** Counterexample to C2 as stated: for an empty collection the returned
    object has no [similarity] field, so the field is not [0]. *)
Lemma similarity_empty_collection_counterexample :
  exists r,
    identifyFace (Examples.engine 0.6) (Examples.seen [1; 0]%float) Examples.random_half
      ([] : list (FaceRecord.t unit)) = JS.Return r /\
    Identification.similarity r = None /\
    Identification.similarity r <> Some 0%float.
Proof. eexists. split; [reflexivity|]. split; [reflexivity | discriminate]. Qed.



(** Witness of C10: three stored faces of numeric similarities. *)
Lemma identify_best_heads_candidates_witness :
  let this := Examples.engine 0.6 in
  let media := Examples.seen [1; 0]%float in
  let storedFaces := Examples.three_faces in
  isInitialized this = true /\ storedFaces <> [] /\
  exists currentFace others r best rest,
    detectFaces this media Examples.random_half = JS.Return (currentFace :: others) /\
    identifyFace this media Examples.random_half storedFaces = JS.Return r /\
    Identification.matchFound r = true /\
    numeric_scores currentFace (survivors this currentFace storedFaces) /\
    Identification.bestMatch r = Some best /\
    Identification.similarity r = Some (Match.similarity best) /\
    Identification.candidates r = best :: rest /\
    Match.faceId best = "b"%string.
Proof.
  cbv zeta. split; [reflexivity|]. split; [discriminate|].
  destruct (identify_best_heads_candidates (Examples.engine 0.6)
              (Examples.seen [1; 0]%float) Examples.random_half Examples.three_faces
              eq_refl ltac:(discriminate))
    as (currentFace & others & r & D & R & G).
  assert (E : currentFace :: others =
              [{| Face.descriptor := [1; 0]%float; Face.box := Examples.box0;
                  Face.confidence := 0.9 |}])
    by (vm_compute in D; injection D as <- <-; reflexivity).
  injection E as -> ->.
  set (face := {| Face.descriptor := [1; 0]%float; Face.box := Examples.box0;
                  Face.confidence := 0.9 |}) in *.
  assert (MF : Identification.matchFound r = true)
    by (vm_compute in R; injection R as <-; reflexivity).
  assert (NS : numeric_scores face (survivors (Examples.engine 0.6) face Examples.three_faces))
    by (apply Forall_forall; intros c Hc; vm_compute in Hc;
        repeat (destruct Hc as [<- | Hc]; [vm_compute; reflexivity|]); destruct Hc).
  destruct (G MF) as (best & B & S & _ & H).
  destruct (H NS) as (first & rest & C & -> & _).
  exists face, [], r, best, rest.
  split; [reflexivity|]. split; [exact R|]. split; [exact MF|]. split; [exact NS|].
  split; [exact B|]. split; [exact S|]. split; [exact C|].
  vm_compute in R. injection R as <-. injection B as <-. reflexivity.
Defined.

(** Counterexample to C10 as stated: with the three stored faces one of
    which has a NaN similarity, [matchFound] is true and [bestMatch] is [b],
    while the first candidate is [a]. *)
Lemma best_match_not_first_counterexample :
  let this := Examples.engine 0.6 in
  let media := Examples.seen [1; 0]%float in
  exists r best first rest,
    identifyFace this media Examples.random_half faces_with_nan = JS.Return r /\
    Identification.matchFound r = true /\
    Identification.bestMatch r = Some best /\
    Identification.candidates r = first :: rest /\
    Match.faceId best = "b"%string /\ Match.similarity best = 1%float /\
    Match.faceId first = "a"%string /\
    Match.similarity first = 0.70710678118654746%float /\
    Match.faceId first <> Match.faceId best.
Proof.
  cbv zeta. eexists _, _, _, _. split; [vm_compute; reflexivity|].
  split; [reflexivity|]. split; [reflexivity|]. split; [reflexivity|].
  repeat split. discriminate.
Qed.

(** ** The prefilter *)

(** The Hamming distance in the words of the specification: the number of
    positions that differ, over the positions both hashes have. *)
Fixpoint hamming_spec (hash1 hash2 : string) : nat :=
  match hash1, hash2 with
  | String c1 rest1, String c2 rest2 =>
      (if Ascii.eqb c1 c2 then 0 else 1) + hamming_spec rest1 rest2
  | _, _ => 0
  end.

Lemma fold_left_shift {A : Type} (f g : A -> nat -> A) (l : list nat) (acc : A) :
  (forall a i, f a (S i) = g a i) ->
  fold_left f (map S l) acc = fold_left g l acc.
Proof.
  intros E. revert acc. induction l as [|i l IH]; intros acc; cbn [map fold_left];
    [reflexivity|]. rewrite E. apply IH.
Qed.

Lemma hamming_loop (hash1 hash2 : string) (acc : nat) :
  fold_left
    (fun distance i => if char_differs hash1 hash2 i then S distance else distance)
    (seq 0 (Nat.min (String.length hash1) (String.length hash2))) acc =
  (acc + hamming_spec hash1 hash2)%nat.
Proof.
  revert hash2 acc. induction hash1 as [|c1 rest1 IH]; intros [|c2 rest2] acc;
    cbn [String.length Nat.min seq fold_left hamming_spec]; try lia.
  rewrite <- seq_shift.
  rewrite (fold_left_shift _
             (fun distance i => if char_differs rest1 rest2 i then S distance else distance))
    by reflexivity.
  rewrite IH. unfold char_differs. cbn [String.get].
  destruct (Ascii.eqb c1 c2); cbn [negb]; lia.
Qed.

Lemma hammingDistance_spec (hash1 hash2 : string) :
  _hammingDistance hash1 hash2 = hamming_spec hash1 hash2.
Proof. unfold _hammingDistance. rewrite hamming_loop. reflexivity. Qed.

(** C3: [_filterByHash] returns a collection of at most 1000 records as it
    is, and from a larger one exactly the records, in their order, whose
    hash is within Hamming distance 8 of the query hash, the distance being
    counted over the positions both hashes have. *)
Theorem filterByHash_cutover {UserData : Type}
    (storedFaces : list (FaceRecord.t UserData)) (queryHash : string) :
  ((length storedFaces <= 1000)%nat ->
   _filterByHash storedFaces queryHash default_threshold = storedFaces) /\
  ((1000 < length storedFaces)%nat ->
   _filterByHash storedFaces queryHash default_threshold =
   filter (fun face => (hamming_spec (FaceRecord.hash face) queryHash <=? 8)%nat)
     storedFaces) /\
  (forall face, In face (_filterByHash storedFaces queryHash default_threshold) ->
                In face storedFaces).
Proof.
  unfold _filterByHash, default_threshold. split; [|split].
  - intros H. apply Nat.leb_le in H. rewrite H. reflexivity.
  - intros H. apply Nat.leb_gt in H. rewrite H. apply filter_ext. intros face.
    rewrite hammingDistance_spec.
    destruct (Nat.leb_spec (hamming_spec (FaceRecord.hash face) queryHash) 8);
      [apply Z.leb_le | apply Z.leb_gt]; lia.
  - intros face. destruct (_ <=? _)%nat; [auto|]. intros H. apply filter_In in H. tauto.
Qed.

(** A collection of exactly 1000 records comes back whole, far hashes
    included; one more record and only the near hashes stay. *)
Example filter_at_1000 :
  let far := {| FaceRecord.faceId := "far"; FaceRecord.descriptor := [];
                FaceRecord.hash := "000000000"; FaceRecord.confidence := 0.9;
                FaceRecord.timestamp := 0; FaceRecord.userData := tt |} in
  let faces := repeat far 1000 in
  _hammingDistance (FaceRecord.hash far) "111111111"%string = 9%nat /\
  _filterByHash faces "111111111"%string default_threshold = faces.
Proof. split; reflexivity. Qed.

Example filter_at_1001 :
  let near := {| FaceRecord.faceId := "near"; FaceRecord.descriptor := [];
                 FaceRecord.hash := "1111111100"; FaceRecord.confidence := 0.9;
                 FaceRecord.timestamp := 0; FaceRecord.userData := tt |} in
  let far := {| FaceRecord.faceId := "far"; FaceRecord.descriptor := [];
                FaceRecord.hash := "000000000"; FaceRecord.confidence := 0.9;
                FaceRecord.timestamp := 0; FaceRecord.userData := tt |} in
  _hammingDistance (FaceRecord.hash near) "111111111111"%string = 2%nat /\
  _hammingDistance (FaceRecord.hash far) "111111111111"%string = 9%nat /\
  _filterByHash (near :: repeat far 999 ++ [near]) "111111111111"%string default_threshold =
  [near; near].
Proof. repeat split; vm_compute; reflexivity. Qed.

(** ** Cosine similarity *)

(** The dot product and the sum of squares, each by its own pass. *)
Definition dot_product (a b : list float) : float :=
  fold_left (fun acc xy => (acc + fst xy * snd xy)%float) (combine a b) 0%float.

Definition sum_squares (a : list float) : float :=
  fold_left (fun acc x => (acc + x * x)%float) a 0%float.

(** The partial L2 norm over the first [n] components. *)
Definition partial_norm (n : nat) (a : list float) : float :=
  JS.Math_sqrt (sum_squares (firstn n a)).

(** The cosine of the paired components, negative values clamped to 0, and
    0 when a norm is zero (or NaN). *)
Definition clamped_cosine (a b : list float) : float :=
  let n := Nat.min (length a) (length b) in
  let norm1 := partial_norm n a in
  let norm2 := partial_norm n b in
  if (JS.truthy norm1 && JS.truthy norm2)%bool
  then JS.Math_max 0 (dot_product a b / (norm1 * norm2))%float
  else 0%float.

Lemma at_cons x l i : JS.at_ (x :: l) (S i) = JS.at_ l i.
Proof. reflexivity. Qed.

Lemma cosine_loop (a b : list float) (dot n1 n2 : float) :
  fold_left (cosine_step a b) (seq 0 (Nat.min (length a) (length b))) (dot, n1, n2) =
  (fold_left (fun acc xy => (acc + fst xy * snd xy)%float) (combine a b) dot,
   fold_left (fun acc x => (acc + x * x)%float) (firstn (Nat.min (length a) (length b)) a) n1,
   fold_left (fun acc x => (acc + x * x)%float) (firstn (Nat.min (length a) (length b)) b) n2).
Proof.
  revert b dot n1 n2. induction a as [|x a IH]; intros [|y b] dot n1 n2;
    cbn [length Nat.min seq fold_left combine firstn]; try reflexivity.
  rewrite <- seq_shift, (fold_left_shift _ (cosine_step a b)) by reflexivity.
  cbn [cosine_step]. unfold JS.at_ at 1 2 3 4 5 6. cbn [nth fst snd]. apply IH.
Qed.

Lemma truthy_and (x y : float) :
  JS.truthy (JS.and x y) = (JS.truthy x && JS.truthy y)%bool.
Proof. unfold JS.and. destruct (JS.truthy x) eqn:E; [reflexivity | exact E]. Qed.

Lemma cosineSimilarity_spec (a b : list float) :
  _cosineSimilarity a b = clamped_cosine a b.
Proof.
  unfold _cosineSimilarity, clamped_cosine, partial_norm, dot_product, sum_squares.
  rewrite cosine_loop, truthy_and. reflexivity.
Qed.

Lemma firstn_min_l {A B : Type} (a : list A) (b : list B) :
  length (firstn (Nat.min (length a) (length b)) a) = Nat.min (length a) (length b).
Proof. rewrite length_firstn. lia. Qed.

(** C5, as amended: [_cosineSimilarity] is the cosine of the first
    [min(len a, len b)] paired components, computed in binary64 with negative
    values clamped to [0]; it is exactly [0] whenever a partial norm is zero
    (or NaN), so the division is guarded; it is never negative (it is NaN,
    [0] or positive); and it only reads the first [min(len a, len b)]
    components.  No upper bound [1] is claimed. *)
Theorem cosineSimilarity_clamped (a b : list float) :
  let n := Nat.min (length a) (length b) in
  _cosineSimilarity a b = clamped_cosine a b /\
  (JS.truthy (partial_norm n a) = false \/ JS.truthy (partial_norm n b) = false ->
   _cosineSimilarity a b = 0%float) /\
  (JS.truthy (partial_norm n a) = true -> JS.truthy (partial_norm n b) = true ->
   _cosineSimilarity a b =
   JS.Math_max 0 (dot_product a b / (partial_norm n a * partial_norm n b))%float) /\
  Number.nonneg (_cosineSimilarity a b) /\
  (_cosineSimilarity a b <? 0)%float = false /\
  _cosineSimilarity a b = _cosineSimilarity (firstn n a) (firstn n b).
Proof.
  cbv zeta. split; [apply cosineSimilarity_spec|]. split; [|split; [|split; [|split]]].
  - rewrite cosineSimilarity_spec. unfold clamped_cosine.
    intros [-> | ->]; [reflexivity | rewrite andb_false_r; reflexivity].
  - rewrite cosineSimilarity_spec. unfold clamped_cosine. intros -> ->. reflexivity.
  - apply cosine_nonneg.
  - destruct (cosine_nonneg a b) as [N | [-> | P]]; [|reflexivity|].
    + apply not_true_iff_false. intros L. apply FloatOrder.ltb_not_nan in L.
      destruct L. congruence.
    + apply FloatOrder.ltb_asym, P.
  - rewrite !cosineSimilarity_spec. unfold clamped_cosine, partial_norm, dot_product.
    set (n := Nat.min (length a) (length b)).
    assert (La : length (firstn n a) = n) by (unfold n; rewrite length_firstn; lia).
    assert (Lb : length (firstn n b) = n) by (unfold n; rewrite length_firstn; lia).
    assert (C : combine (firstn n a) (firstn n b) = combine a b).
    { rewrite <- combine_firstn. apply firstn_all2. rewrite length_combine. fold n. lia. }
    rewrite La, Lb, C, Nat.min_id, !firstn_firstn, Nat.min_id. reflexivity.
Qed.

(** Counterexample to C5 as stated: the similarity of [[1, 1, 1]] with
    itself is [3 / (sqrt 3 * sqrt 3) = 3 / 2.9999999999999996], which is
    [1.0000000000000002 > 1]. *)
Lemma cosine_above_one_counterexample :
  _cosineSimilarity (JS.Float32Array [1; 1; 1]%float) (JS.Float32Array [1; 1; 1]%float) =
    1.0000000000000002%float /\
  (1 <? _cosineSimilarity (JS.Float32Array [1; 1; 1]%float)
          (JS.Float32Array [1; 1; 1]%float))%float = true /\
  (_cosineSimilarity (JS.Float32Array [1; 1; 1]%float)
     (JS.Float32Array [1; 1; 1]%float) <=? 1)%float = false.
Proof. repeat split; vm_compute; reflexivity. Qed.

(** Orthogonal, opposite and zero descriptors. *)
Example cosine_values :
  _cosineSimilarity [1; 0]%float [0; 1]%float = 0%float /\
  _cosineSimilarity [1; 0]%float [-1; 0]%float = 0%float /\
  _cosineSimilarity [0; 0]%float [3; 4]%float = 0%float /\
  _cosineSimilarity [3; 4]%float [3; 4; 100]%float = 1%float /\
  _cosineSimilarity [1; 0]%float [1; 1]%float = 0.70710678118654746%float.
Proof. repeat split; vm_compute; reflexivity. Qed.

(** ** Verification *)

(** A call [engine.verifyFaces(faceData1, faceData2, extra...)].  The method
    declares two parameters; JavaScript evaluates further arguments and binds
    them to nothing. *)
Definition call_verifyFaces {UserData : Type} (this : FaceIdentifier)
    (faceData1 faceData2 : FaceRecord.t UserData) (extra : list float) : Verification.t :=
  verifyFaces this faceData1 faceData2.

(** C7, as amended: [verifyFaces] takes the two face records only; with [t]
    the [matchThreshold] the engine was configured with, the result has
    [isMatch = (similarity >= t)], [threshold = t] and [similarity] the
    cosine similarity of the two descriptors stored as [Float32Array]s; a
    third argument changes nothing. *)
Theorem verifyFaces_configured_threshold {UserData : Type} (this : FaceIdentifier)
    (faceData1 faceData2 : FaceRecord.t UserData) :
  let similarity :=
    _cosineSimilarity (JS.Float32Array (FaceRecord.descriptor faceData1))
      (JS.Float32Array (FaceRecord.descriptor faceData2)) in
  let t := matchThreshold (options this) in
  Verification.isMatch (verifyFaces this faceData1 faceData2) = JS.ge similarity t /\
  Verification.similarity (verifyFaces this faceData1 faceData2) = similarity /\
  Verification.threshold (verifyFaces this faceData1 faceData2) = t /\
  forall extra,
    call_verifyFaces this faceData1 faceData2 extra = verifyFaces this faceData1 faceData2.
Proof. repeat split. Qed.

(** Counterexample to C7 as stated: [verifyFaces(a, b, 0.8)] on an engine
    configured with [matchThreshold = 0.6], for descriptors of similarity
    about [0.707]: the claim gives [isMatch = false] and [threshold = 0.8],
    the code answers [isMatch = true] and [threshold = 0.6]. *)
Lemma verify_third_argument_counterexample :
  let a := Examples.stored "a" [1; 0]%float in
  let b := Examples.stored "b" [1; 1]%float in
  let t := 0.8%float in
  let r := call_verifyFaces (Examples.engine 0.6) a b [t] in
  Verification.similarity r = 0.70710678118654746%float /\
  JS.ge (Verification.similarity r) t = false /\
  Verification.isMatch r = true /\
  Verification.isMatch r <> JS.ge (Verification.similarity r) t /\
  Verification.threshold r = 0.6%float /\
  Verification.threshold r <> t.
Proof.
  cbv zeta. repeat split; try (vm_compute; reflexivity); vm_compute; discriminate.
Qed.

Example verify_example :
  verifyFaces (Examples.engine 0.6) (Examples.stored "a" [1; 0]%float)
    (Examples.stored "b" [1; 1]%float) =
  {| Verification.isMatch := true;
     Verification.similarity := 0.70710678118654746;
     Verification.threshold := 0.6 |}.
Proof. vm_compute. reflexivity. Qed.

(** ** Objects, references and aliasing

    [identifyFace] once more, with the arrays and the stored faces as
    objects in a store: [_filterByHash] hands back the caller's array itself
    for a small collection, [push] and [sort] update [matches] in place, and
    [filter] and [slice] build new arrays. *)

Module Heap.

Definition loc := positive.

Section Store.
Context {UserData : Type}.

Inductive object :=
| FaceObject (face : FaceRecord.t UserData)
| FaceArray (elements : list loc)
| MatchArray (elements : list (Match.t UserData)).

Abbreviation heap := (gmap loc object).

(** A computation on the store that returns or throws. *)
Definition M (A : Type) : Type := heap -> JS.Completion A * heap.

Definition ret {A : Type} (a : A) : M A := fun h => (JS.Return a, h).

Definition throw {A : Type} (message : string) : M A := fun h => (JS.Throw message, h).

Definition bind {A B : Type} (m : M A) (k : A -> M B) : M B :=
  fun h =>
    match m h with
    | (JS.Return a, h') => k a h'
    | (JS.Throw message, h') => (JS.Throw message, h')
    end.

Notation "x <- m ;; k" := (bind m (fun x => k))
  (at level 100, m at next level, right associativity).

(** A new object. *)
Definition alloc (o : object) : M loc :=
  fun h => let l := fresh (dom h) in (JS.Return l, <[ l := o ]> h).

Definition read_faces (arr : loc) : M (list loc) :=
  fun h =>
    match h !! arr with
    | Some (FaceArray elements) => (JS.Return elements, h)
    | _ => (JS.Throw "TypeError: not an array of faces", h)
    end.

Definition read_face (ref : loc) : M (FaceRecord.t UserData) :=
  fun h =>
    match h !! ref with
    | Some (FaceObject face) => (JS.Return face, h)
    | _ => (JS.Throw "TypeError: not a face", h)
    end.

Definition read_matches (arr : loc) : M (list (Match.t UserData)) :=
  fun h =>
    match h !! arr with
    | Some (MatchArray elements) => (JS.Return elements, h)
    | _ => (JS.Throw "TypeError: not an array of matches", h)
    end.

Definition write_matches (arr : loc) (elements : list (Match.t UserData)) : M unit :=
  fun h => (JS.Return tt, <[ arr := MatchArray elements ]> h).

(** [arr.filter(callback)]: a new array of the elements the callback keeps. *)
Fixpoint keep (callback : loc -> M bool) (elements : list loc) : M (list loc) :=
  match elements with
  | [] => ret []
  | ref :: rest =>
      b <- callback ref ;;
      kept <- keep callback rest ;;
      ret (if b then ref :: kept else kept)
  end.

Definition filter (arr : loc) (callback : loc -> M bool) : M loc :=
  elements <- read_faces arr ;;
  kept <- keep callback elements ;;
  alloc (FaceArray kept).

(** [arr.push(m)], [arr.sort(comparefn)] (in place, returns [arr]) and
    [arr.slice(start, end)] (a new array). *)
Definition push (arr : loc) (m : Match.t UserData) : M unit :=
  elements <- read_matches arr ;;
  write_matches arr (elements ++ [m]).

Definition sort (arr : loc) (comparefn : Match.t UserData -> Match.t UserData -> float)
    : M loc :=
  elements <- read_matches arr ;;
  _ <- write_matches arr (JS.sort comparefn elements) ;;
  ret arr.

Definition slice (arr : loc) (start end_ : Z) : M loc :=
  elements <- read_matches arr ;;
  alloc (MatchArray (JS.slice elements start end_)).

(** [for (const x of arr) body], over local variables of type [S]. *)
Fixpoint for_of {S : Type} (body : S -> loc -> M S) (elements : list loc) (locals : S) : M S :=
  match elements with
  | [] => ret locals
  | ref :: rest =>
      locals' <- body locals ref ;;
      for_of body rest locals'
  end.

(** [_filterByHash(storedFaces, queryHash, threshold)] *)
Definition _filterByHash (storedFaces : loc) (queryHash : string) (threshold : Z) : M loc :=
  elements <- read_faces storedFaces ;;
  if (length elements <=? 1000)%nat then ret storedFaces
  else
    filter storedFaces
      (fun ref =>
         face <- read_face ref ;;
         let distance := _hammingDistance (FaceRecord.hash face) queryHash in
         ret (Z.of_nat distance <=? threshold)).

(** The body of the loop of [identifyFace]; [matches] is the array it
    pushes to. *)
Definition identify_step (this : FaceIdentifier) (currentFace : Face.t) (matches : loc)
    (locals : option (Match.t UserData) * float) (ref : loc)
    : M (option (Match.t UserData) * float) :=
  let '(bestMatch, bestSimilarity) := locals in
  candidate <- read_face ref ;;
  let similarity := score currentFace candidate in
  _ <- push matches (mkMatch candidate similarity) ;;
  if JS.gt similarity bestSimilarity then
    ret (if JS.ge similarity (matchThreshold (options this))
         then Some (mkMatch candidate similarity) else bestMatch,
         similarity)
  else ret (bestMatch, bestSimilarity).

(** The returned object; [candidates] refers to an array in the store. *)
Record Result := {
  matchFound : bool;
  bestMatch : option (Match.t UserData);
  similarity : option float;
  candidates : loc;
  currentFace : option CurrentFace.t
}.

(** [identifyFace(media, storedFaces)] *)
Definition identifyFace (this : FaceIdentifier) (media : DetectorOutcome)
    (random : nat -> float) (storedFaces : loc) : M Result :=
  elements <- read_faces storedFaces ;;
  if (length elements =? 0)%nat then
    empty <- alloc (MatchArray []) ;;
    ret {| matchFound := false; bestMatch := None; similarity := None;
           candidates := empty; currentFace := None |}
  else
    match detectFaces this media random with
    | JS.Throw message => throw message
    | JS.Return [] => throw "TypeError: currentFace is undefined"
    | JS.Return (face :: _) =>
        let currentHash := _generateHash this (Face.descriptor face) in
        candidates <- _filterByHash storedFaces currentHash default_threshold ;;
        matches <- alloc (MatchArray []) ;;
        survivors <- read_faces candidates ;;
        locals <- for_of (identify_step this face matches) survivors (None, 0%float) ;;
        sorted <- sort matches by_similarity_desc ;;
        top <- slice sorted 0 5 ;;
        ret {| matchFound := match fst locals with Some _ => true | None => false end;
               bestMatch := fst locals;
               similarity := Some (snd locals);
               candidates := top;
               currentFace :=
                 Some {| CurrentFace.descriptor := Face.descriptor face;
                         CurrentFace.hash := currentHash;
                         CurrentFace.confidence := Face.confidence face |} |}
    end.

(** *** Framing: a computation that leaves the objects of [h0] alone *)

(** Run from any store that extends [h0], [m] ends in a store that still
    extends [h0], and a returned value satisfies [Q]. *)
Definition frames {A : Type} (h0 : heap) (m : M A) (Q : A -> Prop) : Prop :=
  forall h, h0 ⊆ h ->
    h0 ⊆ snd (m h) /\ forall a, fst (m h) = JS.Return a -> Q a.

Lemma frames_ret {A : Type} h0 (a : A) (Q : A -> Prop) : Q a -> frames h0 (ret a) Q.
Proof. intros HQ h H. split; [exact H|]. cbn. intros ? [= <-]. exact HQ. Qed.

Lemma frames_throw {A : Type} h0 message (Q : A -> Prop) : frames h0 (throw message) Q.
Proof. intros h H. split; [exact H|]. cbn. discriminate. Qed.

Lemma frames_bind {A B : Type} h0 (m : M A) (k : A -> M B) (P : A -> Prop) (Q : B -> Prop) :
  frames h0 m P -> (forall a, P a -> frames h0 (k a) Q) -> frames h0 (bind m k) Q.
Proof.
  intros Hm Hk h H. unfold bind. destruct (Hm h H) as [H1 H2].
  destruct (m h) as [[a|message] h']; cbn [fst snd] in *.
  - apply (Hk a (H2 a eq_refl) h' H1).
  - split; [exact H1 | discriminate].
Qed.

Lemma frames_weaken {A : Type} h0 (m : M A) (P Q : A -> Prop) :
  frames h0 m P -> (forall a, P a -> Q a) -> frames h0 m Q.
Proof. intros Hm HPQ h H. destruct (Hm h H) as [H1 H2]. split; auto. Qed.

Lemma frames_alloc h0 o : frames h0 (alloc o) (fun l => h0 !! l = None).
Proof.
  intros h H. unfold alloc. cbn [fst snd].
  assert (F : h !! fresh (dom h) = None) by (apply not_elem_of_dom, is_fresh).
  assert (F0 : h0 !! fresh (dom h) = None).
  { destruct (h0 !! fresh (dom h)) as [o'|] eqn:E; [|reflexivity].
    rewrite (lookup_weaken _ _ _ _ E H) in F. discriminate. }
  split.
  - apply insert_subseteq_r; assumption.
  - intros ? [= <-]. exact F0.
Qed.

Lemma frames_read_faces h0 arr : frames h0 (read_faces arr) (fun _ => True).
Proof.
  intros h H. unfold read_faces. destruct (h !! arr) as [[]|]; cbn; auto.
Qed.

Lemma frames_read_face h0 ref : frames h0 (read_face ref) (fun _ => True).
Proof.
  intros h H. unfold read_face. destruct (h !! ref) as [[]|]; cbn; auto.
Qed.

Lemma frames_read_matches h0 arr : frames h0 (read_matches arr) (fun _ => True).
Proof.
  intros h H. unfold read_matches. destruct (h !! arr) as [[]|]; cbn; auto.
Qed.

(** A write is framed when it goes to an object that [h0] does not have. *)
Lemma frames_write_matches h0 arr elements :
  h0 !! arr = None -> frames h0 (write_matches arr elements) (fun _ => True).
Proof.
  intros F h H. unfold write_matches. cbn [fst snd]. split; [|auto].
  apply insert_subseteq_r; assumption.
Qed.

Lemma frames_keep h0 callback elements :
  (forall ref, frames h0 (callback ref) (fun _ => True)) ->
  frames h0 (keep callback elements) (fun _ => True).
Proof.
  intros Hc. induction elements as [|ref rest IH]; cbn [keep].
  - apply frames_ret. exact I.
  - eapply frames_bind; [apply Hc|]. intros b _.
    eapply frames_bind; [apply IH|]. intros kept _. apply frames_ret. exact I.
Qed.

Lemma frames_for_of {S : Type} h0 (body : S -> loc -> M S) elements locals :
  (forall s ref, frames h0 (body s ref) (fun _ => True)) ->
  frames h0 (for_of body elements locals) (fun _ => True).
Proof.
  intros Hb. revert locals. induction elements as [|ref rest IH]; intros locals; cbn [for_of].
  - apply frames_ret. exact I.
  - eapply frames_bind; [apply Hb|]. intros s _. apply IH.
Qed.

Lemma frames_push h0 arr m :
  h0 !! arr = None -> frames h0 (push arr m) (fun _ => True).
Proof.
  intros F. eapply frames_bind; [apply frames_read_matches|]. intros ? _.
  apply frames_write_matches, F.
Qed.

Lemma frames_filterByHash h0 storedFaces queryHash threshold :
  frames h0 (_filterByHash storedFaces queryHash threshold) (fun _ => True).
Proof.
  eapply frames_bind; [apply frames_read_faces|]. intros elements _.
  destruct (_ <=? _)%nat; [apply frames_ret; exact I|].
  eapply frames_bind; [apply frames_read_faces|]. intros ? _.
  eapply frames_bind.
  - apply frames_keep. intros ref.
    eapply frames_bind; [apply frames_read_face|]. intros ? _. apply frames_ret. exact I.
  - intros ? _. eapply frames_weaken; [apply frames_alloc | auto].
Qed.

Lemma frames_identify_step h0 this face matches locals ref :
  h0 !! matches = None ->
  frames h0 (identify_step this face matches locals ref) (fun _ => True).
Proof.
  intros F. destruct locals as [bm b]. cbn [identify_step].
  eapply frames_bind; [apply frames_read_face|]. intros candidate _.
  eapply frames_bind; [apply frames_push, F|]. intros ? _.
  destruct (JS.gt _ _); apply frames_ret; exact I.
Qed.

Lemma frames_identifyFace h0 this media random storedFaces :
  frames h0 (identifyFace this media random storedFaces)
    (fun res => h0 !! candidates res = None).
Proof.
  eapply frames_bind; [apply frames_read_faces|]. intros elements _.
  destruct (_ =? _)%nat.
  { eapply frames_bind; [apply frames_alloc|]. intros empty F. apply frames_ret. exact F. }
  destruct (detectFaces this media random) as [[|face others]|message];
    try apply frames_throw.
  eapply frames_bind; [apply frames_filterByHash|]. intros arr _.
  eapply frames_bind; [apply frames_alloc|]. intros matches F. cbv beta in F.
  eapply frames_bind; [apply frames_read_faces|]. intros refs _.
  eapply frames_bind.
  { apply frames_for_of. intros s ref. apply frames_identify_step, F. }
  intros locals _.
  eapply frames_bind.
  { eapply frames_bind; [apply frames_read_matches|]. intros ms _.
    eapply frames_bind; [apply frames_write_matches, F|]. intros ? _.
    apply (frames_ret h0 matches (fun l => h0 !! l = None)). exact F. }
  intros sorted Fs. cbv beta in Fs.
  eapply frames_bind.
  { eapply frames_bind; [apply frames_read_matches|]. intros ms _. apply frames_alloc. }
  intros top Ft. apply frames_ret. exact Ft.
Qed.

End Store.
End Heap.

(** *** The store computation computes what the list function computes *)

Section StoreRefinement.
Context {UserData : Type}.

Abbreviation heap := (gmap Heap.loc (Heap.object (UserData := UserData))).

(** The references [refs] lead to the stored faces [faces]. *)
Definition faces_at (h : heap) (refs : list Heap.loc)
    (faces : list (FaceRecord.t UserData)) : Prop :=
  Forall2 (fun ref face => h !! ref = Some (Heap.FaceObject face)) refs faces.

(** [arr] is an array of references to the stored faces [faces]. *)
Definition represents (h : heap) (arr : Heap.loc)
    (faces : list (FaceRecord.t UserData)) : Prop :=
  exists refs, h !! arr = Some (Heap.FaceArray refs) /\ faces_at h refs faces.

Lemma faces_at_weaken h h' refs faces :
  h ⊆ h' -> faces_at h refs faces -> faces_at h' refs faces.
Proof.
  intros H. apply Forall2_impl. intros ref face E. exact (lookup_weaken _ _ _ _ E H).
Qed.

Lemma represents_weaken h h' arr faces :
  h ⊆ h' -> represents h arr faces -> represents h' arr faces.
Proof.
  intros H (refs & E & F). exists refs. split.
  - exact (lookup_weaken _ _ _ _ E H).
  - eapply faces_at_weaken; eassumption.
Qed.

Lemma faces_at_insert h arr elements refs faces :
  (forall face, h !! arr <> Some (Heap.FaceObject face)) ->
  faces_at h refs faces ->
  faces_at (<[ arr := Heap.MatchArray elements ]> h) refs faces.
Proof.
  intros N. apply Forall2_impl. intros ref face E.
  rewrite lookup_insert_ne; [exact E|]. intros ->. exact (N face E).
Qed.

Lemma keep_run h (p : FaceRecord.t UserData -> bool) refs faces :
  faces_at h refs faces ->
  exists kept,
    Heap.keep (fun ref => Heap.bind (Heap.read_face ref) (fun face => Heap.ret (p face)))
      refs h = (JS.Return kept, h) /\
    faces_at h kept (filter p faces).
Proof.
  induction 1 as [|ref face refs faces E F IH]; cbn [Heap.keep filter].
  - exists []. split; [reflexivity | constructor].
  - destruct IH as (kept & K & FK).
    exists (if p face then ref :: kept else kept).
    unfold Heap.bind at 1 2. unfold Heap.read_face at 1. rewrite E. unfold Heap.ret at 1.
    unfold Heap.bind at 1. rewrite K. unfold Heap.ret. split; [reflexivity|].
    destruct (p face); [constructor; assumption | exact FK].
Qed.

Lemma fresh_none (h : heap) : h !! fresh (dom h) = None.
Proof. apply not_elem_of_dom, is_fresh. Qed.

Lemma filterByHash_run h storedFaces faces queryHash threshold :
  represents h storedFaces faces ->
  exists arr h',
    Heap._filterByHash storedFaces queryHash threshold h = (JS.Return arr, h') /\
    h ⊆ h' /\
    represents h' arr (_filterByHash faces queryHash threshold).
Proof.
  intros (refs & E & F). unfold Heap._filterByHash, _filterByHash.
  unfold Heap.bind at 1. unfold Heap.read_faces at 1. rewrite E.
  rewrite (Forall2_length F).
  destruct (length faces <=? 1000)%nat.
  - exists storedFaces, h. split; [reflexivity|]. split; [reflexivity|].
    exists refs. split; assumption.
  - unfold Heap.filter, Heap.bind at 1. unfold Heap.read_faces. rewrite E.
    destruct (keep_run h
                (fun face => Z.of_nat (_hammingDistance (FaceRecord.hash face) queryHash)
                             <=? threshold) refs faces F) as (kept & K & FK).
    unfold Heap.bind at 1. rewrite K. unfold Heap.alloc.
    pose proof (fresh_none h) as Fr.
    eexists _, _. split; [reflexivity|]. split; [apply insert_subseteq; exact Fr|].
    exists kept. split; [apply lookup_insert_eq|].
    eapply faces_at_weaken; [|exact FK]. apply insert_subseteq. exact Fr.
Qed.

(** The loop: the store changes at [matches] only, which collects what the
    list function collects. *)
Lemma for_of_run this face matches h refs faces bm b ms :
  faces_at h refs faces ->
  (forall c, h !! matches <> Some (Heap.FaceObject c)) ->
  exists bm' b' ms',
    fold_left (identify_step this face) faces (bm, b, ms) = (bm', b', ms') /\
    Heap.for_of (Heap.identify_step this face matches) refs (bm, b)
      (<[ matches := Heap.MatchArray ms ]> h) =
    (JS.Return (bm', b'), <[ matches := Heap.MatchArray ms' ]> h).
Proof.
  intros F N. revert bm b ms.
  induction F as [|ref c refs faces E F IH]; intros bm b ms; cbn [fold_left Heap.for_of].
  - eexists _, _, _. split; reflexivity.
  - assert (D : matches <> ref) by (intros ->; exact (N c E)).
    rewrite Matcher.step_eq.
    destruct (IH (if (b <? score face c)%float
                  then if (matchThreshold (options this) <=? score face c)%float
                       then Some (mkMatch c (score face c)) else bm
                  else bm)
                 (if (b <? score face c)%float then score face c else b)
                 (ms ++ [mkMatch c (score face c)])) as (bm' & b' & ms' & L & R).
    exists bm', b', ms'. split; [exact L|].
    unfold Heap.bind at 1. cbn [Heap.identify_step].
    unfold Heap.bind at 1. unfold Heap.read_face at 1.
    rewrite lookup_insert_ne by exact D. rewrite E.
    unfold Heap.bind at 1. unfold Heap.push, Heap.bind at 1.
    unfold Heap.read_matches at 1. rewrite lookup_insert_eq.
    unfold Heap.write_matches at 1. rewrite insert_insert_eq.
    unfold JS.gt, JS.ge.
    destruct (b <? score face c)%float; unfold Heap.ret at 1; exact R.
Qed.

(** The returned object [res], in the store [h], is the result [r]. *)
Definition carries (h : heap) (res : Heap.Result) (r : Identification.t UserData) : Prop :=
  Heap.matchFound res = Identification.matchFound r /\
  Heap.bestMatch res = Identification.bestMatch r /\
  Heap.similarity res = Identification.similarity r /\
  Heap.currentFace res = Identification.currentFace r /\
  h !! Heap.candidates res = Some (Heap.MatchArray (Identification.candidates r)).

Lemma identifyFace_run this media random storedFaces h faces :
  represents h storedFaces faces ->
  match identifyFace this media random faces with
  | JS.Return r =>
      exists res h',
        Heap.identifyFace this media random storedFaces h = (JS.Return res, h') /\
        carries h' res r
  | JS.Throw message =>
      Heap.identifyFace this media random storedFaces h = (JS.Throw message, h)
  end.
Proof.
  intros R. pose proof R as (refs & E & F).
  assert (U : forall k : list Heap.loc -> Heap.M (Heap.Result (UserData := UserData)),
             Heap.bind (Heap.read_faces storedFaces) k h = k refs h).
  { intros k. unfold Heap.bind, Heap.read_faces. rewrite E. reflexivity. }
  unfold Heap.identifyFace, identifyFace. rewrite U, (Forall2_length F). clear U.
  destruct (length faces =? 0)%nat.
  { eexists _, _. split; [reflexivity|]. repeat split. cbn. apply lookup_insert_eq. }
  destruct (detectFaces this media random) as [[|face others]|message]; try reflexivity.
  destruct (filterByHash_run h storedFaces faces
              (_generateHash this (Face.descriptor face)) default_threshold R)
    as (arr & h1 & RF & S1 & (refs' & E' & F')).
  unfold Heap.bind at 1. rewrite RF.
  unfold Heap.bind at 1. unfold Heap.alloc at 1.
  pose proof (fresh_none h1) as Fr. set (matches := fresh (dom h1)) in *.
  unfold Heap.bind at 1. unfold Heap.read_faces at 1.
  rewrite lookup_insert_ne by (intros ->; congruence). rewrite E'.
  destruct (for_of_run this face matches h1 refs' _ None 0%float [] F')
    as (bm & b & ms & L & RL); [intros c; congruence|].
  unfold Heap.bind at 1. rewrite RL.
  unfold Heap.bind at 1. unfold Heap.sort, Heap.bind at 1.
  unfold Heap.read_matches at 1. rewrite lookup_insert_eq.
  unfold Heap.bind at 1. unfold Heap.write_matches at 1. rewrite insert_insert_eq.
  unfold Heap.ret at 1.
  unfold Heap.bind at 1. unfold Heap.slice, Heap.bind at 1.
  unfold Heap.read_matches at 1. rewrite lookup_insert_eq.
  unfold Heap.alloc, Heap.ret.
  eexists _, _. split; [reflexivity|].
  unfold identify. fold (survivors this face faces) in L |- *.
  unfold survivors in L |- *. rewrite L. repeat split. cbn. apply lookup_insert_eq.
Qed.

(** C9: [identifyFace] leaves every object of the store it is called in as
    it was, so the caller's array holds the same references in the same order
    and every stored face is unchanged: all writes go to the arrays that the
    call itself creates.  On a store where [storedFaces] is an array of
    stored faces, the call computes the result of the list function, the
    candidate list being a new array. *)
Theorem identifyFace_leaves_store (this : FaceIdentifier) (media : DetectorOutcome)
    (random : nat -> float) (storedFaces : Heap.loc) (h : heap) :
  let outcome := Heap.identifyFace this media random storedFaces h in
  (forall l o, h !! l = Some o -> snd outcome !! l = Some o) /\
  (forall res, fst outcome = JS.Return res -> h !! Heap.candidates res = None) /\
  forall faces, represents h storedFaces faces ->
    represents (snd outcome) storedFaces faces /\
    match identifyFace this media random faces with
    | JS.Return r => exists res, fst outcome = JS.Return res /\ carries (snd outcome) res r
    | JS.Throw message => fst outcome = JS.Throw message
    end.
Proof.
  cbv zeta.
  destruct (Heap.frames_identifyFace h this media random storedFaces h) as [S Q];
    [reflexivity|].
  split; [|split].
  - intros l o E. exact (lookup_weaken _ _ _ _ E S).
  - exact Q.
  - intros faces R. split; [exact (represents_weaken _ _ _ _ S R)|].
    pose proof (identifyFace_run this media random storedFaces h faces R) as P.
    destruct (identifyFace this media random faces) as [r|message].
    + destruct P as (res & h' & -> & C). exists res. split; [reflexivity | exact C].
    + rewrite P. reflexivity.
Qed.

End StoreRefinement.

(** A store with two stored faces and the caller's array: after the call the
    three objects are as before and the candidates are in a fourth object. *)
Example identifyFace_on_store :
  let a := Examples.stored "a" [1; 1]%float in
  let b := Examples.stored "b" [1; 0]%float in
  let h : gmap Heap.loc Heap.object :=
    <[ 3%positive := Heap.FaceArray [1%positive; 2%positive] ]>
      (<[ 2%positive := Heap.FaceObject b ]> (<[ 1%positive := Heap.FaceObject a ]> ∅)) in
  let outcome :=
    Heap.identifyFace (Examples.engine 0.6) (Examples.seen [1; 0]%float)
      Examples.random_half 3%positive h in
  snd outcome !! 3%positive = Some (Heap.FaceArray [1%positive; 2%positive]) /\
  snd outcome !! 1%positive = Some (Heap.FaceObject a) /\
  snd outcome !! 2%positive = Some (Heap.FaceObject b) /\
  option_map Heap.candidates
    (match fst outcome with JS.Return res => Some res | JS.Throw _ => None end) =
    Some 5%positive /\
  snd outcome !! 5%positive =
    Some (Heap.MatchArray [mkMatch b 1%float; mkMatch a 0.70710678118654746%float]).
Proof. repeat split; vm_compute; reflexivity. Qed.

(** ** The synthetic face *)

Module Synthetic.
Import Rounding.


Lemma valid64 x s m e :
  Prim2SF x = S754_finite s m e ->
  Zpos m < 2 ^ 53 /\ -1074 <= e <= 971 /\ (-1074 < e -> 2 ^ 52 <= Zpos m).
Proof.
  intros E. pose proof (Prim2SF_valid x) as V. rewrite E in V.
  apply (valid_finite prec emax) in V. change (SpecFloat.emin prec emax) with (-1074) in V.
  change prec with 53 in V. change emax with 1024 in V.
  destruct V as (D & Lo & N & Hi). pose proof (digits_bounds m) as [L U].
  split; [|split; [lia|]].
  - eapply Z.lt_le_trans; [exact U|]. apply Z.pow_le_mono_r; lia.
  - intros G. rewrite (N G) in L. exact L.
Qed.











(** The loop that fills the typed array writes [f i] at every index. *)
Lemma fill_loop {A : Type} (f : nat -> A) (m k : nat) (arr : list A) :
  length arr = (k + m)%nat ->
  fold_left (fun descriptor i => <[ i := f i ]> descriptor) (seq k m) arr =
  firstn k arr ++ map f (seq k m).
Proof.
  revert k arr. induction m as [|m IH]; intros k arr L; cbn [seq fold_left map].
  - rewrite app_nil_r, firstn_all2 by lia. reflexivity.
  - rewrite IH by (rewrite length_insert; lia).
    assert (Lk : (k < length arr)%nat) by lia.
    rewrite (take_S_r _ _ (f k)) by (apply list_lookup_insert_eq; exact Lk).
    rewrite take_insert_ge by lia. rewrite <- app_assoc. reflexivity.
Qed.

Lemma synthetic_descriptor (random : nat -> float) :
  Face.descriptor (_createSyntheticFace random) =
  map (fun i => JS.fround (random i * 0.5 + 0.25)%float) (seq 0 128).
Proof.
  unfold _createSyntheticFace. cbn [Face.descriptor].
  rewrite (fill_loop (fun i => JS.fround (random i * 0.5 + 0.25)%float) 128 0); reflexivity.
Qed.

End Synthetic.






(** The largest value of [Math.random()] gives the component [0.75], the
    smallest [0.25]. *)
Example synthetic_extremes :
  JS.fround (0x1.fffffffffffffp-1 * 0.5 + 0.25)%float = 0.75%float /\
  JS.fround (0 * 0.5 + 0.25)%float = 0.25%float.
Proof. split; vm_compute; reflexivity. Qed.

(** ** The hash *)

(** A number that a [Float32Array] can hold: storing it changes nothing. *)
Definition is_float32 (x : float) : bool := PrimFloat.Leibniz.eqb (JS.fround x) x.

(** [values.reduce((a, b) => a + b, 0) / values.length]: the arithmetic mean,
    computed the way the source computes it. *)
Definition arithmetic_mean (values : list float) : float :=
  (fold_left (fun a b => a + b) values 0 / JS.of_Z (Z.of_nat (length values)))%float.

(** Every component [===] the first one (so none of them is NaN). *)
Definition all_equal (descriptor : list float) : bool :=
  match descriptor with
  | [] => true
  | v :: _ => forallb (fun x => (x =? v)%float) descriptor
  end.

(** The character of a component in the hash. *)
Definition bit (avg v : float) : ascii := if JS.ge v avg then "1"%char else "0"%char.

Module HashFacts.
Import Rounding.

Local Abbreviation c64 := (canonical_mantissa prec emax).

(** A binary32 number read as a binary64 number: the mantissa is shifted up
    to 53 digits. *)
Lemma widen_any s m e :
  SpecFloat.valid_binary 24 128 (S754_finite s m e) = true ->
  let k := 53 - Zpos (digits2_pos m) in
  29 <= k /\ -149 <= e <= 104 /\
  binary_round prec emax s m e = S754_finite s (Z.to_pos (Zpos m * 2 ^ k)) (e - k).
Proof.
  intros V. apply (valid_finite 24 128) in V. change (SpecFloat.emin 24 128) with (-149) in V.
  destruct V as (D & Lo & _ & Hi). cbv zeta.
  set (k := 53 - Zpos (digits2_pos m)).
  assert (Hk : 29 <= k) by (unfold k; lia).
  assert (Pk : 0 < 2 ^ k) by (apply Z.pow_pos_nonneg; lia).
  split; [exact Hk|]. split; [lia|].
  apply (binary_round_exact prec emax eq_refl s _ _ _ _ (e - k)); try lia.
  - unfold canonical_mantissa. apply Z.eqb_eq.
    assert (Dg : Zpos (digits2_pos (Z.to_pos (Zpos m * 2 ^ k))) = 53).
    { rewrite <- Zdigits2_pos, Z2Pos.id, Zdigits2_log2, Z.log2_mul_pow2 by lia.
      pose proof (digits2_pos_log2 m). unfold k. lia. }
    rewrite Dg. unfold SpecFloat.fexp, SpecFloat.emin.
    change prec with 53. change emax with 1024. pose proof (Pos2Z.is_pos (digits2_pos m)). lia.
  - change prec with 53. change emax with 1024. lia.
  - replace (e - (e - k)) with k by lia. rewrite Z.sub_diag, Z.pow_0_r, Z2Pos.id by lia. lia.
Qed.

(** The shape of a finite binary32 number as a binary64 number: 53 digits,
    the low 29 of them zero. *)
Lemma float32_shape v s m e :
  is_float32 v = true -> Prim2SF v = S754_finite s m e ->
  (exists m0, Zpos m = m0 * 2 ^ 29) /\ 2 ^ 52 <= Zpos m < 2 ^ 53 /\ -201 <= e <= 75.
Proof.
  intros F E. apply FloatAxioms.Leibniz.eqb_spec in F.
  pose proof (binary_round_valid 24 128 eq_refl s m e) as V32.
  assert (E' : Prim2SF (JS.fround v) = S754_finite s m e) by (rewrite F; exact E).
  unfold JS.fround in E'. rewrite E in E'.
  destruct (binary_round 24 128 s m e) as [s'|s'| |s' m' e'] eqn:R.
  - rewrite Prim2SF_SF2Prim in E' by reflexivity. discriminate.
  - rewrite Prim2SF_SF2Prim in E' by reflexivity. discriminate.
  - rewrite Prim2SF_SF2Prim in E' by reflexivity. discriminate.
  - destruct (widen_any s' m' e' V32) as (Hk & He & W). cbv zeta in *.
    set (k := 53 - Zpos (digits2_pos m')) in *.
    rewrite Prim2SF_SF2Prim in E' by apply (binary_round_valid prec emax eq_refl).
    rewrite W in E'. injection E' as <- <- <-.
    assert (Pk : 0 < 2 ^ k) by (apply Z.pow_pos_nonneg; lia).
    rewrite Z2Pos.id by lia.
    split; [|split; [|pose proof (Pos2Z.is_pos (digits2_pos m')); unfold k; lia]].
    + exists (Zpos m' * 2 ^ (k - 29)). rewrite <- Z.mul_assoc, <- Z.pow_add_r by lia.
      f_equal. f_equal. lia.
    + pose proof (digits_bounds m') as [L U].
      replace (Zpos (digits2_pos m')) with (53 - k) in L, U by (unfold k; lia).
      split.
      * assert (P : 2 ^ 52 = 2 ^ (53 - k - 1) * 2 ^ k)
          by (rewrite <- Z.pow_add_r by lia; f_equal; lia).
        rewrite P. apply Z.mul_le_mono_nonneg_r; lia.
      * assert (P : 2 ^ 53 = 2 ^ (53 - k) * 2 ^ k)
          by (rewrite <- Z.pow_add_r by lia; f_equal; lia).
        rewrite P. apply Z.mul_lt_mono_pos_r; lia.
Qed.

(** Storing into a [Float32Array] twice is storing once. *)
Lemma fround_idempotent x : JS.fround (JS.fround x) = JS.fround x.
Proof.
  assert (K : forall y, (forall s m e, Prim2SF y <> S754_finite s m e) -> JS.fround y = y).
  { intros y Hy. unfold JS.fround. destruct (Prim2SF y) eqn:E; try reflexivity.
    exfalso. eapply Hy. reflexivity. }
  destruct (Prim2SF x) as [s|s| |s m e] eqn:E;
    try (rewrite (K x) by (intros; rewrite E; discriminate);
         apply K; intros; rewrite E; discriminate).
  assert (Y : JS.fround x =
              match binary_round 24 128 s m e with
              | S754_finite s' m' e' => SF2Prim (binary_round prec emax s' m' e')
              | y => SF2Prim y
              end) by (unfold JS.fround; rewrite E; reflexivity).
  rewrite Y. clear Y.
  pose proof (binary_round_valid 24 128 eq_refl s m e) as V32.
  destruct (binary_round 24 128 s m e) as [s'|s'| |s' m' e'] eqn:R;
    try (apply K; intros; rewrite Prim2SF_SF2Prim by reflexivity; discriminate).
  destruct (widen_any s' m' e' V32) as (Hk & He & W). cbv zeta in *.
  set (k := 53 - Zpos (digits2_pos m')) in *.
  assert (Pk : 0 < 2 ^ k) by (apply Z.pow_pos_nonneg; lia).
  unfold JS.fround.
  rewrite Prim2SF_SF2Prim by apply (binary_round_valid prec emax eq_refl).
  rewrite W.
  rewrite (binary_round_exact 24 128 eq_refl s' _ _ m' e' (e' - k)); [rewrite W; reflexivity | | | | |].
  - cbn [SpecFloat.valid_binary] in V32. unfold bounded in V32.
    apply andb_true_iff in V32. tauto.
  - lia.
  - lia.
  - lia.
  - rewrite Z2Pos.id by lia. rewrite Z.sub_diag, Z.pow_0_r, Z.mul_1_r. do 2 f_equal. lia.
Qed.

Lemma Float32Array_is_float32 arr : forallb is_float32 (JS.Float32Array arr) = true.
Proof.
  apply forallb_forall. intros x Hx. apply in_map_iff in Hx. destruct Hx as (y & <- & _).
  apply FloatAxioms.Leibniz.eqb_spec, fround_idempotent.
Qed.

(** Numbers that [===] identifies: both are zeros, or they are the same. *)
Lemma SFcompare_Eq x y :
  SFcompare x y = Some Eq ->
  x = y \/ (exists s1 s2, x = S754_zero s1 /\ y = S754_zero s2).
Proof.
  destruct x as [sx|sx| |sx mx ex], y as [sy|sy| |sy my ey]; cbn [SFcompare];
    try discriminate; try (right; eauto; fail);
    try (destruct sx, sy; try discriminate; left; reflexivity).
  destruct sx, sy; try discriminate;
    destruct (Z.compare_spec ex ey) as [->|?|?]; try discriminate;
    rewrite ?FloatOrder.compare_cont_Eq; intros H; left; f_equal.
  - destruct (Pos.compare_spec mx my); cbn in H; congruence.
  - destruct (Pos.compare_spec mx my); cbn in H; congruence.
Qed.

Lemma eqb_same x v :
  (x =? v)%float = true ->
  x = v \/ (exists s1 s2, Prim2SF x = S754_zero s1 /\ Prim2SF v = S754_zero s2).
Proof.
  rewrite FloatAxioms.eqb_spec. unfold SFeqb.
  destruct (SFcompare (Prim2SF x) (Prim2SF v)) as [[]|] eqn:E; try discriminate.
  intros _. destruct (SFcompare_Eq _ _ E) as [H|H]; [left; apply Prim2SF_inj; exact H | right; exact H].
Qed.

Lemma binary_normalize_cond s p e :
  binary_normalize prec emax (cond_Zopp s (Zpos p)) e false = binary_round prec emax s p e.
Proof. destruct s; reflexivity. Qed.

(** Adding a number of the same sign and a smaller exponent. *)
Lemma add_same_sign a v s ma ea m e :
  Prim2SF a = S754_finite s ma ea -> Prim2SF v = S754_finite s m e -> e <= ea ->
  Prim2SF (a + v) = binary_round prec emax s (Z.to_pos (Zpos ma * 2 ^ (ea - e) + Zpos m)) e.
Proof.
  intros Ea Ev L. rewrite add_spec, Ea, Ev. unfold SF64add. cbn [SFadd].
  rewrite Z.min_r by exact L. rewrite !shl_align_fst by lia.
  rewrite Z.sub_diag, Z.pow_0_r, Z.mul_1_r.
  assert (P : 0 < 2 ^ (ea - e)) by (apply Z.pow_pos_nonneg; lia).
  rewrite <- binary_normalize_cond. f_equal.
  rewrite Z2Pos.id by lia. destruct s; cbn [cond_Zopp]; lia.
Qed.

(** A multiple of [2 ^ 29] below [2 ^ 82] fits in 53 digits. *)
Lemma canonical_rep T e :
  (exists T0, T = T0 * 2 ^ 29) -> 2 ^ 52 <= T < 2 ^ 82 -> -1074 <= e <= 942 ->
  exists mb eb,
    c64 mb eb = true /\ e <= eb <= e + 29 /\ Zpos mb * 2 ^ (eb - e) = T /\
    2 ^ 52 <= Zpos mb < 2 ^ 53.
Proof.
  intros [T0 ET] [Lo Hi] He.
  assert (P52 : 0 < 2 ^ 52) by (apply Z.pow_pos_nonneg; lia).
  assert (Tp : 0 < T) by lia.
  set (d := Zdigits2 T - 53).
  pose proof (Zdigits2_bounds T Tp) as [DL DU].
  assert (D0 : 53 <= Zdigits2 T) by (apply Zdigits2_ge; [lia | exact Lo]).
  assert (D1 : Zdigits2 T <= 82) by (apply Zdigits2_le; [lia | lia | exact Hi]).
  assert (Pd : 0 < 2 ^ d) by (apply Z.pow_pos_nonneg; lia).
  assert (ED : T = (T0 * 2 ^ (29 - d)) * 2 ^ d).
  { rewrite <- Z.mul_assoc, <- Z.pow_add_r by lia. rewrite ET. do 2 f_equal. lia. }
  set (q := T0 * 2 ^ (29 - d)) in *.
  assert (B : 2 ^ 52 <= q < 2 ^ 53).
  { replace (Zdigits2 T - 1) with (52 + d) in DL by lia.
    replace (Zdigits2 T) with (53 + d) in DU by lia.
    rewrite Z.pow_add_r in DL, DU by lia. nia. }
  exists (Z.to_pos q), (e + d).
  rewrite Z2Pos.id by lia.
  replace (e + d - e) with d by lia.
  split; [|split; [lia | split; [symmetry; exact ED | exact B]]].
  unfold canonical_mantissa. apply Z.eqb_eq.
  rewrite (digits_unique (Z.to_pos q) 53) by (rewrite Z2Pos.id by lia; exact B).
  unfold SpecFloat.fexp, SpecFloat.emin. change prec with 53. change emax with 1024. lia.
Qed.

Abbreviation total values := (fold_left (fun a b => (a + b)%float) values 0%float).

(** The running sum of [k] copies of a binary32 number is exact as long as
    [k <= 2 ^ 29]: it is [k * m] at the exponent of the number. *)
Lemma sum_repeat v s m e (k : nat) :
  Prim2SF v = S754_finite s m e -> is_float32 v = true ->
  (1 <= k)%nat -> Z.of_nat k <= 2 ^ 29 ->
  exists mk ek,
    Prim2SF (total (repeat v k)) = S754_finite s mk ek /\ e <= ek <= e + 29 /\
    Zpos mk * 2 ^ (ek - e) = Z.of_nat k * Zpos m /\ 2 ^ 52 <= Zpos mk < 2 ^ 53.
Proof.
  intros Ev F. destruct (float32_shape v s m e F Ev) as ([m0 Em] & Bm & Be).
  induction k as [|k IH]; [lia|]. intros _ Hk.
  destruct k as [|k].
  - exists m, e. cbn [repeat fold_left]. rewrite add_spec, Ev.
    change (Prim2SF 0) with (S754_zero false). cbn [SF64add SFadd].
    rewrite Z.sub_diag, Z.pow_0_r. repeat split; lia.
  - destruct IH as (mk & ek & Es & Bk & Ek & Bmk); [lia | lia |].
    change (repeat v (S (S k))) with (v :: repeat v (S k)).
    rewrite repeat_cons, fold_left_app. cbn [fold_left].
    rewrite (add_same_sign _ v s mk ek m e Es Ev) by lia.
    rewrite Ek.
    set (T := Z.of_nat (S k) * Zpos m + Zpos m).
    assert (ET : T = Z.of_nat (S (S k)) * Zpos m) by (unfold T; lia).
    assert (P : 2 ^ 82 = 2 ^ 29 * 2 ^ 53) by reflexivity.
    destruct (canonical_rep T e) as (mb & eb & Cb & Beb & Eb & Bmb).
    { exists (Z.of_nat (S (S k)) * m0). rewrite ET, Em. ring. }
    { rewrite ET. nia. }
    { lia. }
    exists mb, eb. split; [|split; [lia | split; [congruence | exact Bmb]]].
    apply (binary_round_exact prec emax eq_refl s _ _ _ _ e); try lia.
    + exact Cb.
    + change prec with 53. change emax with 1024. lia.
    + rewrite Z2Pos.id by nia. rewrite Z.sub_diag, Z.pow_0_r. lia.
Qed.

(** The number of hashed components, as a number. *)
Lemma of_Z_canonical n :
  1 <= n < 2 ^ 53 ->
  exists mh b,
    Prim2SF (JS.of_Z n) = S754_finite false mh (- b) /\ Zpos mh = n * 2 ^ b /\
    0 <= b /\ 2 ^ 52 <= Zpos mh < 2 ^ 53.
Proof.
  intros Hn. destruct n as [|p|p]; try lia. cbn [JS.of_Z].
  rewrite of_uint63_spec, Uint63.of_Z_spec.
  assert (W : Uint63.wB = 2 ^ 63) by reflexivity.
  rewrite Z.mod_small by (rewrite W; lia). cbn [binary_normalize].
  set (b := 53 - Zdigits2 (Zpos p)).
  pose proof (Zdigits2_bounds (Zpos p) ltac:(lia)) as [DL DU].
  assert (D0 : 1 <= Zdigits2 (Zpos p)) by (apply Zdigits2_ge; simpl; lia).
  assert (D1 : Zdigits2 (Zpos p) <= 53) by (apply Zdigits2_le; lia).
  assert (Pb : 0 < 2 ^ b) by (apply Z.pow_pos_nonneg; lia).
  assert (B : 2 ^ 52 <= Zpos p * 2 ^ b < 2 ^ 53).
  { assert (P52 : 2 ^ 52 = 2 ^ (Zdigits2 (Zpos p) - 1) * 2 ^ b)
      by (rewrite <- Z.pow_add_r by lia; f_equal; lia).
    assert (P53 : 2 ^ 53 = 2 ^ Zdigits2 (Zpos p) * 2 ^ b)
      by (rewrite <- Z.pow_add_r by lia; f_equal; lia).
    rewrite P52, P53. split; [apply Z.mul_le_mono_nonneg_r | apply Z.mul_lt_mono_pos_r]; lia. }
  exists (Z.to_pos (Zpos p * 2 ^ b)), b. rewrite Z2Pos.id by lia.
  split; [|split; [reflexivity | split; [lia | exact B]]].
  apply (binary_round_exact prec emax eq_refl false _ _ _ _ (- b)); try lia.
  - unfold canonical_mantissa. apply Z.eqb_eq.
    rewrite (digits_unique _ 53) by (rewrite Z2Pos.id by lia; exact B).
    unfold SpecFloat.fexp, SpecFloat.emin. change prec with 53. change emax with 1024. lia.
  - change prec with 53. change emax with 1024. lia.
  - rewrite Z2Pos.id by lia. rewrite Z.sub_diag, Z.pow_0_r, Z.mul_1_r. do 2 f_equal. lia.
Qed.

(** Dividing [k * x] by [k] gives [x] back when both are exact. *)
Lemma div_exact total n v s mk ek mh b m e :
  Prim2SF total = S754_finite s mk ek -> Prim2SF n = S754_finite false mh (- b) ->
  Prim2SF v = S754_finite s m e ->
  2 ^ 52 <= Zpos mk < 2 ^ 53 -> 2 ^ 52 <= Zpos mh < 2 ^ 53 -> 2 ^ 52 <= Zpos m < 2 ^ 53 ->
  e <= ek -> 0 <= b -> -1000 <= e ->
  Zpos mk * 2 ^ (ek - e + b) = Zpos mh * Zpos m ->
  Prim2SF (total / n) = S754_finite s m e.
Proof.
  intros Et En Ev Bk Bh Bm Le Hb Lo Eq.
  pose proof (Prim2SF_valid v) as V. rewrite Ev in V.
  apply andb_true_iff in V. destruct V as [Cv Bv]. apply Z.leb_le in Bv.
  set (a := ek - e) in *.
  assert (P106 : 2 ^ 106 = 2 ^ 52 * 2 ^ 54) by reflexivity.
  assert (P53 : 2 ^ 106 = 2 ^ 53 * 2 ^ 53) by reflexivity.
  assert (T : a + b <= 53).
  { destruct (Z.le_gt_cases (a + b) 53) as [H|H]; [exact H | exfalso].
    assert (2 ^ 54 <= 2 ^ (a + b)) by (apply Z.pow_le_mono_r; lia). nia. }
  set (t := 53 - (a + b)).
  assert (Pt : 0 < 2 ^ t) by (apply Z.pow_pos_nonneg; lia).
  assert (Dk : Zdigits2 (Zpos mk) = 53) by (apply digits_unique; exact Bk).
  assert (Dh : Zdigits2 (Zpos mh) = 53) by (apply digits_unique; exact Bh).
  rewrite FloatAxioms.div_spec, Et, En. unfold SF64div. cbn [SFdiv].
  unfold SFdiv_core_binary. rewrite Dk, Dh.
  assert (E' : Z.min (SpecFloat.fexp prec emax (53 + ek - (53 + - b))) (ek - - b) = ek + b - 53).
  { unfold SpecFloat.fexp, SpecFloat.emin. change prec with 53. change emax with 1024. lia. }
  rewrite E'. replace (ek - - b - (ek + b - 53)) with 53 by lia.
  rewrite Z.shiftl_mul_pow2 by lia.
  assert (M : Zpos mk * 2 ^ 53 = Zpos m * 2 ^ t * Zpos mh).
  { assert (P : 2 ^ 53 = 2 ^ (a + b) * 2 ^ t)
      by (rewrite <- Z.pow_add_r by lia; f_equal; unfold t; lia).
    rewrite P, Z.mul_assoc, Eq. ring. }
  rewrite M.
  pose proof (Z.div_mul (Zpos m * 2 ^ t) (Zpos mh) ltac:(lia)) as Q.
  pose proof (Z.mod_mul (Zpos m * 2 ^ t) (Zpos mh) ltac:(lia)) as R.
  unfold Z.div, Z.modulo in Q, R.
  destruct (Z.div_eucl (Zpos m * 2 ^ t * Zpos mh) (Zpos mh)) as [q r].
  subst q r. 
  assert (NL : new_location (Zpos mh) 0 = loc_Exact)
    by (unfold new_location, new_location_even, new_location_odd;
        destruct (Z.even (Zpos mh)); reflexivity).
  rewrite NL, xorb_false_r.
  apply (round_aux_exact prec emax eq_refl s _ _ _ _ (ek + b - 53)).
  - lia.
  - rewrite Zdigits2_log2, Z.log2_mul_pow2 by lia.
    pose proof (digits_unique m 53 Bm) as Dm. rewrite digits2_pos_log2 in Dm.
    unfold SpecFloat.fexp, SpecFloat.emin. change prec with 53. change emax with 1024. lia.
  - exact Cv.
  - exact Bv.
  - lia.
  - lia.
  - rewrite Z.sub_diag, Z.pow_0_r, Z.mul_1_r. do 2 f_equal. lia.
Qed.

Lemma sum_zeros values :
  Forall (fun x => exists s, Prim2SF x = S754_zero s) values ->
  Prim2SF (total values) = S754_zero false.
Proof.
  assert (G : forall acc, Prim2SF acc = S754_zero false ->
            Forall (fun x => exists s, Prim2SF x = S754_zero s) values ->
            Prim2SF (fold_left (fun a b => (a + b)%float) values acc) = S754_zero false).
  { induction values as [|x values IH]; intros acc A F; [exact A|].
    inversion F as [|? ? [sx Ex] F']; subst. cbn [fold_left]. apply IH; [|exact F'].
    rewrite add_spec, A, Ex. destruct sx; reflexivity. }
  apply G. reflexivity.
Qed.

Lemma sum_infinities v s (k : nat) :
  Prim2SF v = S754_infinity s -> (1 <= k)%nat ->
  Prim2SF (total (repeat v k)) = S754_infinity s.
Proof.
  intros Ev. induction k as [|k IH]; [lia|]. intros _.
  destruct k as [|k].
  - cbn [repeat fold_left]. rewrite add_spec, Ev. reflexivity.
  - change (repeat v (S (S k))) with (v :: repeat v (S k)).
    rewrite repeat_cons, fold_left_app. cbn [fold_left].
    rewrite add_spec, IH, Ev by lia. destruct s; reflexivity.
Qed.

(** Components that all [===] [v]: zeros of either sign, or copies of [v]. *)
Lemma all_same values v :
  Forall (fun x => (x =? v)%float = true) values ->
  ((exists s, Prim2SF v = S754_zero s) /\
   Forall (fun x => exists s, Prim2SF x = S754_zero s) values) \/
  values = repeat v (length values).
Proof.
  induction values as [|x values IH]; intros F; [right; reflexivity|].
  inversion F as [|? ? Hx F']; subst.
  destruct (eqb_same x v Hx) as [-> | (s1 & s2 & E1 & E2)].
  - destruct (IH F') as [[Z Fz] | R].
    + left. split; [exact Z|]. constructor; assumption.
    + right. cbn [length repeat]. f_equal. exact R.
  - left. split; [eauto|]. constructor; [eauto|].
    clear -F' E2. induction F' as [|y values Hy _ IH]; constructor; [|exact IH].
    destruct (eqb_same y v Hy) as [-> | (s & _ & E & _)]; eauto.
Qed.

(** The mean of equal binary32 components is not above any of them. *)
Lemma mean_of_equal values v x :
  (1 <= length values)%nat -> Z.of_nat (length values) <= 2 ^ 29 ->
  Forall (fun x => (x =? v)%float = true) values -> is_float32 v = true ->
  In x values -> JS.ge x (arithmetic_mean values) = true.
Proof.
  intros L1 L2 F F32 Hx. unfold JS.ge, arithmetic_mean.
  assert (Xv : (x =? v)%float = true) by (rewrite Forall_forall in F; apply F, Hx).
  pose proof (all_same values v F) as S.
  remember (length values) as k eqn:Ek.
  destruct (of_Z_canonical (Z.of_nat k) ltac:(lia)) as (mh & b & En & Eh & Hb & Bh).
  destruct S as [[[sv Zv] Fz] | R].
  - rewrite leb_spec, FloatAxioms.div_spec, En, (sum_zeros values Fz).
    rewrite Forall_forall in Fz. destruct (Fz x Hx) as [sx ->]. reflexivity.
  - clear Ek F. subst values. apply repeat_spec in Hx. subst x.
    destruct (Prim2SF v) as [sv|sv| |sv m e] eqn:Ev.
    + rewrite leb_spec, FloatAxioms.div_spec, En, Ev.
      rewrite (sum_zeros (repeat v k)); [reflexivity|].
      rewrite Forall_forall. intros y Hy. apply repeat_spec in Hy. subst y. eauto.
    + rewrite leb_spec, FloatAxioms.div_spec, En, Ev, (sum_infinities v sv) by assumption.
      destruct sv; reflexivity.
    + rewrite FloatAxioms.eqb_spec, Ev in Xv. discriminate.
    + destruct (float32_shape v sv m e F32 Ev) as (_ & Bm & Be).
      destruct (sum_repeat v sv m e k Ev F32 L1 L2) as (mk & ek & Es & Bk & Ek & Bmk).
      assert (A : (total (repeat v k) / JS.of_Z (Z.of_nat k))%float = v).
      { apply Prim2SF_inj. rewrite Ev.
        apply (div_exact _ _ v sv mk ek mh b m e Es En Ev); try lia.
        rewrite Z.pow_add_r, Z.mul_assoc, Ek, Eh by lia. ring. }
      rewrite A. apply FloatOrder.leb_refl, FloatOrder.is_nan_false. rewrite Ev. discriminate.
Qed.

(** The hash as a string of bits. *)
Lemma hash_length avg values :
  String.length
    (JS.join (map (fun v => if JS.ge v avg then "1"%string else "0"%string) values)) =
  length values.
Proof.
  unfold JS.join. induction values as [|v values IH]; [reflexivity|].
  cbn [map fold_right length].
  destruct (JS.ge v avg); simpl; f_equal; exact IH.
Qed.

Lemma hash_get avg values (i : nat) :
  (i < length values)%nat ->
  String.get i
    (JS.join (map (fun v => if JS.ge v avg then "1"%string else "0"%string) values)) =
  Some (bit avg (nth i values nan)).
Proof.
  unfold JS.join. revert i. induction values as [|v values IH]; intros i Hi; [simpl in Hi; lia|].
  cbn [map fold_right length] in *.
  assert (E : (if JS.ge v avg then "1"%string else "0"%string) = String (bit avg v) EmptyString)
    by (unfold bit; destruct (JS.ge v avg); reflexivity).
  rewrite E. simpl String.append. destruct i as [|i]; [reflexivity|].
  simpl String.get. simpl nth. apply IH. lia.
Qed.

(** [descriptor.slice(0, bits)] for a non-negative [hashBits]. *)
Lemma slice_bits (descriptor : list float) hashBits :
  0 <= hashBits ->
  JS.slice descriptor 0 (Z.min hashBits (Z.of_nat (length descriptor))) =
  firstn (Nat.min (Z.to_nat hashBits) (length descriptor)) descriptor /\
  Z.min hashBits (Z.of_nat (length descriptor)) =
  Z.of_nat (length (firstn (Nat.min (Z.to_nat hashBits) (length descriptor)) descriptor)).
Proof.
  intros H. rewrite length_firstn. split; [|lia].
  unfold JS.slice. cbn [Z.ltb Z.compare].
  destruct (Z.ltb_spec (Z.min hashBits (Z.of_nat (length descriptor))) 0); [lia|].
  rewrite (Z.min_l 0) by lia. cbn [Z.to_nat skipn]. f_equal. lia.
Qed.

End HashFacts.

(** C4 ([_generateHash]).  For a non-negative [hashBits], the hash of a
    descriptor has [min(hashBits, descriptor.length)] characters; its [i]-th
    character is ["1"] when the [i]-th component is [>=] the mean of the hashed
    components, as the source computes that mean, and ["0"] otherwise; and
    when the components are binary32 numbers that are all equal and at most
    [2 ^ 29] of them are hashed, every character is ["1"]. *)
Theorem generateHash_mean_bits (this : FaceIdentifier) (descriptor : list float) :
  0 <= hashBits (options this) ->
  let H := Nat.min (Z.to_nat (hashBits (options this))) (length descriptor) in
  let hash := _generateHash this descriptor in
  let mean := arithmetic_mean (firstn H descriptor) in
  String.length hash = H /\
  (forall i, (i < H)%nat -> String.get i hash = Some (bit mean (nth i descriptor nan))) /\
  (forallb is_float32 descriptor = true -> all_equal descriptor = true ->
   Z.of_nat H <= 2 ^ 29 ->
   forall i, (i < H)%nat -> String.get i hash = Some "1"%char).
Proof.
  intros Hb H hash mean.
  destruct (HashFacts.slice_bits descriptor _ Hb) as [Sl Bits]. fold H in Sl, Bits.
  assert (LH : length (firstn H descriptor) = H) by (rewrite length_firstn; unfold H; lia).
  assert (E : hash =
              JS.join (map (fun v => if JS.ge v mean then "1"%string else "0"%string)
                         (firstn H descriptor))).
  { unfold hash, _generateHash. cbv zeta. rewrite Sl. unfold mean, arithmetic_mean.
    rewrite <- Bits. reflexivity. }
  assert (G : forall i, (i < H)%nat ->
              String.get i hash = Some (bit mean (nth i descriptor nan))).
  { intros i Hi. rewrite E, HashFacts.hash_get by lia.
    rewrite nth_firstn. destruct (Nat.ltb_spec i H); [reflexivity | lia]. }
  split; [rewrite E, HashFacts.hash_length; exact LH|]. split; [exact G|].
  intros F32 Eq Le i Hi. rewrite (G i Hi). unfold bit.
  assert (V : exists v, is_float32 v = true /\
                        Forall (fun x => (x =? v)%float = true) descriptor).
  { clear -F32 Eq. destruct descriptor as [|v rest]; [exists 0%float; split; [reflexivity | constructor]|].
    exists v. split; [simpl in F32; apply andb_true_iff in F32; tauto|].
    apply Forall_forall. apply forallb_forall. exact Eq. }
  destruct V as (v & Fv & Fa).
  unfold mean.
  rewrite (HashFacts.mean_of_equal (firstn H descriptor) v); try (rewrite LH; lia).
  - reflexivity.
  - apply Forall_take. exact Fa.
  - exact Fv.
  - replace (nth i descriptor nan) with (nth i (firstn H descriptor) nan)
      by (rewrite nth_firstn; destruct (Nat.ltb_spec i H); [reflexivity | lia]).
    apply nth_In. lia.
Qed.

(** Witness of C4: the default engine on a [Float32Array] holding three
    times [0.1]. *)
Lemma generateHash_mean_bits_witness :
  let this := constructor defaultOptions in
  let descriptor := JS.Float32Array [0.1; 0.1; 0.1]%float in
  let hash := _generateHash this descriptor in
  0 <= hashBits (options this) /\
  forallb is_float32 descriptor = true /\ all_equal descriptor = true /\
  String.length hash = 3%nat /\
  (forall i, (i < 3)%nat ->
     String.get i hash =
     Some (bit (arithmetic_mean (firstn 3 descriptor)) (nth i descriptor nan))) /\
  (forall i, (i < 3)%nat -> String.get i hash = Some "1"%char).
Proof.
  cbv zeta.
  assert (Hb : 0 <= hashBits (options (constructor defaultOptions))) by (simpl; lia).
  assert (F : forallb is_float32 (JS.Float32Array [0.1; 0.1; 0.1]%float) = true)
    by (vm_compute; reflexivity).
  assert (A : all_equal (JS.Float32Array [0.1; 0.1; 0.1]%float) = true)
    by (vm_compute; reflexivity).
  destruct (generateHash_mean_bits (constructor defaultOptions)
              (JS.Float32Array [0.1; 0.1; 0.1]%float) Hb) as (L & G & O).
  split; [exact Hb|]. split; [exact F|]. split; [exact A|]. split; [exact L|].
  split; [exact G|]. apply (O F A). simpl. lia.
Defined.

(** Counterexample to C4 as stated.  Three components equal to the binary64
    number [0.1]: their sum rounds up, the mean is above each of them and
    the hash is all zeros.  And with a negative [hashBits], [slice] counts
    from the end of the descriptor: the hash of three components has two
    characters. *)
Lemma hash_of_equal_doubles_counterexample :
  let this := constructor defaultOptions in
  let descriptor := [0.1; 0.1; 0.1]%float in
  (descriptor <> [] /\ all_equal descriptor = true /\
   arithmetic_mean descriptor = 0.10000000000000002%float /\
   _generateHash this descriptor = "000"%string) /\
  (let this :=
     constructor
       {| minConfidence := 0.3; matchThreshold := 0.6; hashBits := -1; padding := 0.2 |} in
   Z.min (hashBits (options this)) 3 = -1 /\
   String.length (_generateHash this [1; 2; 3]%float) = 2%nat).
Proof.
  cbv zeta. split.
  - split; [discriminate|]. split; [reflexivity|]. split; vm_compute; reflexivity.
  - split; vm_compute; reflexivity.
Qed.

(** The hash on small descriptors: bits follow the order of the components,
    zeros of both signs and infinities count as equal components, and a NaN
    component makes every bit ["0"]. *)
Example generateHash_values :
  let this := constructor defaultOptions in
  _generateHash this [1; 2; 3; 4]%float = "0011"%string /\
  _generateHash this [4; 1; 3; 2]%float = "1010"%string /\
  _generateHash this [0; -0; 0]%float = "111"%string /\
  _generateHash this [infinity; infinity]%float = "11"%string /\
  _generateHash this [nan; 1]%float = "00"%string /\
  _generateHash this [] = EmptyString /\
  String.length (_generateHash this (JS.Float32Array (repeat 0.7%float 100))) = 64%nat.
Proof. cbv zeta. repeat split; vm_compute; reflexivity. Qed.

(** * The rest of the class: initialization, registration, batches *)

From Stdlib Require Import DecimalString.

(** ** [initialize] *)

(** The three networks of face-api that [initialize] loads. *)
Inductive Net := tinyFaceDetector | faceLandmark68Net | faceRecognitionNet.

(** What [faceapi.nets.<net>.loadFromUri(uri)] does: it resolves, or it
    rejects with an error whose [message] reads as the given string. *)
Inductive LoadOutcome :=
| Loaded
| LoadFails (message : string).

Definition modelPath : string :=
  "https://raw.githubusercontent.com/justadudewhohacks/face-api.js/master/weights/".

Module Initialization.
(** The completion of the call, the engine after it and the loads that were
    requested, in order. *)
Record t := {
  completion : JS.Completion bool;
  engine : FaceIdentifier;
  requested : list (Net * string)
}.
End Initialization.

(** The [catch] block of [initialize]. *)
Definition load_error (message : string) : JS.Completion bool :=
  JS.Throw ("Face engine failed to load: " ++ message).

(** [initialize()]; the loader stands for face-api and the network. *)
Definition initialize (this : FaceIdentifier) (loadFromUri : Net -> string -> LoadOutcome)
    : Initialization.t :=
  match loadFromUri tinyFaceDetector modelPath with
  | LoadFails message =>
      {| Initialization.completion := load_error message;
         Initialization.engine := this;
         Initialization.requested := [(tinyFaceDetector, modelPath)] |}
  | Loaded =>
      match loadFromUri faceLandmark68Net modelPath with
      | LoadFails message =>
          {| Initialization.completion := load_error message;
             Initialization.engine := this;
             Initialization.requested :=
               [(tinyFaceDetector, modelPath); (faceLandmark68Net, modelPath)] |}
      | Loaded =>
          match loadFromUri faceRecognitionNet modelPath with
          | LoadFails message =>
              {| Initialization.completion := load_error message;
                 Initialization.engine := this;
                 Initialization.requested :=
                   [(tinyFaceDetector, modelPath); (faceLandmark68Net, modelPath);
                    (faceRecognitionNet, modelPath)] |}
          | Loaded =>
              {| Initialization.completion := JS.Return true;
                 Initialization.engine :=
                   {| options := options this; isInitialized := true |};
                 Initialization.requested :=
                   [(tinyFaceDetector, modelPath); (faceLandmark68Net, modelPath);
                    (faceRecognitionNet, modelPath)] |}
          end
      end
  end.

(** ** [registerFace] and [batchRegisterFaces] *)

(** What the host answers: [random i] is the value of the [i]-th call of
    [Math.random()], [now i] of the [i]-th call of [Date.now()] (an integer
    number of milliseconds), and [toString36] is
    [Number.prototype.toString(36)]. *)
Module Host.
Record t := {
  random : nat -> float;
  now : nat -> Z;
  toString36 : float -> string
}.

(** The host after [randoms] calls of [Math.random()] and [clocks] calls of
    [Date.now()]. *)
Definition advance (host : t) (randoms clocks : nat) : t :=
  {| random := fun i => random host (randoms + i);
     now := fun i => now host (clocks + i);
     toString36 := toString36 host |}.
End Host.

(** An integer in a template literal: its decimal digits. *)
Definition Number_toString (z : Z) : string := NilZero.string_of_int (Z.to_int z).

(** The number of [Math.random()] calls that [detectFaces] makes: 128 for a
    synthetic face, none otherwise. *)
Definition detectFaces_random_calls (this : FaceIdentifier) (media : DetectorOutcome) : nat :=
  if negb (isInitialized this) then 0
  else
    match media with
    | DetectorThrows => 128
    | DetectorReturns None => 128
    | DetectorReturns (Some detections) =>
        if (length detections =? 0)%nat then 128 else 0
    end.

(** [registerFace(media)].  The returned object has no [userData] property:
    it reads as [undefined], here the value of [unit]. *)
Definition registerFace (this : FaceIdentifier) (media : DetectorOutcome) (host : Host.t)
    : JS.Completion (FaceRecord.t unit) :=
  match detectFaces this media (Host.random host) with
  | JS.Throw message => JS.Throw message
  | JS.Return [] => JS.Throw "TypeError: face is undefined"
  | JS.Return (face :: _) =>
      let hash := _generateHash this (Face.descriptor face) in
      let faceId :=
        ("face_" ++ Number_toString (Host.now host 0) ++ "_" ++
         substring 2 9
           (Host.toString36 host
              (Host.random host (detectFaces_random_calls this media))))%string in
      JS.Return
        {| FaceRecord.faceId := faceId;
           FaceRecord.descriptor := Face.descriptor face;
           FaceRecord.hash := hash;
           FaceRecord.confidence := Face.confidence face;
           FaceRecord.timestamp := Host.now host 1;
           FaceRecord.userData := tt |}
  end.

(** The calls of [Math.random()] and of [Date.now()] that one [registerFace]
    makes. *)
Definition registerFace_calls (this : FaceIdentifier) (media : DetectorOutcome) : nat * nat :=
  if negb (isInitialized this) then (0, 0)%nat
  else (detectFaces_random_calls this media + 1, 2)%nat.

(** [batchRegisterFaces(mediaArray)]: one entry per element, [null] (here
    [None]) where [registerFace] threw. *)
Fixpoint batchRegisterFaces (this : FaceIdentifier) (mediaArray : list DetectorOutcome)
    (host : Host.t) : list (option (FaceRecord.t unit)) :=
  match mediaArray with
  | [] => []
  | media :: rest =>
      let entry :=
        match registerFace this media host with
        | JS.Return faceData => Some faceData
        | JS.Throw _ => None
        end in
      let '(randoms, clocks) := registerFace_calls this media in
      entry :: batchRegisterFaces this rest (Host.advance host randoms clocks)
  end.

(** * Further properties *)

(** ** The Hamming distance and the prefilter *)

Module HammingFacts.

Lemma spec_sym (hash1 hash2 : string) : hamming_spec hash1 hash2 = hamming_spec hash2 hash1.
Proof.
  revert hash2. induction hash1 as [|c1 rest1 IH]; intros [|c2 rest2];
    cbn [hamming_spec]; try reflexivity.
  rewrite (Ascii.eqb_sym c1 c2), IH. reflexivity.
Qed.

Lemma spec_bound (hash1 hash2 : string) :
  (hamming_spec hash1 hash2 <= Nat.min (String.length hash1) (String.length hash2))%nat.
Proof.
  revert hash2. induction hash1 as [|c1 rest1 IH]; intros [|c2 rest2];
    cbn [hamming_spec String.length Nat.min]; try lia.
  specialize (IH rest2). destruct (Ascii.eqb c1 c2); lia.
Qed.

Lemma spec_zero (hash1 hash2 : string) :
  hamming_spec hash1 hash2 = 0%nat <->
  forall i, (i < Nat.min (String.length hash1) (String.length hash2))%nat ->
            String.get i hash1 = String.get i hash2.
Proof.
  revert hash2. induction hash1 as [|c1 rest1 IH]; intros [|c2 rest2];
    cbn [hamming_spec String.length Nat.min]; try (split; [intros _ i Hi; lia | reflexivity]).
  split.
  - intros H. destruct (Ascii.eqb_spec c1 c2) as [->|]; [|simpl in H; lia].
    intros [|i] Hi; [reflexivity|]. cbn [String.get]. apply IH; [exact H | lia].
  - intros H. pose proof (H 0%nat ltac:(lia)) as H0. cbn [String.get] in H0.
    injection H0 as ->. rewrite Ascii.eqb_refl. cbn [Nat.add]. apply IH.
    intros i Hi. apply (H (S i)). lia.
Qed.

Lemma spec_triangle (hash1 hash2 hash3 : string) :
  (Nat.min (String.length hash1) (String.length hash3) <= String.length hash2)%nat ->
  (hamming_spec hash1 hash3 <= hamming_spec hash1 hash2 + hamming_spec hash2 hash3)%nat.
Proof.
  revert hash2 hash3. induction hash1 as [|c1 rest1 IH]; intros [|c2 rest2] [|c3 rest3];
    cbn [hamming_spec String.length Nat.min]; try lia.
  intros L. specialize (IH rest2 rest3 ltac:(lia)).
  destruct (Ascii.eqb_spec c1 c3), (Ascii.eqb_spec c1 c2), (Ascii.eqb_spec c2 c3);
    try lia; congruence.
Qed.

End HammingFacts.

(** [_hammingDistance] does not depend on the order of its arguments. *)
Theorem hammingDistance_symmetric (hash1 hash2 : string) :
  _hammingDistance hash1 hash2 = _hammingDistance hash2 hash1.
Proof. rewrite !hammingDistance_spec. apply HammingFacts.spec_sym. Qed.

(** [_hammingDistance] is at most the length of the shorter hash, and it is
    [0] exactly when the two hashes agree on every position both have; so a
    hash is at distance [0] from itself, from each of its prefixes and from
    the empty hash. *)
Theorem hammingDistance_zero_on_common_prefix (hash1 hash2 : string) :
  (_hammingDistance hash1 hash2 <= Nat.min (String.length hash1) (String.length hash2))%nat /\
  (_hammingDistance hash1 hash2 = 0%nat <->
   forall i, (i < Nat.min (String.length hash1) (String.length hash2))%nat ->
             String.get i hash1 = String.get i hash2) /\
  _hammingDistance hash1 hash1 = 0%nat /\
  _hammingDistance hash1 (hash1 ++ hash2) = 0%nat /\
  _hammingDistance EmptyString hash2 = 0%nat.
Proof.
  rewrite !hammingDistance_spec.
  split; [apply HammingFacts.spec_bound|]. split; [apply HammingFacts.spec_zero|].
  split; [|split].
  - apply HammingFacts.spec_zero. reflexivity.
  - apply HammingFacts.spec_zero. intros i Hi. apply append_correct1. lia.
  - reflexivity.
Qed.

(** The triangle inequality holds when the middle hash is at least as long
    as the shorter of the two others, as for hashes of one length. *)
Theorem hammingDistance_triangle (hash1 hash2 hash3 : string) :
  (Nat.min (String.length hash1) (String.length hash3) <= String.length hash2)%nat ->
  (_hammingDistance hash1 hash3 <=
   _hammingDistance hash1 hash2 + _hammingDistance hash2 hash3)%nat.
Proof. rewrite !hammingDistance_spec. apply HammingFacts.spec_triangle. Qed.

Lemma hammingDistance_triangle_witness :
  (Nat.min (String.length "0011") (String.length "1111") <= String.length "0111")%nat /\
  (_hammingDistance "0011" "1111" <=
   _hammingDistance "0011" "0111" + _hammingDistance "0111" "1111")%nat.
Proof.
  split; [simpl; lia|]. apply (hammingDistance_triangle "0011" "0111" "1111"). simpl. lia.
Defined.

(** Across lengths the inequality is lost: a short hash is close to
    everything. *)
Example hammingDistance_short_hash :
  _hammingDistance "0000" "1111" = 4%nat /\
  _hammingDistance "0000" "0" = 0%nat /\ _hammingDistance "0" "0111" = 0%nat.
Proof. repeat split. Qed.

(** [_filterByHash] only drops records: the result is a subsequence of the
    collection, in the same order; and filtering the result again with the
    same hash changes nothing. *)
Theorem filterByHash_subsequence_idempotent {UserData : Type}
    (storedFaces : list (FaceRecord.t UserData)) (queryHash : string) (threshold : Z) :
  sublist (_filterByHash storedFaces queryHash threshold) storedFaces /\
  _filterByHash (_filterByHash storedFaces queryHash threshold) queryHash threshold =
  _filterByHash storedFaces queryHash threshold.
Proof.
  assert (S : forall (f : FaceRecord.t UserData -> bool) l, sublist (List.filter f l) l).
  { intros f l. induction l as [|c l IH]; cbn [List.filter]; [constructor|].
    destruct (f c); constructor; exact IH. }
  assert (I : forall (f : FaceRecord.t UserData -> bool) l,
            List.filter f (List.filter f l) = List.filter f l).
  { intros f l. induction l as [|c l IH]; cbn [List.filter]; [reflexivity|].
    destruct (f c) eqn:E; [cbn [List.filter]; rewrite E, IH; reflexivity | exact IH]. }
  unfold _filterByHash. destruct (length storedFaces <=? 1000)%nat eqn:E.
  - split; [reflexivity | rewrite E; reflexivity].
  - split; [apply S|]. destruct (length (List.filter _ storedFaces) <=? 1000)%nat;
      [reflexivity | apply I].
Qed.

(** ** NaN in sums, products and quotients *)

Module NaN.

Lemma add_l x y : is_nan x = true -> is_nan (x + y) = true.
Proof.
  rewrite !FloatOrder.is_nan_spec, add_spec. intros ->. reflexivity.
Qed.

Lemma add_r x y : is_nan y = true -> is_nan (x + y) = true.
Proof.
  rewrite !FloatOrder.is_nan_spec, add_spec. intros ->.
  destruct (Prim2SF x); reflexivity.
Qed.

Lemma mul_self x : is_nan x = true -> is_nan (x * x) = true.
Proof.
  rewrite !FloatOrder.is_nan_spec, mul_spec. intros ->. reflexivity.
Qed.

Lemma div_l x y : is_nan x = true -> is_nan (x / y) = true.
Proof.
  rewrite !FloatOrder.is_nan_spec, FloatAxioms.div_spec. intros ->. reflexivity.
Qed.

Lemma sqrt_nan x : is_nan x = true -> is_nan (JS.Math_sqrt x) = true.
Proof.
  unfold JS.Math_sqrt. rewrite !FloatOrder.is_nan_spec, sqrt_spec. intros ->. reflexivity.
Qed.

Lemma falsy x : is_nan x = true -> JS.truthy x = false.
Proof. unfold JS.truthy. intros ->. reflexivity. Qed.

(** A sum that meets a NaN term is NaN. *)
Lemma fold_acc {A : Type} (term : A -> float) (l : list A) (acc : float) :
  is_nan acc = true ->
  is_nan (fold_left (fun a x => (a + term x)%float) l acc) = true.
Proof.
  revert acc. induction l as [|x l IH]; intros acc H; cbn [fold_left]; [exact H|].
  apply IH, add_l, H.
Qed.

Lemma fold_term {A : Type} (term : A -> float) (l : list A) (acc : float) :
  Exists (fun x => is_nan (term x) = true) l ->
  is_nan (fold_left (fun a x => (a + term x)%float) l acc) = true.
Proof.
  intros E. revert acc. induction E as [x l H | x l _ IH]; intros acc; cbn [fold_left].
  - apply fold_acc, add_r, H.
  - apply IH.
Qed.

End NaN.

(** ** The hash: alphabet, NaN and the components it reads *)

Module HashShape.

(** The hash as the source builds it, for a non-negative [hashBits]. *)
Lemma unfold_hash (this : FaceIdentifier) (descriptor : list float) :
  0 <= hashBits (options this) ->
  let H := Nat.min (Z.to_nat (hashBits (options this))) (length descriptor) in
  let values := firstn H descriptor in
  _generateHash this descriptor =
  JS.join
    (map (fun v => if JS.ge v (arithmetic_mean values) then "1"%string else "0"%string)
       values).
Proof.
  intros Hb H values.
  destruct (HashFacts.slice_bits descriptor _ Hb) as [Sl Bits]. fold H in Sl, Bits.
  unfold _generateHash. cbv zeta. rewrite Sl. unfold arithmetic_mean, values.
  rewrite <- Bits. reflexivity.
Qed.

Lemma get_lt (s : string) (i : nat) (c : ascii) :
  String.get i s = Some c -> (i < String.length s)%nat.
Proof.
  revert i. induction s as [|c' s IH]; intros [|i]; cbn [String.get String.length];
    try discriminate; [lia|]. intros H. apply IH in H. lia.
Qed.

Lemma slice_length {A : Type} (arr : list A) (start end_ : Z) :
  (length (JS.slice arr start end_) <= length arr)%nat.
Proof.
  unfold JS.slice. rewrite length_firstn, length_skipn. lia.
Qed.

End HashShape.

(** Whatever [hashBits] is, a hash is a string of the characters ["0"] and
    ["1"], with no more characters than the descriptor has components. *)
Theorem generateHash_binary_string (this : FaceIdentifier) (descriptor : list float) :
  (String.length (_generateHash this descriptor) <= length descriptor)%nat /\
  forall i c, String.get i (_generateHash this descriptor) = Some c ->
              c = "0"%char \/ c = "1"%char.
Proof.
  unfold _generateHash. cbv zeta.
  set (values := JS.slice descriptor 0 _). set (avg := (_ / _)%float).
  split.
  - rewrite HashFacts.hash_length. apply HashShape.slice_length.
  - intros i c G. pose proof (HashShape.get_lt _ _ _ G) as L.
    rewrite HashFacts.hash_length in L. rewrite HashFacts.hash_get in G by exact L.
    injection G as <-. unfold bit. destruct (JS.ge _ avg); auto.
Qed.

(** One NaN among the hashed components turns the whole hash into zeros:
    the mean is NaN and no component is [>=] NaN. *)
Theorem generateHash_nan_component (this : FaceIdentifier) (descriptor : list float) :
  0 <= hashBits (options this) ->
  let H := Nat.min (Z.to_nat (hashBits (options this))) (length descriptor) in
  Exists (fun v => is_nan v = true) (firstn H descriptor) ->
  String.length (_generateHash this descriptor) = H /\
  forall i, (i < H)%nat -> String.get i (_generateHash this descriptor) = Some "0"%char.
Proof.
  intros Hb H E. rewrite (HashShape.unfold_hash this descriptor Hb). cbv zeta. fold H.
  assert (LH : length (firstn H descriptor) = H) by (rewrite length_firstn; unfold H; lia).
  assert (N : is_nan (arithmetic_mean (firstn H descriptor)) = true).
  { unfold arithmetic_mean. apply NaN.div_l.
    apply (NaN.fold_term (fun v => v)). exact E. }
  split; [rewrite HashFacts.hash_length; exact LH|].
  intros i Hi. rewrite HashFacts.hash_get by lia. unfold bit, JS.ge.
  rewrite (FloatOrder.leb_nan_l _ _ N). reflexivity.
Qed.

Lemma generateHash_nan_component_witness :
  let this := constructor defaultOptions in
  let descriptor := [0.5; nan; 0.25]%float in
  0 <= hashBits (options this) /\
  Exists (fun v => is_nan v = true) (firstn 3 descriptor) /\
  String.length (_generateHash this descriptor) = 3%nat /\
  forall i, (i < 3)%nat -> String.get i (_generateHash this descriptor) = Some "0"%char.
Proof.
  cbv zeta.
  assert (Hb : 0 <= hashBits (options (constructor defaultOptions))) by (simpl; lia).
  assert (E : Exists (fun v => is_nan v = true) (firstn 3 [0.5; nan; 0.25]%float))
    by (right; left; reflexivity).
  split; [exact Hb|]. split; [exact E|].
  exact (generateHash_nan_component (constructor defaultOptions) [0.5; nan; 0.25]%float Hb E).
Defined.

(** The hash reads the first [hashBits] components only: what follows them
    in the descriptor has no effect. *)
Theorem generateHash_ignores_tail (this : FaceIdentifier) (descriptor extra : list float) :
  0 <= hashBits (options this) <= Z.of_nat (length descriptor) ->
  _generateHash this (descriptor ++ extra) = _generateHash this descriptor.
Proof.
  intros [Hb Hl].
  rewrite (HashShape.unfold_hash this (descriptor ++ extra) Hb).
  rewrite (HashShape.unfold_hash this descriptor Hb). cbv zeta.
  rewrite length_app.
  replace (Nat.min (Z.to_nat (hashBits (options this))) (length descriptor + length extra))
    with (Z.to_nat (hashBits (options this))) by lia.
  replace (Nat.min (Z.to_nat (hashBits (options this))) (length descriptor))
    with (Z.to_nat (hashBits (options this))) by lia.
  rewrite firstn_app.
  replace (Z.to_nat (hashBits (options this)) - length descriptor)%nat with 0%nat by lia.
  cbn [firstn]. rewrite app_nil_r. reflexivity.
Qed.

Lemma generateHash_ignores_tail_witness :
  let this := constructor {| minConfidence := 0.3; matchThreshold := 0.6;
                             hashBits := 2; padding := 0.2 |} in
  0 <= hashBits (options this) <= Z.of_nat (length [1; 3]%float) /\
  _generateHash this ([1; 3] ++ [100; 200])%float = _generateHash this [1; 3]%float.
Proof.
  cbv zeta. split; [simpl; lia|].
  apply (generateHash_ignores_tail _ [1; 3]%float [100; 200]%float). simpl. lia.
Defined.

(** ** Cosine similarity and verification: symmetry and NaN *)

Module CosineFacts.

Lemma mul_comm (x y : float) : (x * y)%float = (y * x)%float.
Proof.
  apply Prim2SF_inj. rewrite !mul_spec. unfold SF64mul.
  destruct (Prim2SF x) as [sx|sx| |sx mx ex], (Prim2SF y) as [sy|sy| |sy my ey];
    cbn [SFmul]; rewrite ?(xorb_comm sx sy); try reflexivity.
  rewrite (Pos.mul_comm mx my), (Z.add_comm ex ey). reflexivity.
Qed.

Lemma dot_product_comm (a b : list float) : dot_product a b = dot_product b a.
Proof.
  unfold dot_product. generalize 0%float as acc. revert b.
  induction a as [|x a IH]; intros [|y b] acc; cbn [combine fold_left fst snd];
    try reflexivity.
  rewrite (mul_comm x y). apply IH.
Qed.

Lemma clamped_cosine_comm (a b : list float) : clamped_cosine a b = clamped_cosine b a.
Proof.
  unfold clamped_cosine. rewrite (Nat.min_comm (length b) (length a)).
  rewrite (andb_comm (JS.truthy (partial_norm _ b))), (dot_product_comm b a).
  rewrite (mul_comm (partial_norm _ b)). reflexivity.
Qed.

Lemma partial_norm_nan (n : nat) (a : list float) :
  Exists (fun v => is_nan v = true) (firstn n a) ->
  JS.truthy (partial_norm n a) = false.
Proof.
  intros E. apply NaN.falsy, NaN.sqrt_nan. unfold sum_squares.
  apply (NaN.fold_term (fun x => (x * x)%float)).
  eapply Exists_impl; [|exact E]. intros v. apply NaN.mul_self.
Qed.

Lemma cosineSimilarity_comm (desc1 desc2 : list float) :
  _cosineSimilarity desc1 desc2 = _cosineSimilarity desc2 desc1.
Proof. rewrite !cosineSimilarity_spec. apply clamped_cosine_comm. Qed.

End CosineFacts.

(** [_cosineSimilarity] does not depend on the order of its arguments: the
    products and the guard are the same numbers either way. *)
Theorem cosineSimilarity_symmetric (desc1 desc2 : list float) :
  _cosineSimilarity desc1 desc2 = _cosineSimilarity desc2 desc1.
Proof.
  rewrite !cosineSimilarity_spec. unfold clamped_cosine.
  rewrite (Nat.min_comm (length desc2) (length desc1)).
  rewrite (andb_comm (JS.truthy (partial_norm _ desc2))).
  rewrite (CosineFacts.dot_product_comm desc2 desc1).
  rewrite (CosineFacts.mul_comm (partial_norm _ desc2)). reflexivity.
Qed.

(** The similarity with an empty descriptor is [0], and so is the similarity
    of two descriptors one of which has a NaN among the components that are
    compared: the norm is NaN, the guard fails and no NaN is returned. *)
Theorem cosineSimilarity_degenerate (desc1 desc2 : list float) :
  _cosineSimilarity [] desc2 = 0%float /\ _cosineSimilarity desc1 [] = 0%float /\
  (let n := Nat.min (length desc1) (length desc2) in
   Exists (fun v => is_nan v = true) (firstn n desc1) \/
   Exists (fun v => is_nan v = true) (firstn n desc2) ->
   _cosineSimilarity desc1 desc2 = 0%float).
Proof.
  split; [reflexivity|]. split.
  - rewrite cosineSimilarity_spec, CosineFacts.clamped_cosine_comm. reflexivity.
  - cbv zeta. rewrite cosineSimilarity_spec. unfold clamped_cosine.
    intros [E | E]; rewrite (CosineFacts.partial_norm_nan _ _ E);
      [reflexivity | rewrite andb_false_r; reflexivity].
Qed.

Lemma cosineSimilarity_degenerate_witness :
  let desc1 := [1; nan; 3]%float in
  let desc2 := [1; 2]%float in
  (Exists (fun v => is_nan v = true) (firstn 2 desc1) \/
   Exists (fun v => is_nan v = true) (firstn 2 desc2)) /\
  _cosineSimilarity desc1 desc2 = 0%float.
Proof.
  cbv zeta.
  assert (E : Exists (fun v => is_nan v = true) (firstn 2 [1; nan; 3]%float) \/
              Exists (fun v => is_nan v = true) (firstn 2 [1; 2]%float))
    by (left; right; left; reflexivity).
  split; [exact E|].
  destruct (cosineSimilarity_degenerate [1; nan; 3]%float [1; 2]%float) as (_ & _ & H).
  exact (H E).
Defined.

(** [verifyFaces] gives the same answer for the two orders of its
    arguments. *)
Theorem verifyFaces_symmetric {UserData : Type} (this : FaceIdentifier)
    (faceData1 faceData2 : FaceRecord.t UserData) :
  verifyFaces this faceData1 faceData2 = verifyFaces this faceData2 faceData1.
Proof.
  unfold verifyFaces.
  rewrite (CosineFacts.cosineSimilarity_comm
             (JS.Float32Array (FaceRecord.descriptor faceData1))).
  reflexivity.
Qed.

(** ** [detectFaces] and [identifyFace]: errors, threshold, best match *)

(** The detections the external detector returned, none when it threw or
    returned [null]. *)
Definition detections_of (media : DetectorOutcome) : list Detection.t :=
  match media with
  | DetectorReturns (Some detections) => detections
  | _ => []
  end.

Module IdentifyFacts.
Import FloatOrder.

Section Loops.
Context {UserData : Type}.
Variable currentFace : Face.t.

Abbreviation sc := (score (UserData := UserData) currentFace).
Abbreviation mk := (fun c : FaceRecord.t UserData => mkMatch c (sc c)).

(** Two engines that differ in [matchThreshold] only, run on the same
    candidates: a best match under the higher threshold is the best match
    under the lower one. *)
Lemma loop_lockstep (this1 this2 : FaceIdentifier) (cs : list (FaceRecord.t UserData)) :
  (matchThreshold (options this1) <=? matchThreshold (options this2))%float = true ->
  forall bm1 bm2 b ms1 ms2,
    (forall m, bm2 = Some m ->
       Match.similarity m = b /\ (matchThreshold (options this2) <=? b)%float = true /\
       bm1 = Some m) ->
    forall m,
      fst (fst (fold_left (identify_step this2 currentFace) cs (bm2, b, ms2))) = Some m ->
      fst (fst (fold_left (identify_step this1 currentFace) cs (bm1, b, ms1))) = Some m.
Proof.
  intros T. induction cs as [|c cs IH]; intros bm1 bm2 b ms1 ms2 I m; cbn [fold_left].
  - cbn. intros H. apply I, H.
  - rewrite !Matcher.step_eq. apply IH. intros m'.
    destruct (b <? sc c)%float eqn:E; [|apply I].
    destruct (matchThreshold (options this2) <=? sc c)%float eqn:T2.
    + intros [= <-]. rewrite (leb_trans _ _ _ T T2). repeat split.
    + intros Hm. destruct (I m' Hm) as (_ & Tb & _). exfalso.
      assert ((matchThreshold (options this2) <=? sc c)%float = true); [|congruence].
      apply ltb_leb. eapply leb_ltb_trans; eassumption.
Qed.

(** A best match is positive and is the match of one of the candidates. *)
Lemma loop_best_origin (this : FaceIdentifier) (all cs : list (FaceRecord.t UserData)) :
  incl cs all ->
  forall bm b ms,
    (0 <=? b)%float = true ->
    (forall m, bm = Some m ->
       (0 <? Match.similarity m)%float = true /\ exists c, In c all /\ m = mk c) ->
    forall m,
      fst (fst (fold_left (identify_step this currentFace) cs (bm, b, ms))) = Some m ->
      (0 <? Match.similarity m)%float = true /\ exists c, In c all /\ m = mk c.
Proof.
  induction cs as [|c cs IH]; intros Hin bm b ms B I m; cbn [fold_left].
  - cbn. apply I.
  - rewrite Matcher.step_eq.
    assert (Hc : In c all) by (apply Hin; left; reflexivity).
    assert (Hcs : incl cs all) by (intros x Hx; apply Hin; right; exact Hx).
    apply (IH Hcs).
    + destruct (b <? sc c)%float eqn:E; [|exact B].
      apply ltb_leb. eapply leb_ltb_trans; eassumption.
    + intros m'. destruct (b <? sc c)%float eqn:E; [|apply I].
      destruct (matchThreshold (options this) <=? sc c)%float; [|apply I].
      intros [= <-]. split; [|exists c; split; [exact Hc | reflexivity]].
      cbn [mkMatch Match.similarity]. eapply leb_ltb_trans; eassumption.
Qed.

End Loops.
End IdentifyFacts.

(** On an initialized engine [detectFaces] returns, whatever the detector
    did.  With detections it returns one face per detection in the
    detector's order, with the detection's descriptor and box, and with its
    score as confidence unless the score is [0] or NaN, which is replaced by
    [0.5].  Without a detection it returns the one synthetic face, of
    confidence [0.8].  So no face has a confidence of [0] or NaN. *)
Theorem detectFaces_faces (this : FaceIdentifier) (media : DetectorOutcome)
    (random : nat -> float) :
  isInitialized this = true ->
  exists faces,
    detectFaces this media random = JS.Return faces /\
    length faces = Nat.max 1 (length (detections_of media)) /\
    (detections_of media <> [] ->
     map Face.descriptor faces = map Detection.descriptor (detections_of media) /\
     map Face.box faces = map Detection.box (detections_of media) /\
     map Face.confidence faces =
       map (fun det =>
              if (is_nan (Detection.score det) || is_zero (Detection.score det))%bool
              then 0.5%float else Detection.score det)
         (detections_of media)) /\
    (detections_of media = [] ->
     faces = [_createSyntheticFace random] /\ map Face.confidence faces = [0.8%float]) /\
    Forall (fun face => is_nan (Face.confidence face) = false /\
                        is_zero (Face.confidence face) = false) faces.
Proof.
  intros I. unfold detectFaces. rewrite I. cbn [negb].
  assert (S : is_nan (Face.confidence (_createSyntheticFace random)) = false /\
              is_zero (Face.confidence (_createSyntheticFace random)) = false)
    by (split; reflexivity).
  destruct media as [|[[|det detections]|]]; cbn [detections_of length Nat.eqb];
    try (eexists; split; [reflexivity|]; split; [reflexivity|];
         split; [congruence|]; split; [split; reflexivity|];
         constructor; [exact S | constructor]).
  eexists. split; [reflexivity|]. rewrite length_map. split; [cbn [length]; lia|].
  split; [|split; [discriminate|]].
  - intros _. rewrite !map_map. cbn [Face.descriptor Face.box Face.confidence].
    split; [reflexivity|]. split; [reflexivity|].
    apply map_ext. intros d. unfold JS.truthy.
    destruct (is_nan (Detection.score d) || is_zero (Detection.score d))%bool; reflexivity.
  - apply Forall_forall. intros face Hf. apply in_map_iff in Hf.
    destruct Hf as (d & <- & _). cbn [Face.confidence]. unfold JS.truthy.
    destruct (is_nan (Detection.score d)) eqn:N; cbn [orb negb]; [split; reflexivity|].
    destruct (is_zero (Detection.score d)) eqn:Z; cbn [negb]; [split; reflexivity|].
    split; assumption.
Qed.

Lemma detectFaces_faces_witness :
  let this := Examples.engine 0.6 in
  let detection score :=
    {| Detection.descriptor := [1; 0]%float; Detection.box := Examples.box0;
       Detection.score := score |} in
  let media := DetectorReturns (Some [detection 0%float; detection 0.9%float;
                                      detection nan]) in
  isInitialized this = true /\ detections_of media <> [] /\
  exists faces,
    detectFaces this media Examples.random_half = JS.Return faces /\
    length faces = 3%nat /\
    map Face.confidence faces = [0.5; 0.9; 0.5]%float /\
    Forall (fun face => is_nan (Face.confidence face) = false /\
                        is_zero (Face.confidence face) = false) faces.
Proof.
  cbv zeta. split; [reflexivity|]. split; [discriminate|].
  destruct (detectFaces_faces (Examples.engine 0.6)
              (DetectorReturns
                 (Some [{| Detection.descriptor := [1; 0]%float;
                           Detection.box := Examples.box0; Detection.score := 0 |};
                        {| Detection.descriptor := [1; 0]%float;
                           Detection.box := Examples.box0; Detection.score := 0.9 |};
                        {| Detection.descriptor := [1; 0]%float;
                           Detection.box := Examples.box0; Detection.score := nan |}]))
              Examples.random_half eq_refl) as (faces & D & L & G & _ & C).
  destruct (G ltac:(discriminate)) as (_ & _ & Cf).
  exists faces. split; [exact D|]. split; [exact L|]. split; [exact Cf | exact C].
Defined.

(** [identifyFace] throws in one case only: a non-empty collection on an
    engine that is not initialized; the error is that of [detectFaces].  An
    empty collection is answered before the engine is looked at. *)
Theorem identifyFace_throws_iff {UserData : Type} (this : FaceIdentifier)
    (media : DetectorOutcome) (random : nat -> float)
    (storedFaces : list (FaceRecord.t UserData)) :
  ((exists message, identifyFace this media random storedFaces = JS.Throw message) <->
   storedFaces <> [] /\ isInitialized this = false) /\
  (forall message, identifyFace this media random storedFaces = JS.Throw message ->
                   message = "Initialize engine first"%string) /\
  (storedFaces = [] ->
   exists r, identifyFace this media random storedFaces = JS.Return r /\
             Identification.matchFound r = false /\ Identification.candidates r = []).
Proof.
  destruct storedFaces as [|c storedFaces].
  - cbn. split; [split; [intros [? ?]; discriminate | intros [? _]; congruence]|].
    split; [discriminate|]. intros _. eexists. repeat split.
  - destruct (isInitialized this) eqn:I.
    + destruct (identifyFace_returns this media random (c :: storedFaces) I ltac:(discriminate))
        as (face & others & _ & R).
      rewrite R. split; [split; [intros [? ?]; discriminate | intros [_ ?]; discriminate]|].
      split; [discriminate | discriminate].
    + assert (T : identifyFace this media random (c :: storedFaces) =
                  JS.Throw "Initialize engine first").
      { unfold identifyFace, detectFaces. rewrite I. reflexivity. }
      rewrite T. split; [split; [intros _; split; [discriminate | reflexivity] | eauto]|].
      split; [intros ? [= <-]; reflexivity | discriminate].
Qed.

Module IdentifyShape.
Section Shape.
Context {UserData : Type}.

Lemma detectFaces_with_threshold (this : FaceIdentifier) (threshold : float)
    (media : DetectorOutcome) (random : nat -> float) :
  detectFaces (with_threshold this threshold) media random = detectFaces this media random.
Proof. reflexivity. Qed.

Lemma identify_currentFace (this : FaceIdentifier) (currentFace : Face.t)
    (storedFaces : list (FaceRecord.t UserData)) :
  Identification.currentFace (identify this currentFace storedFaces) =
  Some {| CurrentFace.descriptor := Face.descriptor currentFace;
          CurrentFace.hash := _generateHash this (Face.descriptor currentFace);
          CurrentFace.confidence := Face.confidence currentFace |}.
Proof. unfold identify. destruct (fold_left _ _ _) as [[bm b] ms]. reflexivity. Qed.

Lemma survivors_incl (this : FaceIdentifier) (currentFace : Face.t)
    (storedFaces : list (FaceRecord.t UserData)) :
  incl (survivors this currentFace storedFaces) storedFaces.
Proof.
  unfold survivors, _filterByHash. destruct (_ <=? _)%nat; [apply incl_refl|].
  intros c Hc. apply filter_In in Hc. tauto.
Qed.

End Shape.
End IdentifyShape.

(** [matchThreshold] gates [bestMatch] and [matchFound] and nothing else:
    two engines that differ in it only return the same [similarity],
    [candidates] and [currentFace], or throw the same error. *)
Theorem identifyFace_threshold_only_gates {UserData : Type} (this : FaceIdentifier)
    (media : DetectorOutcome) (random : nat -> float)
    (storedFaces : list (FaceRecord.t UserData)) (threshold1 threshold2 : float) :
  match identifyFace (with_threshold this threshold1) media random storedFaces,
        identifyFace (with_threshold this threshold2) media random storedFaces with
  | JS.Return r1, JS.Return r2 =>
      Identification.similarity r1 = Identification.similarity r2 /\
      Identification.candidates r1 = Identification.candidates r2 /\
      Identification.currentFace r1 = Identification.currentFace r2
  | JS.Throw message1, JS.Throw message2 => message1 = message2
  | _, _ => False
  end.
Proof.
  unfold identifyFace. rewrite !IdentifyShape.detectFaces_with_threshold.
  destruct (length storedFaces =? 0)%nat; [repeat split|].
  destruct (detectFaces this media random) as [[|face others]|message]; try reflexivity.
  destruct (identify_fields (with_threshold this threshold1) face storedFaces)
    as (_ & S1 & C1 & _).
  destruct (identify_fields (with_threshold this threshold2) face storedFaces)
    as (_ & S2 & C2 & _).
  cbv zeta in *. rewrite S1, S2, C1, C2, !IdentifyShape.identify_currentFace.
  split; [|split; reflexivity].
  f_equal. apply loop_best_independent.
Qed.

(** Lowering [matchThreshold] never loses a match: the best match found
    under a threshold is the best match under every lower threshold. *)
Theorem identifyFace_threshold_monotone {UserData : Type} (this : FaceIdentifier)
    (media : DetectorOutcome) (random : nat -> float)
    (storedFaces : list (FaceRecord.t UserData)) (lower higher : float) :
  (lower <=? higher)%float = true ->
  match identifyFace (with_threshold this higher) media random storedFaces,
        identifyFace (with_threshold this lower) media random storedFaces with
  | JS.Return r2, JS.Return r1 =>
      match Identification.bestMatch r2 with
      | Some m =>
          Identification.matchFound r2 = true /\
          Identification.bestMatch r1 = Some m /\ Identification.matchFound r1 = true
      | None => Identification.matchFound r2 = false
      end
  | JS.Throw message2, JS.Throw message1 => message1 = message2
  | _, _ => False
  end.
Proof.
  intros T. unfold identifyFace. rewrite !IdentifyShape.detectFaces_with_threshold.
  destruct (length storedFaces =? 0)%nat; [reflexivity|].
  destruct (detectFaces this media random) as [[|face others]|message]; try reflexivity.
  destruct (identify_fields (with_threshold this higher) face storedFaces)
    as (B2 & _ & _ & F2).
  destruct (identify_fields (with_threshold this lower) face storedFaces)
    as (B1 & _ & _ & F1).
  cbv zeta in *. rewrite F2, F1, B2, B1. clear F2 F1 B2 B1.
  change (survivors (with_threshold this lower) face storedFaces)
    with (survivors (with_threshold this higher) face storedFaces).
  destruct (fst (fst (fold_left (identify_step (with_threshold this higher) face)
                        (survivors (with_threshold this higher) face storedFaces)
                        (None, 0%float, [])))) as [m|] eqn:E; [|reflexivity].
  rewrite (IdentifyFacts.loop_lockstep face (with_threshold this lower)
             (with_threshold this higher) _ T None None 0%float [] []
             ltac:(discriminate) m E).
  repeat split.
Qed.

Lemma identifyFace_threshold_monotone_witness :
  let this := Examples.engine 0.6 in
  let media := Examples.seen [1; 0]%float in
  (0.5 <=? 0.9)%float = true /\
  match identifyFace (with_threshold this 0.9) media Examples.random_half Examples.three_faces,
        identifyFace (with_threshold this 0.5) media Examples.random_half Examples.three_faces
  with
  | JS.Return r2, JS.Return r1 =>
      match Identification.bestMatch r2 with
      | Some m =>
          Identification.matchFound r2 = true /\
          Identification.bestMatch r1 = Some m /\ Identification.matchFound r1 = true
      | None => Identification.matchFound r2 = false
      end
  | JS.Throw message2, JS.Throw message1 => message1 = message2
  | _, _ => False
  end.
Proof.
  cbv zeta. split; [reflexivity|].
  exact (identifyFace_threshold_monotone (Examples.engine 0.6) (Examples.seen [1; 0]%float)
           Examples.random_half Examples.three_faces 0.5 0.9 eq_refl).
Defined.

(** A best match is sound: its similarity is the [similarity] of the result,
    it is positive and at least [matchThreshold], and its [faceId] and
    [data] are those of one of the stored faces; without a best match
    [matchFound] is false.  This holds also when some similarity is NaN. *)
Theorem identifyFace_best_match_sound {UserData : Type} (this : FaceIdentifier)
    (media : DetectorOutcome) (random : nat -> float)
    (storedFaces : list (FaceRecord.t UserData)) :
  match identifyFace this media random storedFaces with
  | JS.Return r =>
      match Identification.bestMatch r with
      | Some m =>
          Identification.matchFound r = true /\
          Identification.similarity r = Some (Match.similarity m) /\
          (matchThreshold (options this) <=? Match.similarity m)%float = true /\
          (0 <? Match.similarity m)%float = true /\
          exists c, In c storedFaces /\ Match.faceId m = FaceRecord.faceId c /\
                    Match.data m = FaceRecord.userData c
      | None => Identification.matchFound r = false
      end
  | JS.Throw _ => True
  end.
Proof.
  unfold identifyFace. destruct (length storedFaces =? 0)%nat; [reflexivity|].
  destruct (detectFaces this media random) as [[|face others]|message]; try exact I.
  destruct (identify_fields this face storedFaces) as (B & S & _ & F).
  cbv zeta in *. rewrite F, S, B. clear F S B.
  destruct (fst (fst (fold_left (identify_step this face) (survivors this face storedFaces)
                        (None, 0%float, [])))) as [m|] eqn:B; [|reflexivity].
  destruct (Matcher.loop_best_sim this face (survivors this face storedFaces)
              None 0%float [] ltac:(discriminate) m B) as [Sm Tm].
  destruct (IdentifyFacts.loop_best_origin face this (survivors this face storedFaces)
              (survivors this face storedFaces) (incl_refl _) None 0%float []
              eq_refl ltac:(discriminate) m B) as (Pm & c & Hc & ->).
  split; [reflexivity|]. split; [rewrite <- Sm; reflexivity|]. split; [rewrite Sm; exact Tm|].
  split; [exact Pm|]. exists c. split; [|split; reflexivity].
  apply (IdentifyShape.survivors_incl this face storedFaces), Hc.
Qed.

(** The three stored faces of the examples under two thresholds. *)
Example identifyFace_thresholds :
  let media := Examples.seen [1; 0]%float in
  let at_ t := identifyFace (Examples.engine t) media Examples.random_half
                 Examples.three_faces in
  match at_ 0.9%float, at_ 1.5%float with
  | JS.Return r1, JS.Return r2 =>
      option_map Match.faceId (Identification.bestMatch r1) = Some "b"%string /\
      Identification.bestMatch r2 = None /\
      Identification.similarity r1 = Some 1%float /\
      Identification.similarity r2 = Some 1%float
  | _, _ => False
  end.
Proof. vm_compute. repeat split. Qed.

(** ** [initialize] *)

(** The networks in the order [initialize] loads them. *)
Definition nets : list Net := [tinyFaceDetector; faceLandmark68Net; faceRecognitionNet].

(** [initialize] succeeds exactly when the three loads succeed; the engine
    is then initialized with its options unchanged, and the three networks
    were requested from [modelPath] in order. *)
Theorem initialize_success (this : FaceIdentifier)
    (loadFromUri : Net -> string -> LoadOutcome) :
  let r := initialize this loadFromUri in
  (Initialization.completion r = JS.Return true <->
   Forall (fun net => loadFromUri net modelPath = Loaded) nets) /\
  (forall value, Initialization.completion r = JS.Return value ->
     value = true /\
     isInitialized (Initialization.engine r) = true /\
     options (Initialization.engine r) = options this /\
     Initialization.requested r = map (fun net => (net, modelPath)) nets).
Proof.
  cbv zeta. unfold initialize, nets, load_error.
  destruct (loadFromUri tinyFaceDetector modelPath) eqn:E1;
    [destruct (loadFromUri faceLandmark68Net modelPath) eqn:E2;
     [destruct (loadFromUri faceRecognitionNet modelPath) eqn:E3|]|];
    cbn [Initialization.completion Initialization.engine Initialization.requested].
  - split; [split; [intros _; repeat constructor; assumption | reflexivity]|].
    intros value [= <-]. repeat split.
  - split; [split; [discriminate|]|discriminate].
    intros F. inversion F as [|? ? _ F1]; subst. inversion F1 as [|? ? _ F2]; subst.
    inversion F2 as [|? ? H3 _]; subst. congruence.
  - split; [split; [discriminate|]|discriminate].
    intros F. inversion F as [|? ? _ F1]; subst. inversion F1 as [|? ? H2 _]; subst.
    congruence.
  - split; [split; [discriminate|]|discriminate].
    intros F. inversion F as [|? ? H1 _]; subst. congruence.
Qed.

(** When [initialize] throws, the engine is left as it was (an engine that
    was initialized before stays initialized), the message is that of the
    first load that failed behind the fixed prefix, and no network after
    that one was requested. *)
Theorem initialize_failure (this : FaceIdentifier)
    (loadFromUri : Net -> string -> LoadOutcome) :
  let r := initialize this loadFromUri in
  forall message, Initialization.completion r = JS.Throw message ->
    Initialization.engine r = this /\
    exists before net after cause,
      nets = before ++ net :: after /\
      Forall (fun n => loadFromUri n modelPath = Loaded) before /\
      loadFromUri net modelPath = LoadFails cause /\
      message = ("Face engine failed to load: " ++ cause)%string /\
      Initialization.requested r = map (fun n => (n, modelPath)) (before ++ [net]).
Proof.
  cbv zeta. unfold initialize, nets, load_error. intros message.
  destruct (loadFromUri tinyFaceDetector modelPath) as [|m1] eqn:E1;
    [destruct (loadFromUri faceLandmark68Net modelPath) as [|m2] eqn:E2;
     [destruct (loadFromUri faceRecognitionNet modelPath) as [|m3] eqn:E3|]|];
    cbn [Initialization.completion Initialization.engine Initialization.requested];
    intros [= <-]; (split; [reflexivity|]).
  - exists [tinyFaceDetector; faceLandmark68Net], faceRecognitionNet, [], m3.
    repeat split; try assumption. repeat constructor; assumption.
  - exists [tinyFaceDetector], faceLandmark68Net, [faceRecognitionNet], m2.
    repeat split; try assumption. repeat constructor; assumption.
  - exists [], tinyFaceDetector, [faceLandmark68Net; faceRecognitionNet], m1.
    repeat split; try assumption. constructor.
Qed.

Lemma initialize_failure_witness :
  let this := constructor defaultOptions in
  let loadFromUri := fun (net : Net) (_ : string) =>
    match net with
    | faceLandmark68Net => LoadFails "404"
    | _ => Loaded
    end in
  let r := initialize this loadFromUri in
  Initialization.completion r = JS.Throw "Face engine failed to load: 404" /\
  Initialization.engine r = this /\
  exists before net after cause,
    nets = before ++ net :: after /\
    Forall (fun n => loadFromUri n modelPath = Loaded) before /\
    loadFromUri net modelPath = LoadFails cause /\
    "Face engine failed to load: 404"%string = ("Face engine failed to load: " ++ cause)%string /\
    Initialization.requested r = map (fun n => (n, modelPath)) (before ++ [net]).
Proof.
  cbv zeta. split; [reflexivity|].
  exact (initialize_failure (constructor defaultOptions)
           (fun (net : Net) (_ : string) =>
              match net with
              | faceLandmark68Net => LoadFails "404"
              | _ => Loaded
              end)
           "Face engine failed to load: 404" eq_refl).
Defined.

(** A constructed engine refuses to detect; once [initialize] has succeeded
    on it, [detectFaces] returns at least one face for every media element
    and [identifyFace] returns for every collection. *)
Theorem initialize_enables_detection {UserData : Type} (opts : Options)
    (loadFromUri : Net -> string -> LoadOutcome) (media : DetectorOutcome)
    (random : nat -> float) (storedFaces : list (FaceRecord.t UserData)) :
  Forall (fun net => loadFromUri net modelPath = Loaded) nets ->
  let this := constructor opts in
  let ready := Initialization.engine (initialize this loadFromUri) in
  detectFaces this media random = JS.Throw "Initialize engine first" /\
  options ready = opts /\
  (exists face others, detectFaces ready media random = JS.Return (face :: others)) /\
  (exists r, identifyFace ready media random storedFaces = JS.Return r).
Proof.
  intros F this ready.
  assert (R : ready = {| options := opts; isInitialized := true |}).
  { unfold ready, initialize, nets in *.
    inversion F as [|? ? H1 F1]; subst. inversion F1 as [|? ? H2 F2]; subst.
    inversion F2 as [|? ? H3 _]; subst. rewrite H1, H2, H3. reflexivity. }
  rewrite R. split; [reflexivity|]. split; [reflexivity|].
  split; [apply detectFaces_returns; reflexivity|].
  destruct storedFaces as [|c storedFaces]; [eexists; reflexivity|].
  destruct (identifyFace_returns {| options := opts; isInitialized := true |} media random
              (c :: storedFaces) eq_refl ltac:(discriminate)) as (face & others & _ & H).
  eexists. exact H.
Qed.

Lemma initialize_enables_detection_witness :
  let loadFromUri := fun (_ : Net) (_ : string) => Loaded in
  let this := constructor defaultOptions in
  let ready := Initialization.engine (initialize this loadFromUri) in
  Forall (fun net => loadFromUri net modelPath = Loaded) nets /\
  detectFaces this DetectorThrows Examples.random_half = JS.Throw "Initialize engine first" /\
  options ready = defaultOptions /\
  (exists face others,
     detectFaces ready DetectorThrows Examples.random_half = JS.Return (face :: others)) /\
  (exists r, identifyFace ready DetectorThrows Examples.random_half Examples.three_faces =
             JS.Return r).
Proof.
  cbv zeta.
  assert (F : Forall (fun net => (fun (_ : Net) (_ : string) => Loaded) net modelPath = Loaded)
                nets) by (repeat constructor).
  split; [exact F|].
  exact (initialize_enables_detection defaultOptions (fun _ _ => Loaded) DetectorThrows
           Examples.random_half Examples.three_faces F).
Defined.

(** ** [registerFace] and [batchRegisterFaces] *)

Module RegisterFacts.

(** What [registerFace] returns on an initialized engine. *)
Lemma registerFace_returns (this : FaceIdentifier) (media : DetectorOutcome) (host : Host.t) :
  isInitialized this = true ->
  exists face others r,
    detectFaces this media (Host.random host) = JS.Return (face :: others) /\
    registerFace this media host = JS.Return r /\
    FaceRecord.descriptor r = Face.descriptor face /\
    FaceRecord.hash r = _generateHash this (Face.descriptor face) /\
    FaceRecord.confidence r = Face.confidence face /\
    FaceRecord.timestamp r = Host.now host 1.
Proof.
  intros I. destruct (detectFaces_returns this media (Host.random host) I)
    as (face & others & D).
  exists face, others. unfold registerFace. rewrite D. eexists.
  split; [reflexivity|]. split; [reflexivity|]. repeat split.
Qed.

Lemma registerFace_throws (this : FaceIdentifier) (media : DetectorOutcome) (host : Host.t) :
  isInitialized this = false ->
  registerFace this media host = JS.Throw "Initialize engine first".
Proof. intros I. unfold registerFace, detectFaces. rewrite I. reflexivity. Qed.

(** A list of binary32 numbers goes through [new Float32Array(...)]
    unchanged. *)
Lemma Float32Array_fixed (descriptor : list float) :
  forallb is_float32 descriptor = true -> JS.Float32Array descriptor = descriptor.
Proof.
  unfold JS.Float32Array. induction descriptor as [|v descriptor IH]; [reflexivity|].
  cbn [forallb map]. intros H. apply andb_true_iff in H. destruct H as [Hv Hd].
  apply FloatAxioms.Leibniz.eqb_spec in Hv. rewrite Hv, (IH Hd). reflexivity.
Qed.

Lemma synthetic_is_float32 (random : nat -> float) :
  forallb is_float32 (Face.descriptor (_createSyntheticFace random)) = true.
Proof.
  rewrite Synthetic.synthetic_descriptor.
  rewrite <- (map_map (fun i => (random i * 0.5 + 0.25)%float) JS.fround).
  apply HashFacts.Float32Array_is_float32.
Qed.

(** A record at Hamming distance [0] of the query hash passes the
    prefilter. *)
Lemma same_hash_survives {UserData : Type} (storedFaces : list (FaceRecord.t UserData))
    (queryHash : string) (c : FaceRecord.t UserData) :
  In c storedFaces -> FaceRecord.hash c = queryHash ->
  In c (_filterByHash storedFaces queryHash default_threshold).
Proof.
  intros Hc Hh. unfold _filterByHash. destruct (_ <=? _)%nat; [exact Hc|].
  apply filter_In. split; [exact Hc|]. rewrite Hh, hammingDistance_spec.
  assert (Z : hamming_spec queryHash queryHash = 0%nat)
    by (apply HammingFacts.spec_zero; reflexivity).
  rewrite Z. reflexivity.
Qed.

End RegisterFacts.

(** On an initialized engine [registerFace] never throws.  It registers the
    first face that [detectFaces] returns: the record carries that face's
    descriptor and confidence (never [0] or NaN), the hash of that
    descriptor, which has no more characters than the descriptor has
    components, and the second reading of the clock as its timestamp. *)
Theorem registerFace_first_face (this : FaceIdentifier) (media : DetectorOutcome)
    (host : Host.t) :
  isInitialized this = true ->
  exists face others r,
    detectFaces this media (Host.random host) = JS.Return (face :: others) /\
    registerFace this media host = JS.Return r /\
    FaceRecord.descriptor r = Face.descriptor face /\
    FaceRecord.hash r = _generateHash this (FaceRecord.descriptor r) /\
    (String.length (FaceRecord.hash r) <= length (FaceRecord.descriptor r))%nat /\
    FaceRecord.confidence r = Face.confidence face /\
    JS.truthy (FaceRecord.confidence r) = true /\
    FaceRecord.timestamp r = Host.now host 1.
Proof.
  intros I.
  destruct (RegisterFacts.registerFace_returns this media host I)
    as (face & others & r & D & R & Ed & Eh & Ec & Et).
  exists face, others, r. rewrite Ed, Eh, Ec.
  split; [exact D|]. split; [exact R|]. split; [reflexivity|]. split; [reflexivity|].
  split; [|split; [reflexivity | split; [|exact Et]]].
  - unfold _generateHash. cbv zeta. rewrite HashFacts.hash_length.
    apply HashShape.slice_length.
  - revert D. unfold detectFaces. rewrite I. cbn [negb].
    destruct media as [|[[|det detections]|]]; cbn [length Nat.eqb map];
      intros [= <- _]; try reflexivity.
    cbn [Face.confidence]. destruct (JS.truthy (Detection.score det)) eqn:E;
      [exact E | reflexivity].
Qed.

(** A host for the examples: a fixed random number, a clock that advances
    by one millisecond per reading. *)
Definition example_host : Host.t :=
  {| Host.random := Examples.random_half;
     Host.now := fun i => 1700000000000 + Z.of_nat i;
     Host.toString36 := fun _ => "0.i"%string |}.

Lemma registerFace_first_face_witness :
  let this := Examples.engine 0.6 in
  let media := Examples.seen [1; 0]%float in
  isInitialized this = true /\
  exists face others r,
    detectFaces this media (Host.random example_host) = JS.Return (face :: others) /\
    registerFace this media example_host = JS.Return r /\
    FaceRecord.descriptor r = Face.descriptor face /\
    FaceRecord.hash r = _generateHash this (FaceRecord.descriptor r) /\
    (String.length (FaceRecord.hash r) <= length (FaceRecord.descriptor r))%nat /\
    FaceRecord.confidence r = Face.confidence face /\
    JS.truthy (FaceRecord.confidence r) = true /\
    FaceRecord.timestamp r = Host.now example_host 1.
Proof.
  cbv zeta. split; [reflexivity|].
  exact (registerFace_first_face (Examples.engine 0.6) (Examples.seen [1; 0]%float)
           example_host eq_refl).
Defined.

(** The record that the example host and detection give. *)
Definition example_record : FaceRecord.t unit :=
  {| FaceRecord.faceId := "face_1700000000000_i";
     FaceRecord.descriptor := [1; 0]%float;
     FaceRecord.hash := "10";
     FaceRecord.confidence := 0.9;
     FaceRecord.timestamp := 1700000000001;
     FaceRecord.userData := tt |}.

Example registerFace_example :
  registerFace (Examples.engine 0.6) (Examples.seen [1; 0]%float) example_host =
  JS.Return example_record.
Proof. vm_compute. reflexivity. Qed.

(** Registration and identification agree on the hash: a face registered
    by an engine and kept in the collection passes the prefilter of that
    engine whenever the detected descriptor is the registered one, however
    large the collection is. *)
Theorem registered_face_passes_prefilter (this : FaceIdentifier) (media : DetectorOutcome)
    (host : Host.t) (r : FaceRecord.t unit) (storedFaces : list (FaceRecord.t unit))
    (currentFace : Face.t) :
  registerFace this media host = JS.Return r ->
  In r storedFaces -> Face.descriptor currentFace = FaceRecord.descriptor r ->
  In r (survivors this currentFace storedFaces).
Proof.
  intros R Hr Hd.
  destruct (isInitialized this) eqn:I;
    [|rewrite (RegisterFacts.registerFace_throws this media host I) in R; discriminate].
  destruct (RegisterFacts.registerFace_returns this media host I)
    as (face & others & r' & _ & R' & Ed & Eh & _).
  rewrite R in R'. injection R' as <-. unfold survivors.
  apply RegisterFacts.same_hash_survives; [exact Hr|]. rewrite Hd, Eh, Ed. reflexivity.
Qed.

Lemma registered_face_passes_prefilter_witness :
  let this := Examples.engine 0.6 in
  let media := Examples.seen [1; 0]%float in
  let storedFaces := [Examples.stored "a" [0; 1]%float; example_record] in
  let currentFace :=
    {| Face.descriptor := [1; 0]%float; Face.box := Examples.box0; Face.confidence := 0.7 |} in
  registerFace this media example_host = JS.Return example_record /\
  In example_record storedFaces /\
  Face.descriptor currentFace = FaceRecord.descriptor example_record /\
  In example_record (survivors this currentFace storedFaces).
Proof.
  cbv zeta.
  assert (R : registerFace (Examples.engine 0.6) (Examples.seen [1; 0]%float) example_host =
              JS.Return example_record) by (vm_compute; reflexivity).
  assert (H : In example_record [Examples.stored "a" [0; 1]%float; example_record])
    by (right; left; reflexivity).
  split; [exact R|]. split; [exact H|]. split; [reflexivity|].
  exact (registered_face_passes_prefilter _ _ _ _ _
           {| Face.descriptor := [1; 0]%float; Face.box := Examples.box0;
              Face.confidence := 0.7 |} R H eq_refl).
Defined.

(** Descriptors survive storage: when the detector's descriptors hold
    binary32 numbers, as a [Float32Array] does, the descriptor that
    [registerFace] stores is read back unchanged by
    [new Float32Array(candidate.descriptor)], so [identifyFace] and
    [verifyFaces] compare the very numbers that were registered.  The
    synthetic descriptor always holds binary32 numbers. *)
Theorem registered_descriptor_round_trip (this : FaceIdentifier) (media : DetectorOutcome)
    (host : Host.t) (r : FaceRecord.t unit) :
  registerFace this media host = JS.Return r ->
  Forall (fun det => forallb is_float32 (Detection.descriptor det) = true)
    (detections_of media) ->
  JS.Float32Array (FaceRecord.descriptor r) = FaceRecord.descriptor r /\
  (forall currentFace,
     score currentFace r =
     _cosineSimilarity (Face.descriptor currentFace) (FaceRecord.descriptor r)) /\
  (forall other : FaceRecord.t unit,
     Verification.similarity (verifyFaces this r other) =
     _cosineSimilarity (FaceRecord.descriptor r)
       (JS.Float32Array (FaceRecord.descriptor other))).
Proof.
  intros R F.
  destruct (isInitialized this) eqn:I;
    [|rewrite (RegisterFacts.registerFace_throws this media host I) in R; discriminate].
  destruct (RegisterFacts.registerFace_returns this media host I)
    as (face & others & r' & D & R' & Ed & _).
  rewrite R in R'. injection R' as <-.
  assert (E : JS.Float32Array (FaceRecord.descriptor r) = FaceRecord.descriptor r).
  { apply RegisterFacts.Float32Array_fixed. rewrite Ed.
    revert D. unfold detectFaces. rewrite I. cbn [negb].
    destruct media as [|[[|det detections]|]]; cbn [length Nat.eqb map detections_of] in *;
      intros [= <- _]; try apply RegisterFacts.synthetic_is_float32.
    cbn [Face.descriptor]. inversion F; assumption. }
  split; [exact E|]. split.
  - intros currentFace. unfold score. rewrite E. reflexivity.
  - intros other. unfold verifyFaces. cbn [Verification.similarity]. rewrite E. reflexivity.
Qed.

Lemma registered_descriptor_round_trip_witness :
  let this := Examples.engine 0.6 in
  let media := Examples.seen [1; 0]%float in
  registerFace this media example_host = JS.Return example_record /\
  Forall (fun det => forallb is_float32 (Detection.descriptor det) = true)
    (detections_of media) /\
  JS.Float32Array (FaceRecord.descriptor example_record) =
    FaceRecord.descriptor example_record /\
  (forall currentFace,
     score currentFace example_record =
     _cosineSimilarity (Face.descriptor currentFace) (FaceRecord.descriptor example_record)) /\
  (forall other : FaceRecord.t unit,
     Verification.similarity (verifyFaces this example_record other) =
     _cosineSimilarity (FaceRecord.descriptor example_record)
       (JS.Float32Array (FaceRecord.descriptor other))).
Proof.
  cbv zeta.
  assert (R : registerFace (Examples.engine 0.6) (Examples.seen [1; 0]%float) example_host =
              JS.Return example_record) by (vm_compute; reflexivity).
  assert (F : Forall (fun det => forallb is_float32 (Detection.descriptor det) = true)
                (detections_of (Examples.seen [1; 0]%float)))
    by (constructor; [vm_compute; reflexivity | constructor]).
  split; [exact R|]. split; [exact F|].
  exact (registered_descriptor_round_trip _ _ _ _ R F).
Defined.

Module BatchFacts.

(** The [k]-th entry of a batch on an initialized engine is what
    [registerFace] returns on the [k]-th element, for a host whose clock has
    been read [2 * k] times. *)
Lemma entry (this : FaceIdentifier) (mediaArray : list DetectorOutcome) (host : Host.t)
    (k : nat) (media : DetectorOutcome) :
  isInitialized this = true -> nth_error mediaArray k = Some media ->
  exists host',
    nth_error (batchRegisterFaces this mediaArray host) k =
      Some (match registerFace this media host' with
            | JS.Return faceData => Some faceData
            | JS.Throw _ => None
            end) /\
    forall i, Host.now host' i = Host.now host (2 * k + i)%nat.
Proof.
  intros I. revert host k. induction mediaArray as [|m mediaArray IH]; intros host k H.
  - destruct k; discriminate.
  - cbn [batchRegisterFaces]. unfold registerFace_calls. rewrite I. cbn [negb].
    destruct k as [|k]; cbn [nth_error] in *.
    + injection H as ->. exists host. split; [reflexivity|]. intros i. reflexivity.
    + destruct (IH (Host.advance host (detectFaces_random_calls this m + 1) 2) k H)
        as (host' & E & N).
      exists host'. split; [exact E|]. intros i. rewrite N. cbn [Host.advance Host.now].
      f_equal. lia.
Qed.

Lemma length_batch (this : FaceIdentifier) (mediaArray : list DetectorOutcome)
    (host : Host.t) :
  length (batchRegisterFaces this mediaArray host) = length mediaArray.
Proof.
  revert host. induction mediaArray as [|m mediaArray IH]; intros host; [reflexivity|].
  cbn [batchRegisterFaces]. destruct (registerFace_calls this m) as [randoms clocks].
  cbn [length]. rewrite IH. reflexivity.
Qed.

End BatchFacts.

(** On an engine that is not initialized [batchRegisterFaces] does not
    throw: it swallows the error of every element and returns one [null] per
    element. *)
Theorem batchRegisterFaces_uninitialized (this : FaceIdentifier)
    (mediaArray : list DetectorOutcome) (host : Host.t) :
  isInitialized this = false ->
  batchRegisterFaces this mediaArray host = repeat None (length mediaArray).
Proof.
  intros I. revert host. induction mediaArray as [|m mediaArray IH]; intros host;
    [reflexivity|].
  cbn [batchRegisterFaces length repeat]. unfold registerFace_calls.
  rewrite (RegisterFacts.registerFace_throws this m host I), I. cbn [negb].
  rewrite IH. reflexivity.
Qed.

Lemma batchRegisterFaces_uninitialized_witness :
  let this := constructor defaultOptions in
  let mediaArray := [Examples.seen [1; 0]%float; DetectorThrows] in
  isInitialized this = false /\
  batchRegisterFaces this mediaArray example_host = [None; None].
Proof.
  cbv zeta. split; [reflexivity|].
  exact (batchRegisterFaces_uninitialized (constructor defaultOptions)
           [Examples.seen [1; 0]%float; DetectorThrows] example_host eq_refl).
Defined.

(** On an initialized engine [batchRegisterFaces] returns one record per
    element, in order, and no [null].  The [k]-th record carries the hash of
    its own descriptor, the descriptor of the first detection of the [k]-th
    element (128 synthetic components when there is no detection), and the
    clock reading number [2 * k + 1] as its timestamp. *)
Theorem batchRegisterFaces_initialized (this : FaceIdentifier)
    (mediaArray : list DetectorOutcome) (host : Host.t) :
  isInitialized this = true ->
  length (batchRegisterFaces this mediaArray host) = length mediaArray /\
  forall k media,
    nth_error mediaArray k = Some media ->
    exists r,
      nth_error (batchRegisterFaces this mediaArray host) k = Some (Some r) /\
      FaceRecord.hash r = _generateHash this (FaceRecord.descriptor r) /\
      FaceRecord.timestamp r = Host.now host (2 * k + 1)%nat /\
      match detections_of media with
      | det :: _ => FaceRecord.descriptor r = Detection.descriptor det
      | [] => length (FaceRecord.descriptor r) = 128%nat
      end.
Proof.
  intros I. split; [apply BatchFacts.length_batch|].
  intros k media Hk.
  destruct (BatchFacts.entry this mediaArray host k media I Hk) as (host' & E & N).
  destruct (RegisterFacts.registerFace_returns this media host' I)
    as (face & others & r & D & R & Ed & Eh & _ & Et).
  exists r. rewrite E, R, Ed, Eh, Et, N.
  split; [reflexivity|]. split; [reflexivity|]. split; [reflexivity|].
  revert D. unfold detectFaces. rewrite I. cbn [negb].
  destruct media as [|[[|det detections]|]]; cbn [length Nat.eqb map detections_of];
    intros [= <- _]; try reflexivity;
    rewrite Synthetic.synthetic_descriptor, length_map, length_seq; reflexivity.
Qed.

Lemma batchRegisterFaces_initialized_witness :
  let this := Examples.engine 0.6 in
  let mediaArray := [DetectorThrows; Examples.seen [1; 0]%float] in
  isInitialized this = true /\
  length (batchRegisterFaces this mediaArray example_host) = 2%nat /\
  nth_error mediaArray 1 = Some (Examples.seen [1; 0]%float) /\
  exists r,
    nth_error (batchRegisterFaces this mediaArray example_host) 1 = Some (Some r) /\
    FaceRecord.hash r = _generateHash this (FaceRecord.descriptor r) /\
    FaceRecord.timestamp r = 1700000000003 /\
    FaceRecord.descriptor r = [1; 0]%float.
Proof.
  cbv zeta.
  destruct (batchRegisterFaces_initialized (Examples.engine 0.6)
              [DetectorThrows; Examples.seen [1; 0]%float] example_host eq_refl) as [L E].
  split; [reflexivity|]. split; [exact L|]. split; [reflexivity|].
  exact (E 1%nat (Examples.seen [1; 0]%float) eq_refl).
Defined.

(** ** [identifyFace]: the reported similarity and the detections it reads *)

Module IdentifyBounds.
Import FloatOrder.

Section Loop.
Context {UserData : Type}.
Variable this : FaceIdentifier.
Variable currentFace : Face.t.

Abbreviation sc := (score (UserData := UserData) currentFace).

(** The running best never decreases and bounds every score that is a
    number, also when other scores are NaN. *)
Lemma loop_upper (cs : list (FaceRecord.t UserData)) :
  forall bm b ms,
    (0 <=? b)%float = true ->
    let b' := snd (fst (fold_left (identify_step this currentFace) cs (bm, b, ms))) in
    (b <=? b')%float = true /\
    Forall (fun c => is_nan (sc c) = true \/ (sc c <=? b')%float = true) cs.
Proof.
  induction cs as [|c cs IH]; intros bm b ms B; cbn [fold_left].
  - cbn. split; [|constructor]. apply leb_refl. apply leb_not_nan in B. tauto.
  - rewrite Matcher.step_eq. cbv zeta. destruct (b <? sc c)%float eqn:E.
    + assert (B1 : (0 <=? sc c)%float = true)
        by (apply ltb_leb; eapply leb_ltb_trans; eassumption).
      destruct (IH (if (matchThreshold (options this) <=? sc c)%float
                    then Some (mkMatch c (sc c)) else bm) (sc c)
                   (ms ++ [mkMatch c (sc c)]) B1) as [L F].
      split; [eapply leb_trans; [apply ltb_leb, E | exact L]|].
      constructor; [right; exact L | exact F].
    + destruct (IH bm b (ms ++ [mkMatch c (sc c)]) B) as [L F].
      split; [exact L|]. constructor; [|exact F].
      destruct (is_nan (sc c)) eqn:N; [left; reflexivity | right].
      eapply leb_trans; [|exact L]. apply not_ltb_leb; [exact N | | exact E].
      apply leb_not_nan in B. tauto.
Qed.

End Loop.
End IdentifyBounds.

(** The [similarity] that [identifyFace] reports is missing exactly for an
    empty collection; otherwise it is a number, at least [0], and no
    candidate has a larger similarity (a candidate's similarity may be
    NaN).  No hypothesis on the scores is needed. *)
Theorem identifyFace_similarity_bounds {UserData : Type} (this : FaceIdentifier)
    (media : DetectorOutcome) (random : nat -> float)
    (storedFaces : list (FaceRecord.t UserData)) :
  match identifyFace this media random storedFaces with
  | JS.Return r =>
      match Identification.similarity r with
      | Some s =>
          storedFaces <> [] /\ (0 <=? s)%float = true /\ is_nan s = false /\
          Forall (fun m => is_nan (Match.similarity m) = true \/
                           (Match.similarity m <=? s)%float = true)
            (Identification.candidates r)
      | None => storedFaces = [] /\ Identification.candidates r = []
      end
  | JS.Throw _ => True
  end.
Proof.
  unfold identifyFace. destruct storedFaces as [|c0 storedFaces]; [split; reflexivity|].
  cbn [length Nat.eqb].
  destruct (detectFaces this media random) as [[|face others]|message]; try exact I.
  destruct (identify_fields this face (c0 :: storedFaces)) as (_ & S & C & _).
  cbv zeta in *. rewrite S, C.
  destruct (IdentifyBounds.loop_upper this face (survivors this face (c0 :: storedFaces))
              None 0%float [] eq_refl) as [L F].
  cbv zeta in *. split; [discriminate|]. split; [exact L|].
  split; [apply FloatOrder.leb_not_nan in L; tauto|].
  apply Forall_take.
  change (@by_similarity_desc UserData) with (SortFacts.comparefn (@Match.similarity UserData)).
  eapply Permutation_Forall; [symmetry; apply SortFacts.sort_perm|].
  unfold matchesOf. apply Forall_map. exact F.
Qed.

(** Only the first detection counts: [identifyFace] and [registerFace] give
    the same result whatever the detector reports after it, and with a
    detection the random numbers that [detectFaces] is given are not used. *)
Theorem first_detection_only {UserData : Type} (this : FaceIdentifier)
    (det : Detection.t) (rest : list Detection.t) (random random' : nat -> float)
    (host : Host.t) (storedFaces : list (FaceRecord.t UserData)) :
  identifyFace this (DetectorReturns (Some (det :: rest))) random storedFaces =
  identifyFace this (DetectorReturns (Some [det])) random' storedFaces /\
  registerFace this (DetectorReturns (Some (det :: rest))) host =
  registerFace this (DetectorReturns (Some [det])) host.
Proof.
  unfold identifyFace, registerFace, detectFaces, detectFaces_random_calls.
  destruct (isInitialized this); cbn [negb length Nat.eqb map];
    split; try reflexivity; destruct (length storedFaces =? 0)%nat; reflexivity.
Qed.

(** ** [drawFaceBoxes] *)

(** The 2D context of a canvas, as far as [drawFaceBoxes] uses it: the
    current styles, and what has been painted, each painting with the styles
    it was painted with.  Coordinates are JavaScript numbers. *)
Module Canvas.

(** The [box] of a detection. *)
Record Box := { x : float; y : float; width : float; height : float }.

Inductive Painting :=
| StrokedRect (strokeStyle : string) (lineWidth : float) (x y width height : float)
| FilledText (fillStyle font text : string) (x y : float).

Record Context2D := {
  strokeStyle : string;
  lineWidth : float;
  fillStyle : string;
  font : string;
  painted : list Painting
}.

Definition set_strokeStyle (ctx : Context2D) (value : string) : Context2D :=
  {| strokeStyle := value; lineWidth := lineWidth ctx; fillStyle := fillStyle ctx;
     font := font ctx; painted := painted ctx |}.

Definition set_lineWidth (ctx : Context2D) (value : float) : Context2D :=
  {| strokeStyle := strokeStyle ctx; lineWidth := value; fillStyle := fillStyle ctx;
     font := font ctx; painted := painted ctx |}.

Definition set_fillStyle (ctx : Context2D) (value : string) : Context2D :=
  {| strokeStyle := strokeStyle ctx; lineWidth := lineWidth ctx; fillStyle := value;
     font := font ctx; painted := painted ctx |}.

Definition set_font (ctx : Context2D) (value : string) : Context2D :=
  {| strokeStyle := strokeStyle ctx; lineWidth := lineWidth ctx; fillStyle := fillStyle ctx;
     font := value; painted := painted ctx |}.

Definition strokeRect (ctx : Context2D) (x y width height : float) : Context2D :=
  {| strokeStyle := strokeStyle ctx; lineWidth := lineWidth ctx; fillStyle := fillStyle ctx;
     font := font ctx;
     painted :=
       painted ctx ++ [StrokedRect (strokeStyle ctx) (lineWidth ctx) x y width height] |}.

Definition fillText (ctx : Context2D) (text : string) (x y : float) : Context2D :=
  {| strokeStyle := strokeStyle ctx; lineWidth := lineWidth ctx; fillStyle := fillStyle ctx;
     font := font ctx;
     painted := painted ctx ++ [FilledText (fillStyle ctx) (font ctx) text x y] |}.

End Canvas.

(** The callback of [detections.forEach]; a detection is represented by its
    [box], the only property that is read. *)
Definition draw_box (ctx : Canvas.Context2D) (box : Canvas.Box) (idx : nat)
    : Canvas.Context2D :=
  let ctx := Canvas.set_strokeStyle ctx "#00ff00" in
  let ctx := Canvas.set_lineWidth ctx 2 in
  let ctx :=
    Canvas.strokeRect ctx (Canvas.x box) (Canvas.y box) (Canvas.width box)
      (Canvas.height box) in
  let ctx := Canvas.set_fillStyle ctx "#00ff00" in
  let ctx := Canvas.set_font ctx "14px Arial" in
  Canvas.fillText ctx ("Face " ++ Number_toString (Z.of_nat idx + 1)) (Canvas.x box)
    (JS.Math_max 15 (Canvas.y box - 5)%float).

(** [drawFaceBoxes(canvas, detections)]; the canvas is represented by what
    [canvas.getContext('2d')] returns, [None] for [null]. *)
Definition drawFaceBoxes (context : option Canvas.Context2D) (detections : list Canvas.Box)
    : JS.Completion (option Canvas.Context2D) :=
  match context, detections with
  | None, [] => JS.Return None
  | None, _ :: _ => JS.Throw "TypeError: ctx is null"
  | Some ctx, _ =>
      JS.Return
        (Some
           (fst
              (fold_left (fun '(ctx, idx) box => (draw_box ctx box idx, S idx))
                 detections (ctx, 0%nat))))
  end.

Module DrawFacts.

(** The two paintings of one detection. *)
Definition paintings (idx : nat) (box : Canvas.Box) : list Canvas.Painting :=
  [Canvas.StrokedRect "#00ff00" 2 (Canvas.x box) (Canvas.y box) (Canvas.width box)
     (Canvas.height box);
   Canvas.FilledText "#00ff00" "14px Arial" ("Face " ++ Number_toString (Z.of_nat idx + 1))
     (Canvas.x box) (JS.Math_max 15 (Canvas.y box - 5)%float)].

Fixpoint all_paintings (idx : nat) (detections : list Canvas.Box) : list Canvas.Painting :=
  match detections with
  | [] => []
  | box :: rest => paintings idx box ++ all_paintings (S idx) rest
  end.

Lemma loop (detections : list Canvas.Box) :
  forall ctx idx,
    Canvas.painted
      (fst (fold_left (fun '(ctx, idx) box => (draw_box ctx box idx, S idx))
              detections (ctx, idx))) =
    Canvas.painted ctx ++ all_paintings idx detections.
Proof.
  induction detections as [|box rest IH]; intros ctx idx; cbn [fold_left all_paintings].
  - rewrite app_nil_r. reflexivity.
  - rewrite IH. unfold draw_box, paintings.
    cbn [Canvas.painted Canvas.fillText Canvas.set_font Canvas.set_fillStyle
         Canvas.strokeRect Canvas.set_lineWidth Canvas.set_strokeStyle
         Canvas.strokeStyle Canvas.lineWidth Canvas.fillStyle Canvas.font].
    rewrite <- !app_assoc. reflexivity.
Qed.

Lemma length_all (idx : nat) (detections : list Canvas.Box) :
  length (all_paintings idx detections) = (2 * length detections)%nat.
Proof.
  revert idx. induction detections as [|box rest IH]; intros idx; [reflexivity|].
  cbn [all_paintings length paintings app]. rewrite IH. lia.
Qed.

Lemma nth_all (detections : list Canvas.Box) :
  forall idx k box,
    nth_error detections k = Some box ->
    firstn 2 (skipn (2 * k) (all_paintings idx detections)) = paintings (idx + k) box.
Proof.
  induction detections as [|d rest IH]; intros idx k box H; [destruct k; discriminate|].
  destruct k as [|k]; cbn [nth_error] in H.
  - injection H as ->. rewrite Nat.add_0_r. reflexivity.
  - replace (2 * S k)%nat with (S (S (2 * k))) by lia.
    cbn [all_paintings paintings app skipn].
    rewrite (IH (S idx) k box H). f_equal; lia.
Qed.

(** [Math.max(15, v)] is at least [15] unless [v] is NaN. *)
Lemma Math_max_lower (v : float) :
  is_nan v = false -> (15 <=? JS.Math_max 15 v)%float = true.
Proof.
  intros N. unfold JS.Math_max. rewrite N. change (is_nan 15) with false. cbn [orb].
  destruct (15 <? v)%float eqn:E; [apply FloatOrder.ltb_leb, E|].
  destruct (v <? 15)%float; reflexivity.
Qed.

Lemma Math_max_nan (v : float) : is_nan v = true -> is_nan (JS.Math_max 15 v) = true.
Proof. intros N. unfold JS.Math_max. rewrite N, orb_true_r. reflexivity. Qed.

(** Subtracting a finite number from a number gives a number. *)
Lemma sub_number (v k : float) (s : bool) (m : positive) (e : Z) :
  Prim2SF k = S754_finite s m e -> is_nan v = false -> is_nan (v - k) = false.
Proof.
  intros K N. apply FloatOrder.is_nan_false. apply FloatOrder.is_nan_false in N.
  rewrite sub_spec, K. unfold SF64sub.
  destruct (Prim2SF v) as [sv|sv| |sv mv ev] eqn:V; cbn [SFsub]; try discriminate;
    [congruence|].
  destruct (Synthetic.valid64 _ _ _ _ V) as (_ & Bv & _).
  destruct (Synthetic.valid64 _ _ _ _ K) as (_ & Bk & _).
  set (d := (cond_Zopp sv (Zpos (fst (shl_align mv ev (Z.min ev e)))) -
             cond_Zopp s (Zpos (fst (shl_align m e (Z.min ev e)))))).
  destruct (Z.eq_dec d 0) as [-> | Hd]; [discriminate|].
  pose proof (Rounding.binary_normalize_signed prec emax eq_refl d (Z.min ev e)
                ltac:(change (SpecFloat.emin prec emax) with (-1074); lia) Hd) as S.
  destruct (binary_normalize prec emax d (Z.min ev e) false); cbn in S;
    [contradiction | discriminate | contradiction | discriminate].
Qed.

End DrawFacts.

(** With a context, [drawFaceBoxes] keeps what was painted before and adds
    two paintings per detection, in order: the box in green with line width
    2, then the label ["Face k"], numbered from 1, in green 14px Arial at the
    left edge of the box and at [y = Math.max(15, box.y - 5)]; that is at
    least [15] when [box.y] is a number and NaN when it is NaN.  Without a
    context it throws as soon as there is one detection, and does nothing
    for none. *)
Theorem drawFaceBoxes_paints (context : option Canvas.Context2D)
    (detections : list Canvas.Box) :
  match context with
  | Some ctx =>
      exists ctx',
        drawFaceBoxes context detections = JS.Return (Some ctx') /\
        length (Canvas.painted ctx') =
          (length (Canvas.painted ctx) + 2 * length detections)%nat /\
        firstn (length (Canvas.painted ctx)) (Canvas.painted ctx') = Canvas.painted ctx /\
        forall k box,
          nth_error detections k = Some box ->
          let labelY := JS.Math_max 15 (Canvas.y box - 5)%float in
          firstn 2 (skipn (length (Canvas.painted ctx) + 2 * k) (Canvas.painted ctx')) =
          [Canvas.StrokedRect "#00ff00" 2 (Canvas.x box) (Canvas.y box) (Canvas.width box)
             (Canvas.height box);
           Canvas.FilledText "#00ff00" "14px Arial"
             ("Face " ++ Number_toString (Z.of_nat k + 1)) (Canvas.x box) labelY] /\
          (is_nan (Canvas.y box) = false -> (15 <=? labelY)%float = true) /\
          (is_nan (Canvas.y box) = true -> is_nan labelY = true)
  | None =>
      (detections = [] -> drawFaceBoxes context detections = JS.Return None) /\
      (detections <> [] -> exists message, drawFaceBoxes context detections = JS.Throw message)
  end.
Proof.
  destruct context as [ctx|].
  - eexists. split; [destruct detections; reflexivity|].
    rewrite DrawFacts.loop. split; [|split].
    + rewrite length_app, DrawFacts.length_all. reflexivity.
    + rewrite firstn_app, Nat.sub_diag, firstn_all. cbn [firstn]. apply app_nil_r.
    + intros k box H. cbv zeta. split; [|split].
      * rewrite skipn_app, (skipn_all2 (Canvas.painted ctx)) by lia.
        replace (length (Canvas.painted ctx) + 2 * k - length (Canvas.painted ctx))%nat
          with (2 * k)%nat by lia.
        cbn [app]. rewrite (DrawFacts.nth_all detections 0 k box H). reflexivity.
      * intros N. apply DrawFacts.Math_max_lower.
        apply (DrawFacts.sub_number _ 5%float false 5629499534213120 (-50));
          [reflexivity | exact N].
      * intros N. apply DrawFacts.Math_max_nan.
        apply FloatOrder.is_nan_spec. apply FloatOrder.is_nan_spec in N.
        rewrite sub_spec, N. reflexivity.
  - split; [intros ->; reflexivity|].
    destruct detections; [congruence | eexists; reflexivity].
Qed.

Example drawFaceBoxes_example :
  let blank := {| Canvas.strokeStyle := "#000000"; Canvas.lineWidth := 1;
                  Canvas.fillStyle := "#000000"; Canvas.font := "10px sans-serif";
                  Canvas.painted := [] |} in
  let box y0 := {| Canvas.x := 30.5; Canvas.y := y0; Canvas.width := 40;
                   Canvas.height := 50 |} in
  option_map Canvas.painted
    (match drawFaceBoxes (Some blank) [box 100.25; box 3; box nan]%float with
     | JS.Return ctx => ctx
     | JS.Throw _ => None
     end) =
  Some [Canvas.StrokedRect "#00ff00" 2 30.5 100.25 40 50;
        Canvas.FilledText "#00ff00" "14px Arial" "Face 1" 30.5 95.25;
        Canvas.StrokedRect "#00ff00" 2 30.5 3 40 50;
        Canvas.FilledText "#00ff00" "14px Arial" "Face 2" 30.5 15;
        Canvas.StrokedRect "#00ff00" 2 30.5 nan 40 50;
        Canvas.FilledText "#00ff00" "14px Arial" "Face 3" 30.5 nan]%float.
Proof. vm_compute. reflexivity. Qed.
